(** * RBTree.hpp: a red-black tree with parent links, over an explicit heap

    The C++ class [demidenko::RBTree<K, T, Compare>] keeps its nodes on the
    free store and links them with raw pointers ([p], [left], [right]).
    The embedding below keeps that shape: a heap of nodes addressed by
    positive numbers, [None] for [nullptr], and every member function as
    a state transformer that may return, throw a C++ exception, or stop
    on a failed [assert] or a null dereference.  Loops take fuel. *)

From stdpp Require Import base option list gmap sorting.
From Stdlib Require Import ZArith Lia.

(** ** Nodes ([RBTreeNode.hpp], namespace [detail]) *)

Module detail.

Inductive Color := Red | Black.

Definition Color_eqb (a b : Color) : bool :=
  match a, b with
  | Red, Red | Black, Black => true
  | _, _ => false
  end.

(** [Node{ value, color, p }] in the source fixes the order of the first
    three members; [left] and [right] default to [nullptr]. *)
Record Node (K T : Type) := mkNode {
  value : K * T;
  color : Color;
  p : option positive;
  left : option positive;
  right : option positive
}.
Arguments mkNode {K T}.
Arguments value {K T}.
Arguments color {K T}.
Arguments p {K T}.
Arguments left {K T}.
Arguments right {K T}.

(** Modelled from the spec: the member [child(bool)] of [detail::Node] is
    declared in [RBTreeNode.hpp], which is not part of the sources at hand.
    The uncle is "the sibling of the parent under the grandparent" and the
    source takes it as [grandpa->child(!isParentLeft)], so [child(true)]
    is the left link and [child(false)] the right one. *)
Definition child {K T} (n : Node K T) (isLeft : bool) : option positive :=
  if isLeft then left n else right n.

End detail.

Abbreviation Color := detail.Color.
Abbreviation Red := detail.Red.
Abbreviation Black := detail.Black.
Abbreviation Node := detail.Node.

(** A [Node*]: [None] is [nullptr]. *)
Abbreviation ptr := (option positive).

Definition ptr_eqb (a b : ptr) : bool := bool_decide (a = b).

Definition is_null (a : ptr) : bool :=
  match a with None => true | Some _ => false end.

(** ** The comparator and the mapped type *)

(** [Compare] is a function object: it is default-constructible and is
    called on two keys.  The class builds one in two ways.  [compare_({})]
    in [RBTree()] initializes the member from an empty list, which sets
    every data member of the comparator: [default_compare].  A member left
    out of a constructor's initializer list is default-initialized, which
    runs the default constructor of [Compare] and nothing else:
    [default_init] is the object it builds.  The two agree for a comparator
    whose default constructor sets all its members and need not otherwise. *)
Class Comparator (K Compare : Type) := {
  call : Compare → K → K → bool;
  default_compare : Compare;
  default_init : Compare
}.

(** [T()] in [operator[]]. *)
Class DefaultConstructible (T : Type) := { default_value : T }.

(** ** Machine state *)

Inductive Exn := out_of_range | bad_alloc.
Inductive Fault := NullDeref | AssertionFailed | IllTyped.

Section Machine.
Context {K T Compare : Type}.

(** The two data members of the class. *)
Record RBTree := mkRBTree {
  root_ : ptr;
  compare_ : Compare
}.

(** The free store, the address the next [new] returns, the number of
    allocations that still succeed before [new] throws, and the object
    the running member function was called on. *)
Record State := mkState {
  heap : gmap positive (Node K T);
  next : positive;
  avail : nat;
  this : RBTree
}.

Definition set_heap (h : gmap positive (Node K T)) (s : State) : State :=
  mkState h (next s) (avail s) (this s).
Definition set_this (t : RBTree) (s : State) : State :=
  mkState (heap s) (next s) (avail s) t.
Definition set_root (r : ptr) (s : State) : State :=
  set_this (mkRBTree r (compare_ (this s))) s.

Inductive Res (A : Type) :=
| Ret (a : A) (s : State)
| Throw (e : Exn) (s : State)
| Abort (f : Fault)
| OutOfFuel.
Arguments Ret {A}.
Arguments Throw {A}.
Arguments Abort {A}.
Arguments OutOfFuel {A}.

Definition M (A : Type) := State → Res A.

Definition ret {A} (a : A) : M A := fun s => Ret a s.
Definition bind {A B} (m : M A) (k : A → M B) : M B :=
  fun s =>
    match m s with
    | Ret a s' => k a s'
    | Throw e s' => Throw e s'
    | Abort f => Abort f
    | OutOfFuel => OutOfFuel
    end.
Definition throw {A} (e : Exn) : M A := fun s => Throw e s.
Definition abort {A} (f : Fault) : M A := fun _ => Abort f.
Definition out_of_fuel {A} : M A := fun _ => OutOfFuel.
(** [try { m } catch (...) { h }] *)
Definition try_catch {A} (m : M A) (h : M A) : M A :=
  fun s =>
    match m s with
    | Throw _ s' => h s'
    | r => r
    end.
Definition assert (b : bool) : M unit :=
  if b then ret tt else abort AssertionFailed.

End Machine.

Arguments RBTree : clear implicits.
Arguments State : clear implicits.
Arguments Res : clear implicits.
Arguments M : clear implicits.
Arguments Ret {K T Compare A}.
Arguments Throw {K T Compare A}.
Arguments Abort {K T Compare A}.
Arguments OutOfFuel {K T Compare A}.

Declare Scope rb_scope.
Delimit Scope rb_scope with rb.
Notation "'let*' x ':=' m 'in' k" := (bind m (fun x => k))
  (at level 10, x name, m at level 100, k at level 200) : rb_scope.
Notation "m ;;; k" := (bind m (fun _ => k))
  (at level 100, right associativity) : rb_scope.
Local Open Scope rb_scope.

Section RBTree.
Context {K T Compare : Type} `{!Comparator K Compare} `{!DefaultConstructible T}.

Abbreviation St := (State K T Compare).
Abbreviation Mon := (M K T Compare).

(** *** Memory access *)

Definition load (a : ptr) : Mon (Node K T) :=
  fun s =>
    match a with
    | None => Abort NullDeref
    | Some x =>
        match heap s !! x with
        | Some n => Ret n s
        | None => Abort NullDeref
        end
    end.

Definition modify (a : ptr) (f : Node K T → Node K T) : Mon unit :=
  fun s =>
    match a with
    | None => Abort NullDeref
    | Some x =>
        match heap s !! x with
        | Some n => Ret tt (set_heap (<[x := f n]> (heap s)) s)
        | None => Abort NullDeref
        end
    end.

Definition get_value (a : ptr) : Mon (K * T) := let* n := load a in ret (detail.value n).
Definition get_key (a : ptr) : Mon K := let* n := load a in ret (detail.value n).1.
Definition get_color (a : ptr) : Mon Color := let* n := load a in ret (detail.color n).
Definition get_p (a : ptr) : Mon ptr := let* n := load a in ret (detail.p n).
Definition get_left (a : ptr) : Mon ptr := let* n := load a in ret (detail.left n).
Definition get_right (a : ptr) : Mon ptr := let* n := load a in ret (detail.right n).
Definition get_child (a : ptr) (isLeft : bool) : Mon ptr :=
  let* n := load a in ret (detail.child n isLeft).

Definition set_color (a : ptr) (c : Color) : Mon unit :=
  modify a (fun n => detail.mkNode (detail.value n) c (detail.p n) (detail.left n) (detail.right n)).
Definition set_p (a : ptr) (q : ptr) : Mon unit :=
  modify a (fun n => detail.mkNode (detail.value n) (detail.color n) q (detail.left n) (detail.right n)).
Definition set_left (a : ptr) (q : ptr) : Mon unit :=
  modify a (fun n => detail.mkNode (detail.value n) (detail.color n) (detail.p n) q (detail.right n)).
Definition set_right (a : ptr) (q : ptr) : Mon unit :=
  modify a (fun n => detail.mkNode (detail.value n) (detail.color n) (detail.p n) (detail.left n) q).

(** [new Node{ v, c, parent }]: throws [std::bad_alloc] once the store is
    exhausted. *)
Definition new_node (v : K * T) (c : Color) (parent : ptr) : Mon ptr :=
  fun s =>
    match avail s with
    | O => Throw bad_alloc s
    | S n =>
        Ret (Some (next s))
            (mkState (<[next s := detail.mkNode v c parent None None]> (heap s))
                     (Pos.succ (next s)) n (this s))
    end.

(** [delete a] *)
Definition delete_node (a : ptr) : Mon unit :=
  fun s =>
    match a with
    | None => Ret tt s
    | Some x =>
        match heap s !! x with
        | Some _ => Ret tt (set_heap (delete x (heap s)) s)
        | None => Abort NullDeref
        end
    end.

Definition get_root : Mon ptr := fun s => Ret (root_ (this s)) s.
Definition put_root (r : ptr) : Mon unit := fun s => Ret tt (set_root r s).

(** [compare_(a, b)] *)
Definition compare (a b : K) : Mon bool :=
  fun s => Ret (call (compare_ (this s)) a b) s.

(** *** Navigator *)

Definition colorOf (target : ptr) : Mon Color :=
  if is_null target then ret Black else get_color target.

Definition areKeysEqual (first second : K) : Mon bool :=
  let* a := compare first second in
  if a then ret false
  else let* b := compare second first in ret (negb b).

(** One turn of the [while (!hasFound)] loop of [findNode] per unit of
    fuel. *)
Fixpoint findNode_loop (fuel : nat) (key : K) (current : ptr) (hasFound : bool) : Mon ptr :=
  if hasFound then ret current
  else
    match fuel with
    | O => out_of_fuel
    | S fuel =>
        let* k := get_key current in
        let* eq := areKeysEqual key k in
        if eq then findNode_loop fuel key current true
        else
          let* k := get_key current in
          let* lt := compare key k in
          if lt then
            let* l := get_left current in
            if is_null l then findNode_loop fuel key current true
            else findNode_loop fuel key l false
          else
            let* r := get_right current in
            if is_null r then findNode_loop fuel key current true
            else findNode_loop fuel key r false
    end.

Definition findNode (fuel : nat) (key : K) : Mon ptr :=
  let* current := get_root in
  findNode_loop fuel key current (is_null current).

Fixpoint minNode_loop (fuel : nat) (target : ptr) : Mon ptr :=
  match fuel with
  | O => out_of_fuel
  | S fuel =>
      let* l := get_left target in
      if is_null l then ret target else minNode_loop fuel l
  end.

Definition minNode (fuel : nat) (target : ptr) : Mon ptr :=
  if is_null target then ret None else minNode_loop fuel target.

(** *** Rotations *)

Definition updateParentNode (oldNode newNode : ptr) : Mon unit :=
  let* op := get_p oldNode in
  if is_null op then put_root newNode
  else
    let* ok := get_key oldNode in
    let* pk := get_key op in
    let* lt := compare ok pk in
    if lt then set_left op newNode else set_right op newNode.

Definition rotateRight (target : ptr) : Mon unit :=
  let* tl := get_left target in
  assert (negb (is_null tl)) ;;;
  updateParentNode target tl ;;;
  let* tl := get_left target in
  let* middle := get_right tl in
  let* tp := get_p target in
  set_p tl tp ;;;
  let* tl := get_left target in
  set_right tl target ;;;
  let* tl := get_left target in
  set_p target tl ;;;
  set_left target middle ;;;
  if is_null middle then ret tt else set_p middle target.

Definition rotateLeft (target : ptr) : Mon unit :=
  let* tr := get_right target in
  assert (negb (is_null tr)) ;;;
  updateParentNode target tr ;;;
  let* tr := get_right target in
  let* middle := get_left tr in
  let* tp := get_p target in
  set_p tr tp ;;;
  let* tr := get_right target in
  set_left tr target ;;;
  let* tr := get_right target in
  set_p target tr ;;;
  set_right target middle ;;;
  if is_null middle then ret tt else set_p middle target.

Definition rotate (target : ptr) (isLeft : bool) : Mon unit :=
  if isLeft then rotateLeft target else rotateRight target.

(** *** Insertion *)

(** One turn of [while (colorOf(target->p) == Color::Red)] per unit of
    fuel. *)
Fixpoint insertFixup_loop (fuel : nat) (target : ptr) : Mon unit :=
  match fuel with
  | O => out_of_fuel
  | S fuel =>
      let* tp := get_p target in
      let* c := colorOf tp in
      match c with
      | Black => ret tt
      | Red =>
          let* tp := get_p target in
          let* tpp := get_p tp in
          let* tppl := get_left tpp in
          let isParentLeft := ptr_eqb tp tppl in
          let* tp := get_p target in
          let* grandpa := get_p tp in
          let* uncle := get_child grandpa (negb isParentLeft) in
          let* uc := colorOf uncle in
          match uc with
          | Red =>
              let* tp := get_p target in
              set_color tp Black ;;;
              set_color uncle Black ;;;
              set_color grandpa Red ;;;
              insertFixup_loop fuel grandpa
          | Black =>
              let* tp := get_p target in
              let* tpr := get_right tp in
              let* target := (if Bool.eqb (ptr_eqb target tpr) isParentLeft
                              then let* tp := get_p target in
                                   rotate tp isParentLeft ;;;
                                   ret tp
                              else ret target) in
              let* tp := get_p target in
              set_color tp Black ;;;
              let* tp := get_p target in
              let* tpp := get_p tp in
              set_color tpp Red ;;;
              let* tp := get_p target in
              let* tpp := get_p tp in
              rotate tpp (negb isParentLeft) ;;;
              insertFixup_loop fuel target
          end
      end
  end.

Definition insertFixup (fuel : nat) (target : ptr) : Mon unit :=
  insertFixup_loop fuel target ;;;
  let* r := get_root in
  set_color r Black.

Definition insertNode (fuel : nat) (candidate : ptr) (key : K) (v : T) : Mon ptr :=
  if is_null candidate then
    let* r := new_node (key, v) Black None in
    put_root r ;;;
    get_root
  else
    let* ck := get_key candidate in
    let* eq := areKeysEqual key ck in
    if eq then ret None
    else
      let* newNode := new_node (key, v) Red candidate in
      let* ck := get_key candidate in
      let* lt := compare ck key in
      (if lt then set_right candidate newNode else set_left candidate newNode) ;;;
      insertFixup fuel newNode ;;;
      ret newNode.

(** [bool insert(key, value)]: the returned [Node*] converts to [bool]. *)
Definition insert (fuel : nat) (key : K) (v : T) : Mon bool :=
  let* candidate := findNode fuel key in
  let* r := insertNode fuel candidate key v in
  ret (negb (is_null r)).

(** *** Deletion *)

(** The [while (target && colorOf(child) == Color::Black)] loop of
    [eraseFixup]; it hands back the two variables the code after the loop
    reads. *)
Fixpoint eraseFixup_loop (fuel : nat) (target : ptr) (isLeftBroken : bool)
    (child brother : ptr) : Mon (ptr * bool) :=
  match fuel with
  | O => out_of_fuel
  | S fuel =>
      if is_null target then ret (target, isLeftBroken)
      else
        let* cc := colorOf child in
        match cc with
        | Red => ret (target, isLeftBroken)
        | Black =>
            let* bc := colorOf brother in
            let* brother := (match bc with
                       | Red =>
                           set_color brother Black ;;;
                           set_color target Red ;;;
                           rotate target isLeftBroken ;;;
                           get_child target (negb isLeftBroken)
                       | Black => ret brother
                       end) in
            assert (negb (is_null brother)) ;;;
            let* near := get_child brother isLeftBroken in
            let* nc := colorOf near in
            let* bothBlack := (match nc with
                         | Red => ret false
                         | Black =>
                             let* far := get_child brother (negb isLeftBroken) in
                             let* fc := colorOf far in
                             ret (detail.Color_eqb fc Black)
                         end) in
            if bothBlack then
              set_color brother Red ;;;
              let* r := get_root in
              let* isLeftBroken' := (if ptr_eqb target r then ret true
                               else let* tp := get_p target in
                                    let* c := get_child tp isLeftBroken in
                                    ret (ptr_eqb target c)) in
              let* target' := get_p target in
              if is_null target' then
                eraseFixup_loop fuel target' isLeftBroken' child brother
              else
                let* child' := get_child target' isLeftBroken' in
                let* brother' := get_child target' (negb isLeftBroken') in
                eraseFixup_loop fuel target' isLeftBroken' child' brother'
            else
              let* far := get_child brother (negb isLeftBroken) in
              let* fc := colorOf far in
              let* brother := (match fc with
                         | Black =>
                             let* near := get_child brother isLeftBroken in
                             set_color near Black ;;;
                             set_color brother Red ;;;
                             rotate brother (negb isLeftBroken) ;;;
                             get_child target (negb isLeftBroken)
                         | Red => ret brother
                         end) in
              let* tc := get_color target in
              set_color brother tc ;;;
              set_color target Black ;;;
              let* far := get_child brother (negb isLeftBroken) in
              assert (negb (is_null far)) ;;;
              let* far := get_child brother (negb isLeftBroken) in
              set_color far Black ;;;
              rotate target isLeftBroken ;;;
              eraseFixup_loop fuel None isLeftBroken child brother
        end
  end.

Definition eraseFixup (fuel : nat) (target : ptr) (isLeftBroken : bool) : Mon unit :=
  assert (negb (is_null target)) ;;;
  let* child := get_child target isLeftBroken in
  let* brother := get_child target (negb isLeftBroken) in
  let* r := eraseFixup_loop fuel target isLeftBroken child brother in
  let '(target, isLeftBroken) := r in
  if negb (is_null target) then
    let* c := get_child target isLeftBroken in
    set_color c Black
  else
    let* r := get_root in
    if negb (is_null r) then set_color r Black else ret tt.

Definition eraseNode (fuel : nat) (target : ptr) : Mon unit :=
  assert (negb (is_null target)) ;;;
  let* erasedColor := get_color target in
  let* brokenNode := get_p target in
  let* r := get_root in
  let* isLeftBroken := (if ptr_eqb target r then ret true
                  else let* tp := get_p target in
                       let* tpl := get_left tp in
                       ret (ptr_eqb target tpl)) in
  let* tl := get_left target in
  let* tr := get_right target in
  let nBranches := (Nat.b2n (negb (is_null tl)) + Nat.b2n (negb (is_null tr)))%nat in
  let* st := (match nBranches with
        | 0%nat =>
            updateParentNode target None ;;;
            ret (erasedColor, brokenNode, isLeftBroken)
        | 1%nat =>
            let* tl := get_left target in
            let* candidate := get_child target (negb (is_null tl)) in
            let* tp := get_p target in
            set_p candidate tp ;;;
            updateParentNode target candidate ;;;
            ret (erasedColor, brokenNode, isLeftBroken)
        | _ =>
            let* tr := get_right target in
            let* candidate := minNode fuel tr in
            let* erasedColor := get_color candidate in
            let brokenNode := candidate in
            let* tr := get_right target in
            let* isLeftBroken :=
              (if negb (ptr_eqb candidate tr) then
                 let* cp := get_p candidate in
                 let* cr := get_right candidate in
                 set_left cp cr ;;;
                 let* cr := get_right candidate in
                 (if negb (is_null cr) then
                    let* cr := get_right candidate in
                    let* cp := get_p candidate in
                    set_p cr cp
                  else ret tt) ;;;
                 let* tr := get_right target in
                 set_p tr candidate ;;;
                 let* tr := get_right target in
                 set_right candidate tr ;;;
                 ret true
               else ret false) in
            let* tl := get_left target in
            set_p tl candidate ;;;
            let* tl := get_left target in
            set_left candidate tl ;;;
            let* tp := get_p target in
            set_p candidate tp ;;;
            let* tc := get_color target in
            set_color candidate tc ;;;
            updateParentNode target candidate ;;;
            ret (erasedColor, brokenNode, isLeftBroken)
        end) in
  let '(erasedColor, brokenNode, isLeftBroken) := st in
  delete_node target ;;;
  match erasedColor with
  | Black => eraseFixup fuel brokenNode isLeftBroken
  | Red => ret tt
  end.

Definition erase (fuel : nat) (key : K) : Mon bool :=
  let* target := findNode fuel key in
  if is_null target then ret false
  else
    let* tk := get_key target in
    let* eq := areKeysEqual key tk in
    if negb eq then ret false
    else
      eraseNode fuel target ;;;
      ret true.

(** *** Invariant checker *)

(** [int isWeakRBTree(const Node* target)]: the black height, 0 for an error.
    The recursion follows the links of the heap, so it takes fuel. *)
Fixpoint isWeakRBTree (fuel : nat) (target : ptr) : Mon Z :=
  match fuel with
  | O => out_of_fuel
  | S fuel =>
      if is_null target then ret 1%Z
      else
        let* c := get_color target in
        let isRed := detail.Color_eqb c Red in
        let* redChild := (if isRed then
                      let* l := get_left target in
                      let* lc := colorOf l in
                      if detail.Color_eqb lc Red then ret true
                      else
                        let* r := get_right target in
                        let* rc := colorOf r in
                        ret (detail.Color_eqb rc Red)
                    else ret false) in
        if redChild then ret 0%Z
        else
          let* r := get_right target in
          let* result := isWeakRBTree fuel r in
          if (result =? 0)%Z then ret 0%Z
          else
            let* l := get_left target in
            let* lres := isWeakRBTree fuel l in
            if negb (result =? lres)%Z then ret 0%Z
            else ret (result + Z.b2z (negb isRed))%Z
  end.

Definition isRBTree (fuel : nat) : Mon bool :=
  let* r := get_root in
  let* c := get_color r in
  if negb (detail.Color_eqb c Black) then ret false
  else
    let* h := isWeakRBTree fuel r in
    ret (negb (h =? 0)%Z).

(** *** Lookup *)

(** [T& at(const K&)]: the reference returned is to [value.second] of a
    node; the model returns that node's address. *)
Definition at_ (fuel : nat) (key : K) : Mon positive :=
  let* candidate := findNode fuel key in
  let* found := (if is_null candidate then ret false
           else let* ck := get_key candidate in areKeysEqual key ck) in
  match candidate, found with
  | Some a, true => ret a
  | _, _ => throw out_of_range
  end.

(** Reading through a reference to a mapped value. *)
Definition read_mapped (r : positive) : Mon T :=
  let* v := get_value (Some r) in ret v.2.

Definition count (fuel : nat) (key : K) : Mon Z :=
  let* candidate := findNode fuel key in
  if is_null candidate then ret 0%Z
  else
    let* ck := get_key candidate in
    let* eq := areKeysEqual key ck in
    ret (Z.b2z eq).

(** [candidate = insert(key, T())] in [operator[]] assigns the [bool] that
    [insert] returns to a [Node*].  C++ has no conversion from [bool] to a
    pointer, so the assignment yields no node: the model runs the call and
    stops there. *)
Definition node_of_bool (b : bool) : Mon ptr := abort IllTyped.

Definition operator_index (fuel : nat) (key : K) : Mon positive :=
  let* candidate := findNode fuel key in
  let* missing := (if is_null candidate then ret true
             else let* ck := get_key candidate in
                  let* eq := areKeysEqual key ck in
                  ret (negb eq)) in
  let* candidate := (if missing then
                 let* b := insert fuel key default_value in
                 node_of_bool b
               else ret candidate) in
  match candidate with
  | Some a => let* n := load (Some a) in ret a
  | None => abort NullDeref
  end.

(** *** Iteration ([RBTreeIterator.hpp]) *)

(** An iterator holds a node pointer; [end()] holds [nullptr]. *)
Definition begin_ (fuel : nat) : Mon ptr :=
  let* r := get_root in minNode fuel r.
Definition end_ : Mon ptr := ret None.

Fixpoint iterator_climb (fuel : nat) (node candidate : ptr) : Mon ptr :=
  match fuel with
  | O => out_of_fuel
  | S fuel =>
      if is_null candidate then ret candidate
      else
        let* cr := get_right candidate in
        if ptr_eqb cr node then
          let* cp := get_p candidate in
          iterator_climb fuel candidate cp
        else ret candidate
  end.

(** Modelled from the spec: [operator++] of [RBTreeIterator] is declared
    in [RBTreeIterator.hpp], which is not part of the sources at hand.
    The spec has the traversal "in-order, via parent back-links, no
    auxiliary stack", and "advancing past the last element reaches a
    sentinel end state": the next node is the minimum of the right
    subtree, or else the first ancestor reached from its left side. *)
Definition iterator_next (fuel : nat) (node : ptr) : Mon ptr :=
  let* r := get_right node in
  if negb (is_null r) then minNode fuel r
  else
    let* candidate := get_p node in
    iterator_climb fuel node candidate.

(** Modelled from the spec: [operator*] of [RBTreeIterator] is declared
    in [RBTreeIterator.hpp], which is not part of the sources at hand.
    The spec has an iteration produce "key-value pairs", and the class
    takes its [value_type] from the iterator: [*iter] is the pair held by
    the node the iterator stands on. *)
Definition iterator_deref (it : ptr) : Mon (K * T) := get_value it.

(** [lowerBound] calls [compare_] on [*iter] and [key]: it hands the
    comparator the pair where it takes a key.  C++ has no conversion from a
    pair to its first member, so the call has no type: the model reads the
    entry and stops there. *)
Definition key_of_entry (e : K * T) : Mon K := abort IllTyped.

Definition lowerBound (fuel : nat) (key : K) : Mon ptr :=
  let* iter := findNode fuel key in
  let* e := end_ in
  let* advance := (if negb (ptr_eqb iter e) then
               let* v := iterator_deref iter in
               let* k := key_of_entry v in
               compare k key
             else ret false) in
  if advance then iterator_next fuel iter else ret iter.

(** The sequence an iteration from [it] to [end()] visits. *)
Fixpoint iterate (fuel : nat) (it : ptr) : Mon (list (K * T)) :=
  match fuel with
  | O => out_of_fuel
  | S fuel =>
      if is_null it then ret []
      else
        let* v := iterator_deref it in
        let* it' := iterator_next fuel it in
        let* rest := iterate fuel it' in
        ret (v :: rest)
  end.

Definition to_list (fuel : nat) : Mon (list (K * T)) :=
  let* b := begin_ fuel in iterate fuel b.

(** *** Level-order dump *)

(** The [while (!queue.empty())] loop of [walkByLevels].  The queue is a
    list, pushed at its end and popped at its head; the stream is the list
    of the keys written to it, each of which the code lets a blank
    follow. *)
Fixpoint walkByLevels_loop (fuel : nat) (queue : list ptr) (out : list K) : Mon (list K) :=
  match fuel with
  | O => out_of_fuel
  | S fuel =>
      match queue with
      | [] => ret out
      | current :: queue =>
          let* k := get_key current in
          let out := out ++ [k] in
          let* l := get_left current in
          let* queue := (if negb (is_null l) then
                           let* l := get_left current in ret (queue ++ [l])
                         else ret queue) in
          let* r := get_right current in
          let* queue := (if negb (is_null r) then
                           let* r := get_right current in ret (queue ++ [r])
                         else ret queue) in
          walkByLevels_loop fuel queue out
      end
  end.

(** [void walkByLevels(std::ostream& out) const]: the stream goes in and
    comes out. *)
Definition walkByLevels (fuel : nat) (out : list K) : Mon (list K) :=
  let* r := get_root in
  if is_null r then ret out
  else
    let* r := get_root in
    walkByLevels_loop fuel [r] out.

(** *** Teardown *)

Fixpoint clear_descend (fuel : nat) (current : ptr) : Mon ptr :=
  match fuel with
  | O => out_of_fuel
  | S fuel =>
      let* l := get_left current in
      if negb (is_null l) then clear_descend fuel l else ret current
  end.

Fixpoint clear_ascend (fuel : nat) (current candidate : ptr) : Mon (ptr * ptr) :=
  match fuel with
  | O => out_of_fuel
  | S fuel =>
      if is_null candidate then ret (current, candidate)
      else
        let* cr := get_right candidate in
        if ptr_eqb cr current then
          delete_node current ;;;
          let* cp := get_p candidate in
          clear_ascend fuel candidate cp
        else ret (current, candidate)
  end.

Fixpoint clear_loop (fuel : nat) (current : ptr) : Mon unit :=
  match fuel with
  | O => out_of_fuel
  | S fuel =>
      if is_null current then ret tt
      else
        let* r := get_right current in
        if negb (is_null r) then
          let* r := get_right current in
          let* current := clear_descend fuel r in
          clear_loop fuel current
        else
          let* candidate := get_p current in
          let* cc := clear_ascend fuel current candidate in
          let '(current, candidate) := cc in
          delete_node current ;;;
          clear_loop fuel candidate
  end.

Definition clear (fuel : nat) : Mon unit :=
  let* r := get_root in
  let* current := minNode fuel r in
  clear_loop fuel current ;;;
  put_root None.

(** *** Structural copy *)

(** The lambda [gotoMinCopying] of [copyTree]; it works on the two
    variables [from] and [to] it captures by reference. *)
Fixpoint gotoMinCopying (fuel : nat) (from to : ptr) : Mon (ptr * ptr) :=
  match fuel with
  | O => out_of_fuel
  | S fuel =>
      let* l := get_left from in
      if negb (is_null l) then
        let* v := get_value l in
        let* c := get_color l in
        let* n := new_node v c to in
        set_left to n ;;;
        let* to' := get_left to in
        gotoMinCopying fuel l to'
      else ret (from, to)
  end.

Fixpoint copyTree_ascend (fuel : nat) (from to candidate : ptr) : Mon (ptr * ptr * ptr) :=
  match fuel with
  | O => out_of_fuel
  | S fuel =>
      if is_null candidate then ret (from, to, candidate)
      else
        let* cr := get_right candidate in
        if ptr_eqb cr from then
          let* to' := get_p to in
          let* cp := get_p candidate in
          copyTree_ascend fuel candidate to' cp
        else ret (from, to, candidate)
  end.

Fixpoint copyTree_loop (fuel : nat) (from to : ptr) : Mon unit :=
  match fuel with
  | O => out_of_fuel
  | S fuel =>
      if is_null from then ret tt
      else
        let* r := get_right from in
        if negb (is_null r) then
          let* v := get_value r in
          let* c := get_color r in
          let* n := new_node v c to in
          set_right to n ;;;
          let* to' := get_right to in
          let* ft := gotoMinCopying fuel r to' in
          copyTree_loop fuel ft.1 ft.2
        else
          let* candidate := get_p from in
          let* ftc := copyTree_ascend fuel from to candidate in
          let '(from, to, candidate) := ftc in
          let* to' := get_p to in
          copyTree_loop fuel candidate to'
  end.

Definition copyTree (fuel : nat) (from to : ptr) : Mon unit :=
  let* ft := gotoMinCopying fuel from to in
  copyTree_loop fuel ft.1 ft.2.

(** *** Construction, assignment, destruction

    A constructor starts from whatever the state holds as [this] and
    overwrites it with the members of the object it builds; the source
    object is an argument. *)

(** [RBTree()] *)
Definition default_construct : Mon unit :=
  fun s => Ret tt (set_this (mkRBTree None default_compare) s).

(** [RBTree(Compare compare)] *)
Definition construct (compare : Compare) : Mon unit :=
  fun s => Ret tt (set_this (mkRBTree None compare) s).

(** [RBTree(const RBTree& src)] *)
Definition copy_construct (fuel : nat) (src : RBTree Compare) : Mon unit :=
  (fun s => Ret tt (set_this (mkRBTree None (compare_ src)) s)) ;;;
  if negb (is_null (root_ src)) then
    try_catch
      (let* v := get_value (root_ src) in
       let* r := new_node v Black None in
       put_root r ;;;
       let* r := get_root in
       copyTree fuel (root_ src) r)
      (clear fuel)
  else ret tt.

(** [RBTree(RBTree&& src)]: only [root_] has a member initializer, so
    [compare_] is default-initialized.  The result is the moved-from
    object. *)
Definition move_construct (src : RBTree Compare) : Mon (RBTree Compare) :=
  fun s =>
    Ret (mkRBTree None (compare_ src))
        (set_this (mkRBTree (root_ src) default_init) s).

(** [operator=(RBTree&& src)]: both members are swapped.  The result is
    the moved-from object. *)
Definition move_assign (src : RBTree Compare) : Mon (RBTree Compare) :=
  fun s => Ret (this s) (set_this src s).

(** [~RBTree()] *)
Definition destroy (fuel : nat) : Mon unit := clear fuel.

(** Runs a member function on another object and comes back. *)
Definition on_object {A} (t : RBTree Compare) (m : Mon A) : Mon (A * RBTree Compare) :=
  fun s =>
    match m (set_this t s) with
    | Ret a s' => Ret (a, this s') (set_this (this s) s')
    | Throw e s' => Throw e (set_this (this s) s')
    | Abort f => Abort f
    | OutOfFuel => OutOfFuel
    end.

(** [operator=(const RBTree& src)]: copy into the local [newTree], swap
    both members with it, and let its destructor free the old nodes. *)
Definition copy_assign (fuel : nat) (src : RBTree Compare) : Mon unit :=
  let* r := on_object (mkRBTree None default_compare) (copy_construct fuel src) in
  let newTree := r.2 in
  let* old := (fun s => Ret (this s) s) in
  (fun s => Ret tt (set_this newTree s)) ;;;
  on_object old (destroy fuel) ;;;
  ret tt.

(** *** Sequences of mutating calls *)

Inductive Op :=
| OpInsert (key : K) (v : T)
| OpErase (key : K).

Definition apply_op (fuel : nat) (o : Op) : Mon bool :=
  match o with
  | OpInsert key v => insert fuel key v
  | OpErase key => erase fuel key
  end.

(** Runs the calls in order and collects what each returned together with
    the verdict of [isRBTree] right after it. *)
Fixpoint run_ops (fuel : nat) (ops : list Op) : Mon (list (bool * bool)) :=
  match ops with
  | [] => ret []
  | o :: ops =>
      let* b := apply_op fuel o in
      let* ok := isRBTree fuel in
      let* rest := run_ops fuel ops in
      ret ((b, ok) :: rest)
  end.

End RBTree.

Arguments Op : clear implicits.

(** ** An instance: integer keys and values, an ordering that carries state *)

Module IntTree.

(** A comparator with a data member: which way the keys are ordered.
    The member has the initializer [false], so a default-constructed
    comparator orders the keys ascending, as [std::less] does. *)
Record Order := mkOrder { descending : bool }.

#[global] Instance Order_comparator : Comparator Z Order := {|
  call c a b := if descending c then (b <? a)%Z else (a <? b)%Z;
  default_compare := mkOrder false;
  default_init := mkOrder false
|}.

#[global] Instance Z_default : DefaultConstructible Z := {| default_value := 0%Z |}.

(** Nothing allocated, [n] allocations available, an empty tree. *)
Definition empty_state (n : nat) : State Z Z Order :=
  mkState ∅ 1%positive n (mkRBTree None default_compare).

Definition inserts (keys : list Z) : list (Op Z Z) :=
  map (fun k => OpInsert k (10 * k)%Z) keys.

(** The tree built by inserting the keys in the order given. *)
Definition build (keys : list Z) : M Z Z Order unit :=
  run_ops 64 (inserts keys) ;;; ret tt.

Definition state_of (keys : list Z) : State Z Z Order :=
  match build keys (empty_state 64) with
  | Ret _ s => s
  | _ => empty_state 0
  end.

End IntTree.

(** * Trees in the heap

    What the proofs below say about the code, they say through a tree
    that the nodes of the heap spell out: its shape, the addresses of its
    nodes, and the entries in the order an in-order walk meets them. *)

(** ** Trees and contexts *)

Section Trees.
Context {K T : Type}.

(** The region of the heap a tree occupies, node by node: address, entry,
    colour.  The links are implied by the shape. *)
Inductive tree :=
| Leaf
| Bin (l : tree) (a : positive) (kv : K * T) (c : Color) (r : tree).

Definition root (t : tree) : ptr :=
  match t with Leaf => None | Bin _ a _ _ _ => Some a end.

Fixpoint addrs (t : tree) : list positive :=
  match t with Leaf => [] | Bin l a _ _ r => addrs l ++ a :: addrs r end.

Fixpoint nodes (t : tree) : list (positive * (K * T)) :=
  match t with Leaf => [] | Bin l a kv _ r => nodes l ++ (a, kv) :: nodes r end.

Fixpoint entries (t : tree) : list (K * T) :=
  match t with Leaf => [] | Bin l _ kv _ r => entries l ++ kv :: entries r end.

Fixpoint size (t : tree) : nat :=
  match t with Leaf => 0 | Bin l _ _ _ r => S (size l + size r) end.

(** [wf h par t]: the heap holds [t] below a node [par]. *)
Fixpoint wf (h : gmap positive (Node K T)) (par : ptr) (t : tree) : Prop :=
  match t with
  | Leaf => True
  | Bin l a kv c r =>
      h !! a = Some (detail.mkNode kv c par (root l) (root r))
      ∧ wf h (Some a) l ∧ wf h (Some a) r
  end.

(** One-hole contexts, innermost frame first. *)
Inductive frame :=
| InL (a : positive) (kv : K * T) (c : Color) (r : tree)
| InR (l : tree) (a : positive) (kv : K * T) (c : Color).

Definition fill (f : frame) (t : tree) : tree :=
  match f with
  | InL a kv c r => Bin t a kv c r
  | InR l a kv c => Bin l a kv c t
  end.

Fixpoint plug (c : list frame) (t : tree) : tree :=
  match c with [] => t | f :: c => plug c (fill f t) end.

Definition frame_addr (f : frame) : positive :=
  match f with InL a _ _ _ | InR _ a _ _ => a end.

Definition ctx_par (c : list frame) : ptr :=
  match c with [] => None | f :: _ => Some (frame_addr f) end.

Fixpoint wf_ctx (h : gmap positive (Node K T)) (c : list frame) (q : ptr) : Prop :=
  match c with
  | [] => True
  | InL a kv col r :: c' =>
      h !! a = Some (detail.mkNode kv col (ctx_par c') q (root r))
      ∧ wf h (Some a) r ∧ wf_ctx h c' (Some a)
  | InR l a kv col :: c' =>
      h !! a = Some (detail.mkNode kv col (ctx_par c') (root l) q)
      ∧ wf h (Some a) l ∧ wf_ctx h c' (Some a)
  end.

(** What comes before and after the hole in the in-order sequence. *)
Fixpoint ctx_before (c : list frame) : list positive :=
  match c with
  | [] => []
  | InL _ _ _ _ :: c' => ctx_before c'
  | InR l a _ _ :: c' => ctx_before c' ++ addrs l ++ [a]
  end.

Fixpoint ctx_after (c : list frame) : list positive :=
  match c with
  | [] => []
  | InL a _ _ r :: c' => a :: addrs r ++ ctx_after c'
  | InR _ _ _ _ :: c' => ctx_after c'
  end.

Fixpoint ctx_entries_before (c : list frame) : list (K * T) :=
  match c with
  | [] => []
  | InL _ _ _ _ :: c' => ctx_entries_before c'
  | InR l _ kv _ :: c' => ctx_entries_before c' ++ entries l ++ [kv]
  end.

Fixpoint ctx_entries_after (c : list frame) : list (K * T) :=
  match c with
  | [] => []
  | InL _ kv _ r :: c' => kv :: entries r ++ ctx_entries_after c'
  | InR _ _ _ _ :: c' => ctx_entries_after c'
  end.

Definition ctx_addrs (c : list frame) : list positive :=
  ctx_before c ++ ctx_after c.

End Trees.

Arguments tree : clear implicits.
Arguments frame : clear implicits.

(** ** Orders on keys *)

Section Order.
Context {K : Type}.

(** What C++ asks of a [Compare]. *)
Class StrictWeakOrder (lt : K → K → bool) := {
  swo_irrefl a : lt a a = false;
  swo_trans a b c : lt a b = true → lt b c = true → lt a c = true;
  swo_incomp a b c :
    lt a b = false → lt b a = false → lt b c = false → lt c b = false →
    lt a c = false ∧ lt c a = false
}.

(** [areKeysEqual] as a function of the comparator. *)
Definition equivb (lt : K → K → bool) (a b : K) : bool :=
  negb (lt a b || lt b a).

End Order.

(** ** What the member functions are specified by *)

Section Abstraction.
Context {K T Compare : Type} `{!Comparator K Compare} `{!DefaultConstructible T}.
Implicit Types (s : State K T Compare) (h : gmap positive (Node K T)).
Implicit Types (t l r m : tree K T) (c : list (frame K T)).

(** The node [findNode] stops at: the last one on the search path. *)
Fixpoint search (lt : K → K → bool) (key : K) (t : tree K T) (last : ptr) : ptr :=
  match t with
  | Leaf => last
  | Bin l a kv _ r =>
      if equivb lt key kv.1 then Some a
      else if lt key kv.1 then search lt key l (Some a)
      else search lt key r (Some a)
  end.

(** A tree in the heap, owned by the object the state runs on. *)
Definition tree_at s (t : tree K T) : Prop :=
  wf (heap s) None t ∧ root_ (this s) = root t ∧ NoDup (addrs t).

Definition key_lt (lt : K → K → bool) (e1 e2 : K * T) : Prop := lt e1.1 e2.1 = true.

(** Invariant 5 of the data model: the in-order key sequence is strictly
    increasing. *)
Definition bst (lt : K → K → bool) t : Prop :=
  StronglySorted (key_lt lt) (entries t).

(** A key comparing equal to [key] is stored in the tree. *)
Definition present (lt : K → K → bool) (key : K) t : Prop :=
  ∃ e, e ∈ entries t ∧ equivb lt key e.1 = true.

(** Descent to the entry with an equal key. *)
Fixpoint lookup (lt : K → K → bool) (key : K) t : option (positive * (K * T)) :=
  match t with
  | Leaf => None
  | Bin l a kv _ r =>
      if equivb lt key kv.1 then Some (a, kv)
      else if lt key kv.1 then lookup lt key l
      else lookup lt key r
  end.

(** Two states that differ only inside a set of addresses and in the root
    pointer. *)
Definition same_outside (S : list positive) s s' : Prop :=
  next s' = next s ∧ avail s' = avail s
  ∧ compare_ (this s') = compare_ (this s)
  ∧ ∀ x, x ∉ S → heap s' !! x = heap s !! x.

(** The effect of [updateParentNode] on a node that sits in the hole of a
    context. *)
Definition relink c (q : ptr) s : State K T Compare :=
  match c with
  | [] => set_root q s
  | InL pa pkv pc pr :: c' =>
      set_heap (<[pa := detail.mkNode pkv pc (ctx_par c') q (root pr)]> (heap s)) s
  | InR pl pa pkv pc :: c' =>
      set_heap (<[pa := detail.mkNode pkv pc (ctx_par c') (root pl) q]> (heap s)) s
  end.

Fixpoint ctx_nodes_before c : list (positive * (K * T)) :=
  match c with
  | [] => []
  | InL _ _ _ _ :: c' => ctx_nodes_before c'
  | InR l a kv _ :: c' => ctx_nodes_before c' ++ nodes l ++ [(a, kv)]
  end.

Fixpoint ctx_nodes_after c : list (positive * (K * T)) :=
  match c with
  | [] => []
  | InL a kv _ r :: c' => (a, kv) :: nodes r ++ ctx_nodes_after c'
  | InR _ _ _ _ :: c' => ctx_nodes_after c'
  end.

Definition tree_color t : Color :=
  match t with Leaf => Black | Bin _ _ _ col _ => col end.

Definition frame_color (f : frame K T) : Color :=
  match f with InL _ _ col _ | InR _ _ _ col => col end.

(** The outermost frame of a context, the root of the whole tree, is
    black. *)
Definition ctx_root_black c : Prop :=
  match last c with Some f => frame_color f = Black | None => True end.

(** [reach s0 t0 s t]: starting from the tree [t0] in state [s0], the
    code has arrived at the tree [t] in state [s]; the entries, the set of
    nodes and everything outside the tree are as they were. *)
Definition reach s0 t0 s t : Prop :=
  tree_at s t ∧ entries t = entries t0
  ∧ (∀ y, y ∈ addrs t ↔ y ∈ addrs t0)
  ∧ same_outside (addrs t0) s0 s.

(** What the fix-up loop is proved to keep. *)
Definition fixed_up s t s' : Prop := ∃ t', reach s t s' t'.

(** Nothing is allocated at or above the address the next [new] returns. *)
Definition alloc_ok s : Prop :=
  ∀ a, (next s ≤ a)%positive → heap s !! a = None.

(** What a successful [insert] leaves behind. *)
Definition inserted s t (key : K) (v : T) s' t' : Prop :=
  tree_at s' t'
  ∧ bst (call (compare_ (this s'))) t'
  ∧ tree_color t' = Black
  ∧ alloc_ok s'
  ∧ S (avail s') = avail s
  ∧ next s' = Pos.succ (next s)
  ∧ compare_ (this s') = compare_ (this s)
  ∧ entries t' ≡ₚ (key, v) :: entries t
  ∧ (∀ a, a ∈ addrs t' ↔ a = next s ∨ a ∈ addrs t)
  ∧ (∀ a, a ∉ addrs t → a ≠ next s → heap s' !! a = heap s !! a).

(** The fix-up after a removal is followed from a tree [t0] in a state
    [s0]; whatever it does, it works on nodes of that tree. *)
Definition ok (s0 : State K T Compare) (t0 : tree K T) s : Prop := ∃ t, reach s0 t0 s t.

Definition inT (t0 : tree K T) (q : ptr) : Prop :=
  match q with Some a => a ∈ addrs t0 | None => True end.

(** What [eraseNode] has done when it reaches the test of [erasedColor]:
    the node is out of the tree and freed, the rest is a tree again. *)
Definition removed s t (x : positive) s1 t1 : Prop :=
  tree_at s1 t1
  ∧ (∀ a, a ∈ addrs t1 → a ∈ addrs t ∧ a ≠ x)
  ∧ heap s1 !! x = None
  ∧ next s1 = next s ∧ avail s1 = avail s
  ∧ compare_ (this s1) = compare_ (this s)
  ∧ (∀ a, a ∉ addrs t → heap s1 !! a = heap s !! a).

Definition is_InL (f : frame K T) : Prop :=
  match f with InL _ _ _ _ => True | InR _ _ _ _ => False end.

(** [es'] is the sequence [es] with one occurrence of [kv] taken out. *)
Definition without (kv : K * T) (es es' : list (K * T)) : Prop :=
  ∃ pre post, es = pre ++ kv :: post ∧ es' = pre ++ post.

(** What [eraseNode] leaves behind when it returns. *)
Definition erased s t (x : positive) (kv : K * T) s' t' : Prop :=
  tree_at s' t'
  ∧ without kv (entries t) (entries t')
  ∧ (∀ a, a ∈ addrs t' → a ∈ addrs t ∧ a ≠ x)
  ∧ heap s' !! x = None
  ∧ next s' = next s ∧ avail s' = avail s
  ∧ compare_ (this s') = compare_ (this s)
  ∧ (∀ a, a ∉ addrs t → heap s' !! a = heap s !! a).

(** [red_black t n]: no Red node of [t] has a Red child, and every path
    from the root of [t] down to an absent child passes [n] - 1 Black
    nodes. *)
Inductive red_black : tree K T → nat → Prop :=
| rb_leaf : red_black Leaf 1
| rb_red l a kv r n :
    red_black l n → red_black r n →
    tree_color l = Black → tree_color r = Black →
    red_black (Bin l a kv Red r) n
| rb_black l a kv r n :
    red_black l n → red_black r n →
    red_black (Bin l a kv Black r) (S n).

(** The tree with its root made Black. *)
Definition blacken t : tree K T :=
  match t with Leaf => Leaf | Bin l a kv _ r => Bin l a kv Black r end.

(** [insert_fixed c t t']: the loop of [insertFixup], started on the root
    of the subtree [t] that sits in the context [c], ends with the whole
    tree being [t'].  The loop stops at the root and below a Black parent.
    Below a Red parent it looks at the uncle: if he is Red, parent and
    uncle turn Black, the grandparent turns Red and the loop goes on from
    him; if he is Black, one or two rotations bring parent, node and
    grandparent into line, and the loop meets a Black parent next. *)
Inductive insert_fixed : list (frame K T) → tree K T → tree K T → Prop :=
| fixed_root t : insert_fixed [] t t
| fixed_black_parent f c t :
    frame_color f = Black → insert_fixed (f :: c) t (plug (f :: c) t)
| fixed_red_uncle_LL l x kv col r P pkv pr G gkv gc ul u ukv ur c t' :
    insert_fixed c
      (Bin (Bin (Bin l x kv col r) P pkv Black pr) G gkv Red (Bin ul u ukv Black ur)) t' →
    insert_fixed (InL P pkv Red pr :: InL G gkv gc (Bin ul u ukv Red ur) :: c)
      (Bin l x kv col r) t'
| fixed_rotate_LL l x kv col r P pkv pr G gkv gc gr c t' :
    tree_color gr = Black →
    insert_fixed (InL P pkv Black (Bin pr G gkv Red gr) :: c) (Bin l x kv col r) t' →
    insert_fixed (InL P pkv Red pr :: InL G gkv gc gr :: c) (Bin l x kv col r) t'
| fixed_red_uncle_LR l x kv col r P pkv pr G gkv gc ul u ukv ur c t' :
    insert_fixed c
      (Bin (Bin ul u ukv Black ur) G gkv Red (Bin (Bin l x kv col r) P pkv Black pr)) t' →
    insert_fixed (InL P pkv Red pr :: InR (Bin ul u ukv Red ur) G gkv gc :: c)
      (Bin l x kv col r) t'
| fixed_rotate_LR l x kv col r P pkv pr G gkv gc gl c t' :
    tree_color gl = Black →
    insert_fixed (InR (Bin gl G gkv Red l) x kv Black :: c) (Bin r P pkv Red pr) t' →
    insert_fixed (InL P pkv Red pr :: InR gl G gkv gc :: c) (Bin l x kv col r) t'
| fixed_red_uncle_RL l x kv col r P pkv pl G gkv gc ul u ukv ur c t' :
    insert_fixed c
      (Bin (Bin pl P pkv Black (Bin l x kv col r)) G gkv Red (Bin ul u ukv Black ur)) t' →
    insert_fixed (InR pl P pkv Red :: InL G gkv gc (Bin ul u ukv Red ur) :: c)
      (Bin l x kv col r) t'
| fixed_rotate_RL l x kv col r P pkv pl G gkv gc gr c t' :
    tree_color gr = Black →
    insert_fixed (InL x kv Black (Bin r G gkv Red gr) :: c) (Bin pl P pkv Red l) t' →
    insert_fixed (InR pl P pkv Red :: InL G gkv gc gr :: c) (Bin l x kv col r) t'
| fixed_red_uncle_RR l x kv col r P pkv pl G gkv gc ul u ukv ur c t' :
    insert_fixed c
      (Bin (Bin ul u ukv Black ur) G gkv Red (Bin pl P pkv Black (Bin l x kv col r))) t' →
    insert_fixed (InR pl P pkv Red :: InR (Bin ul u ukv Red ur) G gkv gc :: c)
      (Bin l x kv col r) t'
| fixed_rotate_RR l x kv col r P pkv pl G gkv gc gl c t' :
    tree_color gl = Black →
    insert_fixed (InR (Bin gl G gkv Red pl) P pkv Black :: c) (Bin l x kv col r) t' →
    insert_fixed (InR pl P pkv Red :: InR gl G gkv gc :: c) (Bin l x kv col r) t'.

(** A context into which a subtree of black height [n] fits: the siblings
    along the way up have the heights that go with it, and a Red ancestor
    has a Black sibling beside the path and a Black parent. *)
Definition head_black c : Prop :=
  match c with [] => True | f :: _ => frame_color f = Black end.

Fixpoint rb_ctx c (n : nat) : Prop :=
  match c with
  | [] => True
  | InL _ _ col sib :: c' | InR sib _ _ col :: c' =>
      red_black sib n
      ∧ match col with
        | Black => rb_ctx c' (S n)
        | Red => tree_color sib = Black ∧ head_black c' ∧ rb_ctx c' n
        end
  end.

(** What [isWeakRBTree] computes, as a function of the tree. *)
Fixpoint weak_height t : Z :=
  match t with
  | Leaf => 1
  | Bin l _ _ col r =>
      if detail.Color_eqb col Red
         && (detail.Color_eqb (tree_color l) Red || detail.Color_eqb (tree_color r) Red)
      then 0
      else if (weak_height r =? 0)%Z then 0
      else if negb (weak_height r =? weak_height l)%Z then 0
      else (weak_height r + Z.b2z (negb (detail.Color_eqb col Red)))%Z
  end.

(** The nodes [clear] has deleted already when it stands in the hole of a
    context: the left subtrees of the ancestors it came up to from the
    right. *)
Fixpoint dead (c : list (frame K T)) : list positive :=
  match c with
  | [] => []
  | InL _ _ _ _ :: c' => dead c'
  | InR l _ _ _ :: c' => addrs l ++ dead c'
  end.

(** The nodes an in-order walk still has to visit above the hole. *)
Fixpoint ctx_rest (c : list (frame K T)) : nat :=
  match c with
  | [] => 0
  | InL _ _ _ r :: c' => S (size r + ctx_rest c')
  | InR _ _ _ _ :: c' => ctx_rest c'
  end.

(** The heap [h0] with the nodes [D] deleted. *)
Definition cleared (h0 : gmap positive (Node K T)) (D : list positive) s : Prop :=
  ∀ a, heap s !! a = if bool_decide (a ∈ D) then None else h0 !! a.

(** [clone_at top t t']: [t'] has the shape, the entries and the colors of
    [t], at addresses of its own; with [top] set its root is Black whatever
    the color of the root of [t]. *)
Fixpoint clone_at (top : bool) t t' : Prop :=
  match t, t' with
  | Leaf, Leaf => True
  | Bin l _ kv col r, Bin l' _ kv' col' r' =>
      kv' = kv ∧ col' = (if top then Black else col)
      ∧ clone_at false l l' ∧ clone_at false r r'
  | _, _ => False
  end.

Definition is_nil {A} (l : list A) : bool :=
  match l with [] => true | _ => false end.

(** The color the copy of a node gets: the root is made Black. *)
Definition copy_color c (col : Color) : Color :=
  if is_nil c then Black else col.

(** The copy while it is built: above the place of the walk the left
    subtrees are copied, the right ones are still to come. *)
Fixpoint clone_ctx c c' : Prop :=
  match c, c' with
  | [], [] => True
  | InL _ kv col _ :: c1, InL _ kv' col' r' :: c1' =>
      kv' = kv ∧ col' = copy_color c1 col ∧ r' = Leaf ∧ clone_ctx c1 c1'
  | InR l _ kv col :: c1, InR l' _ kv' col' :: c1' =>
      kv' = kv ∧ col' = copy_color c1 col ∧ clone_at false l l' ∧ clone_ctx c1 c1'
  | _, _ => False
  end.

(** The nodes still to be copied above the hole. *)
Fixpoint ctx_todo c : nat :=
  match c with
  | [] => 0
  | InL _ _ _ r :: c' => size r + ctx_todo c'
  | InR _ _ _ _ :: c' => ctx_todo c'
  end.

(** The state while the copy [T'] is built: the copy occupies exactly the
    addresses handed out since the start, and what was allocated before is
    as it was. *)
Definition copying (h0 : gmap positive (Node K T)) (n0 : positive) (av0 : nat)
    s (T' : tree K T) : Prop :=
  tree_at s T'
  ∧ (∀ a, a ∈ addrs T' ↔ (n0 ≤ a < next s)%positive)
  ∧ (∀ a, (a < n0)%positive → heap s !! a = h0 !! a)
  ∧ (∀ a, (next s ≤ a)%positive → heap s !! a = None)
  ∧ size T' + avail s = av0.

(** The keys of a list of subtrees in level order: the keys of their
    roots from left to right, then those of the children of the roots, and
    so on for [n] levels. *)
Definition root_keys (ts : list (tree K T)) : list K :=
  flat_map (λ t, match t with Leaf => [] | Bin _ _ kv _ _ => [kv.1] end) ts.

Definition subtrees t : list (tree K T) :=
  match t with Leaf => [] | Bin _ _ _ _ _ => [t] end.

Definition children (ts : list (tree K T)) : list (tree K T) :=
  flat_map (λ t, match t with Leaf => [] | Bin l _ _ _ r => subtrees l ++ subtrees r end) ts.

Fixpoint forest_size (ts : list (tree K T)) : nat :=
  match ts with [] => 0 | t :: ts => size t + forest_size ts end.

Fixpoint by_level (n : nat) (ts : list (tree K T)) : list K :=
  match n with
  | O => []
  | S n => root_keys ts ++ by_level n (children ts)
  end.

End Abstraction.

(** ** Sample trees on integer keys *)

Module Samples.
Import IntTree.

(** The tree that inserting 1, 3, 5, 7 builds. *)
Definition tree_1357 : tree Z Z :=
  Bin (Bin Leaf 1%positive (1, 10)%Z Black Leaf) 2%positive (3, 30)%Z Black
      (Bin Leaf 3%positive (5, 50)%Z Black (Bin Leaf 4%positive (7, 70)%Z Red Leaf)).

(** Its clone in the next four nodes. *)
Definition tree_1357_copy : tree Z Z :=
  Bin (Bin Leaf 6%positive (1, 10)%Z Black Leaf) 5%positive (3, 30)%Z Black
      (Bin Leaf 7%positive (5, 50)%Z Black (Bin Leaf 8%positive (7, 70)%Z Red Leaf)).

(** The same tree built with six nodes to allocate in all: two are left. *)
Definition low_state : State Z Z Order :=
  match build [1; 3; 5; 7]%Z (empty_state 6) with
  | Ret _ s => s
  | _ => empty_state 0
  end.

(** Both trees in one heap; the object is the copy. *)
Definition two_trees : State Z Z Order :=
  match copy_construct 64 (this (state_of [1; 3; 5; 7]%Z)) (state_of [1; 3; 5; 7]%Z) with
  | Ret _ s => s
  | _ => empty_state 0
  end.

(** The same keys inserted into a tree that orders them descending. *)
Definition desc_state : State Z Z Order :=
  match (construct (mkOrder true) ;;; build [1; 3; 5; 7]%Z) (empty_state 64) with
  | Ret _ s => s
  | _ => empty_state 0
  end.

Definition tree_7531 : tree Z Z :=
  Bin (Bin (Bin Leaf 4%positive (7, 70)%Z Red Leaf) 3%positive (5, 50)%Z Black Leaf)
      2%positive (3, 30)%Z Black
      (Bin Leaf 1%positive (1, 10)%Z Black Leaf).

End Samples.

(** * Properties *)

(** ** Move construction and move assignment *)

Section Moves.
Context {K T Compare : Type} `{!Comparator K Compare} `{!DefaultConstructible T}.

Lemma move_construct_eq (src : RBTree Compare) (s : State K T Compare) :
  move_construct src s
  = Ret (mkRBTree None (compare_ src))
        (set_this (mkRBTree (root_ src) default_init) s).
Proof. reflexivity. Qed.

Lemma move_assign_eq (src : RBTree Compare) (s : State K T Compare) :
  move_assign src s = Ret (this s) (set_this src s).
Proof. reflexivity. Qed.

(** C6, as the code has it: move construction clears the root of the source
    and hands its nodes over; move assignment swaps the two objects, so the
    source ends up with the former members of the destination.  Neither
    touches the heap. *)
Theorem moved_from_tree (src : RBTree Compare) (s : State K T Compare) :
  (∃ src' s',
      move_construct src s = Ret src' s'
      ∧ root_ src' = None
      ∧ root_ (this s') = root_ src
      ∧ heap s' = heap s)
  ∧ (∃ src' s',
      move_assign src s = Ret src' s'
      ∧ src' = this s
      ∧ this s' = src
      ∧ heap s' = heap s).
Proof.
  split; eexists _, _; (split; [reflexivity|]); simpl; auto.
Qed.

End Moves.

(** ** Scenarios on integer keys *)

Module Scenarios.
Import IntTree.
Local Open Scope Z_scope.

(** C1: inserting 1, ..., 8 in this order keeps the tree valid after every
    call; erasing 2 then returns [true] and leaves a tree that [isRBTree]
    rejects. *)
Theorem erase_breaks_invariants :
  ∃ s, run_ops 64 (inserts [1; 2; 3; 4; 5; 6; 7; 8] ++ [OpErase 2]) (empty_state 64)
       = Ret [(true, true); (true, true); (true, true); (true, true);
              (true, true); (true, true); (true, true); (true, true);
              (true, false)] s.
Proof. eexists. vm_compute. reflexivity. Qed.

(** C2: erasing the only key of a single-entry tree stops on the
    [assert(target)] at the head of [eraseFixup]. *)
Theorem erase_sole_root_aborts :
  (insert 64 1 10 ;;; erase 64 1) (empty_state 64) = Abort AssertionFailed.
Proof. vm_compute. reflexivity. Qed.

(** C6: after a move assignment into a tree that holds a node, the
    moved-from tree is not empty. *)
Lemma move_assign_source_not_empty :
  ¬ (∀ (src : RBTree Order) (s : State Z Z Order) src' s',
        move_assign src s = Ret src' s' → root_ src' = None).
Proof.
  intros H.
  specialize (H (mkRBTree None default_compare) (state_of [1]) _ _ eq_refl).
  vm_compute in H. discriminate H.
Qed.

(** C9: [operator[]] on a key that is absent does not come back with a
    reference. *)
Theorem operator_index_absent_key :
  operator_index 64 5 (empty_state 64) = Abort IllTyped.
Proof. vm_compute. reflexivity. Qed.

End Scenarios.

(** ** Trees and contexts *)

Section TreeFacts.
Context {K T : Type}.
Implicit Types (t l r : tree K T) (c : list (frame K T)) (h : gmap positive (Node K T)).

Lemma wf_plug h c t :
  wf h None (plug c t) ↔ wf_ctx h c (root t) ∧ wf h (ctx_par c) t.
Proof.
  revert t. induction c as [|f c IH]; intros t; simpl.
  - tauto.
  - rewrite IH. destruct f; simpl; tauto.
Qed.

Lemma addrs_plug c t :
  addrs (plug c t) = ctx_before c ++ addrs t ++ ctx_after c.
Proof.
  revert t. induction c as [|f c IH]; intros t; simpl.
  - by rewrite app_nil_r.
  - rewrite IH. destruct f; simpl; by rewrite <- ?app_assoc.
Qed.

Lemma entries_plug c t :
  entries (plug c t) = ctx_entries_before c ++ entries t ++ ctx_entries_after c.
Proof.
  revert t. induction c as [|f c IH]; intros t; simpl.
  - by rewrite app_nil_r.
  - rewrite IH. destruct f; simpl; by rewrite <- ?app_assoc.
Qed.

Lemma wf_frame h h' par t :
  (∀ a, a ∈ addrs t → h' !! a = h !! a) → wf h par t → wf h' par t.
Proof.
  revert par. induction t as [|l IHl a kv c r IHr]; intros par Hag; simpl; [done|].
  intros (Ha & Hl & Hr). split_and!.
  - rewrite Hag; [done|]. simpl. set_solver.
  - apply IHl; [|done]. intros x Hx. apply Hag. simpl. set_solver.
  - apply IHr; [|done]. intros x Hx. apply Hag. simpl. set_solver.
Qed.

Lemma wf_ctx_frame h h' c q :
  (∀ a, a ∈ ctx_addrs c → h' !! a = h !! a) → wf_ctx h c q → wf_ctx h' c q.
Proof.
  unfold ctx_addrs.
  revert q. induction c as [|f c IH]; intros q Hag; simpl; [done|].
  destruct f; intros (Ha & Hl & Hr); split_and!.
  - rewrite Hag; [done|]. simpl. set_solver.
  - eapply wf_frame; [|done]. intros x Hx. apply Hag. simpl. set_solver.
  - apply IH; [|done]. intros x Hx. apply Hag. simpl. set_solver.
  - rewrite Hag; [done|]. simpl. set_solver.
  - eapply wf_frame; [|done]. intros x Hx. apply Hag. simpl. set_solver.
  - apply IH; [|done]. intros x Hx. apply Hag. simpl. set_solver.
Qed.

(** Every node of a tree is the root of a subtree in some context. *)
Lemma in_addrs_plug t x :
  x ∈ addrs t → ∃ c l kv col r, t = plug c (Bin l x kv col r).
Proof.
  induction t as [|l IHl a kv c r IHr]; simpl; [set_solver|].
  intros Hx. apply elem_of_app in Hx as [Hx|Hx]; [|apply elem_of_cons in Hx as [->|Hx]].
  - destruct (IHl Hx) as (c' & l' & kv' & col' & r' & ->).
    exists (c' ++ [InL a kv c r]), l', kv', col', r'.
    clear. generalize (Bin l' x kv' col' r'). induction c'; intros; simpl; auto.
  - by exists [], l, kv, c, r.
  - destruct (IHr Hx) as (c' & l' & kv' & col' & r' & ->).
    exists (c' ++ [InR l a kv c]), l', kv', col', r'.
    clear. generalize (Bin l' x kv' col' r'). induction c'; intros; simpl; auto.
Qed.

End TreeFacts.

Lemma NoDup_sub (l k : list positive) : NoDup k → l ⊆+ k → NoDup l.
Proof.
  intros Hnd [k' Hk]%submseteq_Permutation. rewrite Hk in Hnd.
  by apply NoDup_app in Hnd as (? & _ & _).
Qed.

Lemma NoDup_sub_notin (x : positive) (l k : list positive) :
  NoDup k → x :: l ⊆+ k → x ∉ l.
Proof. intros Hk Hs. by apply (NoDup_sub _ _ Hk), NoDup_cons in Hs as [? _]. Qed.

Lemma NoDup_sub_ne (x y : positive) (k : list positive) :
  NoDup k → [x; y] ⊆+ k → x ≠ y.
Proof. intros Hk Hs ->. apply (NoDup_sub_notin _ _ _ Hk Hs). set_solver. Qed.

(** Facts that follow from a [NoDup] hypothesis [H]: a [NoDup] of a part,
    a non-membership, a disequality. *)
Ltac nd H :=
  lazymatch goal with
  | |- NoDup _ => apply (NoDup_sub _ _ H); solve_submseteq
  | |- _ ∉ _ => apply (NoDup_sub_notin _ _ _ H); solve_submseteq
  | |- ?x ∈ ?l → False => change (x ∉ l); apply (NoDup_sub_notin _ _ _ H); solve_submseteq
  | |- _ ≠ _ => apply (NoDup_sub_ne _ _ _ H); solve_submseteq
  end.

(** ** Strict weak orders *)

Section OrderFacts.
Context {K : Type}.

Context (lt : K → K → bool) `{!StrictWeakOrder lt}.

Lemma swo_asym a b : lt a b = true → lt b a = false.
Proof.
  intros H. destruct (lt b a) eqn:E; [|done].
  pose proof (swo_trans _ _ _ H E) as H1. by rewrite swo_irrefl in H1.
Qed.

Lemma equivb_true a b : equivb lt a b = true ↔ lt a b = false ∧ lt b a = false.
Proof. unfold equivb. destruct (lt a b), (lt b a); simpl; naive_solver. Qed.

Lemma equivb_sym a b : equivb lt a b = equivb lt b a.
Proof. unfold equivb. by rewrite orb_comm. Qed.

Lemma lt_equiv_r a b c : lt a b = true → equivb lt b c = true → lt a c = true.
Proof.
  intros Hab [Hbc Hcb]%equivb_true.
  destruct (lt a c) eqn:Hac; [done|].
  destruct (lt c a) eqn:Hca.
  - pose proof (swo_trans _ _ _ Hca Hab). congruence.
  - destruct (swo_incomp a c b Hac Hca Hcb Hbc). congruence.
Qed.

Lemma lt_equiv_l a b c : equivb lt a b = true → lt b c = true → lt a c = true.
Proof.
  intros [Hab Hba]%equivb_true Hbc.
  destruct (lt a c) eqn:Hac; [done|].
  destruct (lt c a) eqn:Hca.
  - pose proof (swo_trans _ _ _ Hbc Hca). congruence.
  - destruct (swo_incomp b a c Hba Hab Hac Hca). congruence.
Qed.

End OrderFacts.

(** ** Reading the heap, and [findNode] *)

Section Exec.
Context {K T Compare : Type} `{!Comparator K Compare} `{!DefaultConstructible T}.
Implicit Types (s : State K T Compare) (h : gmap positive (Node K T)).

Lemma bind_Ret {A B} (m : M K T Compare A) (k : A → M K T Compare B) s a s' :
  m s = Ret a s' → bind m k s = k a s'.
Proof. unfold bind. by intros ->. Qed.

Lemma bind_ret {A B} (a : A) (k : A → M K T Compare B) s :
  bind (ret a) k s = k a s.
Proof. reflexivity. Qed.

Lemma bind_assoc {A B C} (m : M K T Compare A) (f : A → M K T Compare B)
    (g : B → M K T Compare C) s :
  bind (bind m f) g s = bind m (λ x, bind (f x) g) s.
Proof. unfold bind. by destruct (m s). Qed.

Lemma load_Some s a n : heap s !! a = Some n → load (Some a) s = Ret n s.
Proof. unfold load. by intros ->. Qed.

Lemma get_key_Some s a n : heap s !! a = Some n → get_key (Some a) s = Ret (detail.value n).1 s.
Proof. intros H. unfold get_key. by rewrite (bind_Ret _ _ _ _ _ (load_Some _ _ _ H)). Qed.
Lemma get_value_Some s a n : heap s !! a = Some n → get_value (Some a) s = Ret (detail.value n) s.
Proof. intros H. unfold get_value. by rewrite (bind_Ret _ _ _ _ _ (load_Some _ _ _ H)). Qed.
Lemma get_color_Some s a n : heap s !! a = Some n → get_color (Some a) s = Ret (detail.color n) s.
Proof. intros H. unfold get_color. by rewrite (bind_Ret _ _ _ _ _ (load_Some _ _ _ H)). Qed.
Lemma get_p_Some s a n : heap s !! a = Some n → get_p (Some a) s = Ret (detail.p n) s.
Proof. intros H. unfold get_p. by rewrite (bind_Ret _ _ _ _ _ (load_Some _ _ _ H)). Qed.
Lemma get_left_Some s a n : heap s !! a = Some n → get_left (Some a) s = Ret (detail.left n) s.
Proof. intros H. unfold get_left. by rewrite (bind_Ret _ _ _ _ _ (load_Some _ _ _ H)). Qed.
Lemma get_right_Some s a n : heap s !! a = Some n → get_right (Some a) s = Ret (detail.right n) s.
Proof. intros H. unfold get_right. by rewrite (bind_Ret _ _ _ _ _ (load_Some _ _ _ H)). Qed.
Lemma get_child_Some s a n b :
  heap s !! a = Some n → get_child (Some a) b s = Ret (detail.child n b) s.
Proof. intros H. unfold get_child. by rewrite (bind_Ret _ _ _ _ _ (load_Some _ _ _ H)). Qed.

Lemma areKeysEqual_eq s a b :
  areKeysEqual a b s = Ret (equivb (call (compare_ (this s))) a b) s.
Proof.
  unfold areKeysEqual, equivb, compare, bind, ret.
  by destruct (call _ a b), (call _ b a).
Qed.

Lemma compare_eq s a b : compare a b s = Ret (call (compare_ (this s)) a b) s.
Proof. reflexivity. Qed.

Lemma root_null (t : tree K T) : is_null (root t) = true → t = Leaf.
Proof. by destruct t. Qed.

Lemma findNode_loop_wf s par t fuel key last :
  wf (heap s) par t → t ≠ Leaf → size t ≤ fuel →
  findNode_loop fuel key (root t) false s
  = Ret (search (call (compare_ (this s))) key t last) s.
Proof.
  revert par fuel last. induction t as [|l IHl a kv c r IHr]; intros par fuel last Hwf Hne Hfuel; [done|].
  destruct Hwf as (Ha & Hl & Hr). simpl in Hfuel.
  destruct fuel as [|fuel]; [lia|]. simpl.
  rewrite (bind_Ret _ _ _ _ _ (get_key_Some _ _ _ Ha)). simpl.
  rewrite (bind_Ret _ _ _ _ _ (areKeysEqual_eq _ _ _)).
  destruct (equivb _ key kv.1) eqn:Heq.
  { by destruct fuel. }
  rewrite (bind_Ret _ _ _ _ _ (get_key_Some _ _ _ Ha)). simpl.
  rewrite (bind_Ret _ _ _ _ _ (compare_eq _ _ _)).
  destruct (call _ key kv.1) eqn:Hlt.
  - rewrite (bind_Ret _ _ _ _ _ (get_left_Some _ _ _ Ha)). simpl.
    destruct l as [|ll la lkv lc lr].
    + simpl. by destruct fuel.
    + change (Some la) with (root (Bin ll la lkv lc lr)).
      cbn [is_null root]. 
      change (Some la) with (root (Bin ll la lkv lc lr)).
      apply (IHl (Some a)); [done|done|simpl in *; lia].
  - rewrite (bind_Ret _ _ _ _ _ (get_right_Some _ _ _ Ha)). simpl.
    destruct r as [|rl ra rkv rc rr].
    + simpl. by destruct fuel.
    + change (Some ra) with (root (Bin rl ra rkv rc rr)).
      cbn [is_null root].
      change (Some ra) with (root (Bin rl ra rkv rc rr)).
      apply (IHr (Some a)); [done|done|simpl in *; lia].
Qed.

Lemma findNode_wf s t fuel key :
  tree_at s t → size t ≤ fuel →
  findNode fuel key s = Ret (search (call (compare_ (this s))) key t None) s.
Proof.
  intros (Hwf & Hroot & _) Hfuel. unfold findNode.
  unfold get_root, bind. rewrite Hroot.
  destruct t as [|l a kv c r].
  - by destruct fuel.
  - by apply (findNode_loop_wf s None).
Qed.

End Exec.

(** ** Search trees *)

Section Search.
Context {K T : Type}.
Implicit Types (t l r : tree K T).

Lemma entries_nodes t : entries t = (nodes t).*2.
Proof.
  induction t as [|l IHl a kv c r IHr]; simpl; [done|].
  by rewrite fmap_app, IHl, IHr.
Qed.

Lemma addrs_nodes t : addrs t = (nodes t).*1.
Proof.
  induction t as [|l IHl a kv c r IHr]; simpl; [done|].
  by rewrite fmap_app, IHl, IHr.
Qed.

Lemma size_nodes t : size t = length (nodes t).
Proof.
  induction t as [|l IHl a kv c r IHr]; simpl; [done|].
  rewrite length_app. simpl. lia.
Qed.

Lemma bst_Bin lt l a kv c r :
  bst lt (Bin l a kv c r) ↔
    bst lt l ∧ bst lt r
    ∧ (∀ e, e ∈ entries l → lt e.1 kv.1 = true)
    ∧ (∀ e, e ∈ entries r → lt kv.1 e.1 = true)
    ∧ (∀ e1 e2, e1 ∈ entries l → e2 ∈ entries r → lt e1.1 e2.1 = true).
Proof.
  unfold bst. simpl. rewrite StronglySorted_app, StronglySorted_cons, Forall_forall.
  unfold key_lt. split.
  - intros (H1 & H2 & H3 & H4). split_and!; auto.
    + intros e He. apply H1; [done|]. set_solver.
    + intros e1 e2 He1 He2. apply H1; [done|]. set_solver.
  - intros (H1 & H2 & H3 & H4 & H5). split_and!; auto.
    intros x1 x2 Hx1 [->|Hx2]%elem_of_cons; auto.
Qed.

Lemma wf_node h par t a kv :
  wf h par t → (a, kv) ∈ nodes t →
  ∃ n, h !! a = Some n ∧ detail.value n = kv.
Proof.
  revert par. induction t as [|l IHl x xkv c r IHr]; intros par; simpl; [set_solver|].
  intros (Hx & Hl & Hr) [Hin|[Hin|Hin]%elem_of_cons]%elem_of_app.
  - eauto.
  - injection Hin as -> ->. eauto.
  - eauto.
Qed.

Lemma search_lookup lt key t last :
  t ≠ Leaf →
  ∃ x kv, search lt key t last = Some x ∧ (x, kv) ∈ nodes t
          ∧ lookup lt key t = (if equivb lt key kv.1 then Some (x, kv) else None).
Proof.
  revert last. induction t as [|l IHl a akv c r IHr]; intros last Hne; [done|]. simpl.
  destruct (equivb lt key akv.1) eqn:Heq.
  { exists a, akv. rewrite Heq. split_and!; [done| set_solver |done]. }
  destruct (lt key akv.1).
  - destruct l as [|ll la lkv lc lr].
    + exists a, akv. rewrite Heq. simpl. split_and!; [done|set_solver|done].
    + destruct (IHl (Some a)) as (x & kv & -> & Hin & ->); [done|].
      exists x, kv. split_and!; [done|set_solver|done].
  - destruct r as [|rl ra rkv rc rr].
    + exists a, akv. rewrite Heq. simpl. split_and!; [done|set_solver|done].
    + destruct (IHr (Some a)) as (x & kv & -> & Hin & ->); [done|].
      exists x, kv. split_and!; [done|set_solver|done].
Qed.

Context (lt : K → K → bool) `{!StrictWeakOrder lt}.

Lemma lookup_Some key t a kv :
  lookup lt key t = Some (a, kv) → (a, kv) ∈ nodes t ∧ equivb lt key kv.1 = true.
Proof.
  induction t as [|l IHl x xkv c r IHr]; simpl; [done|].
  destruct (equivb lt key xkv.1) eqn:Heq.
  { intros [= -> ->]. split; [set_solver|done]. }
  destruct (lt key xkv.1); intros H.
  - destruct (IHl H). split; [set_solver|done].
  - destruct (IHr H). split; [set_solver|done].
Qed.

Lemma lookup_present key t :
  bst lt t → present lt key t → is_Some (lookup lt key t).
Proof.
  induction t as [|l IHl x xkv c r IHr]; simpl.
  { intros _ (e & He & _). set_solver. }
  intros (Hl & Hr & Hlx & Hxr & _)%bst_Bin (e & He & Heq).
  destruct (equivb lt key xkv.1) eqn:Hx; [done|].
  apply elem_of_app in He as [He|[->|He]%elem_of_cons]; [| congruence |].
  - pose proof (Hlx e He) as Hlt.
    assert (lt key xkv.1 = true) as -> by (eapply lt_equiv_l; eauto).
    apply IHl; [done|]. by exists e.
  - pose proof (Hxr e He) as Hlt.
    assert (lt xkv.1 key = true) as Hk.
    { eapply lt_equiv_r; eauto. by rewrite equivb_sym. }
    rewrite (swo_asym lt _ _ Hk).
    apply IHr; [done|]. by exists e.
Qed.

Lemma lookup_None key t :
  bst lt t → lookup lt key t = None ↔ ¬ present lt key t.
Proof.
  intros Hbst. split.
  - intros Hnone Hp. destruct (lookup_present key t Hbst Hp) as [? ?]. congruence.
  - intros Hnp. destruct (lookup lt key t) as [[a kv]|] eqn:E; [|done].
    destruct Hnp. apply lookup_Some in E as [Hin Heq].
    exists kv. split; [|done]. rewrite entries_nodes. 
    apply list_elem_of_fmap. by exists (a, kv).
Qed.

End Search.

Section Lookup.
Context {K T Compare : Type} `{!Comparator K Compare} `{!DefaultConstructible T}.
Implicit Types (s : State K T Compare) (t : tree K T).

(** What [findNode] followed by the equality test of the caller amounts
    to. *)
Lemma find_then_test s t fuel key {A} (k : ptr → bool → M K T Compare A) :
  tree_at s t → size t ≤ fuel →
  (let* candidate := findNode fuel key in
   let* found := (if is_null candidate then ret false
                  else let* ck := get_key candidate in areKeysEqual key ck) in
   k candidate found) s
  = match lookup (call (compare_ (this s))) key t with
    | Some (a, _) => k (Some a) true s
    | None => k (search (call (compare_ (this s))) key t None) false s
    end.
Proof.
  intros Ht Hfuel.
  rewrite (bind_Ret _ _ _ _ _ (findNode_wf _ _ _ _ Ht Hfuel)).
  destruct t as [|l a kv c r]; [done|].
  destruct (search_lookup (call (compare_ (this s))) key (Bin l a kv c r) None)
    as (x & xkv & Hs & Hin & Hl); [done|].
  rewrite Hs, Hl. cbn [is_null].
  destruct Ht as (Hwf & _).
  destruct (wf_node _ _ _ _ _ Hwf Hin) as (n & Hn & <-).
  unfold bind at 1. unfold bind at 1.
  rewrite (get_key_Some _ _ _ Hn), areKeysEqual_eq.
  by destruct (equivb _ _ _).
Qed.

Lemma at_wf s t fuel key :
  tree_at s t → size t ≤ fuel →
  at_ fuel key s
  = match lookup (call (compare_ (this s))) key t with
    | Some (a, _) => Ret a s
    | None => Throw out_of_range s
    end.
Proof.
  intros Ht Hfuel. unfold at_.
  rewrite (find_then_test s t fuel key
             (λ candidate found, match candidate, found with
                                 | Some a, true => ret a
                                 | _, _ => throw out_of_range
                                 end) Ht Hfuel).
  destruct (lookup _ key t) as [[a kv]|]; [done|].
  by destruct (search _ _ _ _).
Qed.

End Lookup.

(** ** Writes, [updateParentNode] and the rotations *)

Section Writes.
Context {K T Compare : Type} `{!Comparator K Compare} `{!DefaultConstructible T}.
Implicit Types (s : State K T Compare) (t l r m : tree K T) (c : list (frame K T)).

Lemma modify_Some s a n f :
  heap s !! a = Some n →
  modify (Some a) f s = Ret tt (set_heap (<[a := f n]> (heap s)) s).
Proof. unfold modify. by intros ->. Qed.

Lemma new_node_eq s e col (q : ptr) k :
  avail s = S k →
  new_node e col q s
  = Ret (Some (next s))
        (mkState (<[next s := detail.mkNode e col q None None]> (heap s))
                 (Pos.succ (next s)) k (this s)).
Proof. unfold new_node. by intros ->. Qed.

Lemma tree_at_plug s c t :
  tree_at s (plug c t) ↔
    wf_ctx (heap s) c (root t) ∧ wf (heap s) (ctx_par c) t
    ∧ root_ (this s) = root (plug c t)
    ∧ NoDup (ctx_before c ++ addrs t ++ ctx_after c).
Proof. unfold tree_at. rewrite wf_plug, addrs_plug. tauto. Qed.

Lemma root_plug c t :
  root (plug c t) = match c with [] => root t | _ => root (plug c Leaf) end.
Proof.
  destruct c as [|f c]; [done|]. simpl. revert f t.
  induction c as [|g c IH]; intros f t; simpl.
  - by destruct f.
  - rewrite (IH g (fill f t)), (IH g (fill f Leaf)). by destruct g.
Qed.

End Writes.

(** Symbolic execution of straight-line code over a heap whose cells are
    known. *)
Ltac heap_simpl :=
  repeat first
    [ rewrite lookup_insert_eq
    | rewrite lookup_delete_ne by (first [done | congruence])
    | rewrite insert_insert_eq
    | rewrite lookup_insert_ne by (first [done | congruence])
    | progress unfold set_heap, set_root, set_this
    | progress cbn [heap this root_ compare_ next avail
                    detail.value detail.color detail.p detail.left detail.right
                    detail.child is_null negb root ctx_par frame_addr fst snd] ].

Ltac solve_lookup := heap_simpl; first [eassumption | reflexivity].

(** One step of a read, a test or a call whose result is known. *)
Ltac exec_read :=
  lazymatch goal with
  | |- context [bind (bind _ _) _ _] => rewrite bind_assoc
  | |- context [bind (ret _) _ _] => rewrite bind_ret
  | |- context [bind (get_p (Some ?a)) _ ?s] =>
      erewrite (bind_Ret (get_p (Some a)) _ s) by (apply get_p_Some; solve_lookup)
  | |- context [bind (get_left (Some ?a)) _ ?s] =>
      erewrite (bind_Ret (get_left (Some a)) _ s) by (apply get_left_Some; solve_lookup)
  | |- context [bind (get_right (Some ?a)) _ ?s] =>
      erewrite (bind_Ret (get_right (Some a)) _ s) by (apply get_right_Some; solve_lookup)
  | |- context [bind (get_child (Some ?a) ?b) _ ?s] =>
      erewrite (bind_Ret (get_child (Some a) b) _ s) by (apply get_child_Some; solve_lookup)
  | |- context [bind (get_key (Some ?a)) _ ?s] =>
      erewrite (bind_Ret (get_key (Some a)) _ s) by (apply get_key_Some; solve_lookup)
  | |- context [bind (get_value (Some ?a)) _ ?s] =>
      erewrite (bind_Ret (get_value (Some a)) _ s) by (apply get_value_Some; solve_lookup)
  | |- context [bind (get_color (Some ?a)) _ ?s] =>
      erewrite (bind_Ret (get_color (Some a)) _ s) by (apply get_color_Some; solve_lookup)
  | |- context [bind (colorOf (Some ?a)) _ ?s] =>
      erewrite (bind_Ret (colorOf (Some a)) _ s) by (apply get_color_Some; solve_lookup)
  | |- context [bind (colorOf None) _ ?s] =>
      rewrite (bind_Ret (colorOf None) _ s Black s eq_refl)
  | |- context [bind (areKeysEqual ?a ?b) _ ?s] =>
      rewrite (bind_Ret (areKeysEqual a b) _ s _ _ (areKeysEqual_eq s a b))
  | |- context [bind (compare ?a ?b) _ ?s] =>
      rewrite (bind_Ret (compare a b) _ s _ _ (compare_eq s a b))
  | |- context [bind get_root _ ?s] =>
      rewrite (bind_Ret get_root _ s (root_ (this s)) s eq_refl)
  | |- context [bind (assert true) _ ?s] =>
      rewrite (bind_Ret (assert true) _ s tt s eq_refl)
  end.

(** One step of a write to a cell that is known. *)
Ltac exec_write :=
  lazymatch goal with
  | |- context [bind (set_color (Some ?a) ?c) _ ?s] =>
      erewrite (bind_Ret (set_color (Some a) c) _ s) by (apply modify_Some; solve_lookup)
  | |- context [bind (set_p (Some ?a) ?c) _ ?s] =>
      erewrite (bind_Ret (set_p (Some a) c) _ s) by (apply modify_Some; solve_lookup)
  | |- context [bind (set_left (Some ?a) ?c) _ ?s] =>
      erewrite (bind_Ret (set_left (Some a) c) _ s) by (apply modify_Some; solve_lookup)
  | |- context [bind (set_right (Some ?a) ?c) _ ?s] =>
      erewrite (bind_Ret (set_right (Some a) c) _ s) by (apply modify_Some; solve_lookup)
  | |- context [bind (modify (Some ?a) ?f) _ ?s] =>
      erewrite (bind_Ret (modify (Some a) f) _ s) by (apply modify_Some; solve_lookup)
  | |- context [bind (new_node ?e ?c ?q) _ ?s] =>
      erewrite (bind_Ret (new_node e c q) _ s) by (apply new_node_eq; eassumption)
  | |- context [bind (put_root ?r) _ ?s] =>
      rewrite (bind_Ret (put_root r) _ s tt (set_root r s) eq_refl)
  end.

Ltac reads := repeat (exec_read; heap_simpl).
Ltac exec := repeat (first [exec_read | exec_write]; heap_simpl).

Section Rotate.
Context {K T Compare : Type} `{!Comparator K Compare} `{!DefaultConstructible T}.
Implicit Types (s : State K T Compare) (t l r m : tree K T) (c : list (frame K T)).

Lemma bst_plug_inv lt c t : bst lt (plug c t) → bst lt t.
Proof.
  unfold bst. rewrite entries_plug.
  intros H%StronglySorted_app_1_r%StronglySorted_app_1_l. done.
Qed.

Lemma updateParentNode_spec s c l a kv col r q :
  StrictWeakOrder (call (compare_ (this s))) →
  wf_ctx (heap s) c (Some a) →
  heap s !! a = Some (detail.mkNode kv col (ctx_par c) (root l) (root r)) →
  bst (call (compare_ (this s))) (plug c (Bin l a kv col r)) →
  updateParentNode (Some a) q s = Ret tt (relink c q s).
Proof.
  intros Hswo Hctx Ha Hbst. unfold updateParentNode, set_left, set_right.
  exec. destruct c as [|[pa pkv pc pr|pl pa pkv pc] c']; [done|..]; heap_simpl;
    simpl in Hctx; destruct Hctx as (Hpa & Hsib & Hctx);
    simpl in Hbst; apply bst_plug_inv, bst_Bin in Hbst as (_ & _ & Hlt & Hgt & _);
    exec.
  - rewrite Hlt by (simpl; set_solver).
    by rewrite (modify_Some _ _ _ _ Hpa).
  - rewrite (swo_asym _ _ _ (Hgt kv ltac:(simpl; set_solver))).
    by rewrite (modify_Some _ _ _ _ Hpa).
Qed.

Lemma relink_same c q s : same_outside (ctx_addrs c) s (relink c q s).
Proof.
  unfold same_outside.
  destruct c as [|[pa pkv pc pr|pl pa pkv pc] c']; simpl; split_and!; try done.
  - intros x Hx. rewrite lookup_insert_ne; [done|]. unfold ctx_addrs in Hx. simpl in Hx. set_solver.
  - intros x Hx. rewrite lookup_insert_ne; [done|]. unfold ctx_addrs in Hx. simpl in Hx. set_solver.
Qed.

Lemma relink_root c q s t :
  root_ (this s) = root (plug c t) →
  root_ (this (relink c q s)) = match c with [] => q | _ => root (plug c Leaf) end.
Proof.
  destruct c as [|[pa pkv pc pr|pl pa pkv pc] c']; simpl; [done|..]; intros ->.
  - apply (root_plug (InL pa pkv pc pr :: c')).
  - apply (root_plug (InR pl pa pkv pc :: c')).
Qed.

Lemma wf_ctx_relink s c q0 q :
  NoDup (ctx_addrs c) →
  wf_ctx (heap s) c q0 → wf_ctx (heap (relink c q s)) c q.
Proof.
  unfold ctx_addrs.
  destruct c as [|[pa pkv pc pr|pl pa pkv pc] c']; simpl; [done|..].
  - intros Hnd (Hpa & Hsib & Hctx). split_and!.
    + by rewrite lookup_insert_eq.
    + eapply wf_frame; [|done]. intros x Hx. rewrite lookup_insert_ne; [done|].
      intros ->. apply NoDup_app in Hnd as (_ & _ & Hnd). apply NoDup_cons in Hnd as [Hnd _].
      set_solver.
    + eapply wf_ctx_frame; [|done]. intros x Hx. rewrite lookup_insert_ne; [done|].
      intros ->. unfold ctx_addrs in Hx. apply NoDup_app in Hnd as (_ & Hnd1 & Hnd). 
      apply NoDup_cons in Hnd as [Hnd _]. set_solver.
  - intros Hnd (Hpa & Hsib & Hctx). split_and!.
    + by rewrite lookup_insert_eq.
    + eapply wf_frame; [|done]. intros x Hx. rewrite lookup_insert_ne; [done|].
      intros ->. rewrite !app_assoc in Hnd.
      apply NoDup_app in Hnd as (Hnd & _ & _). apply NoDup_app in Hnd as (Hnd & Hnd1 & _).
      apply NoDup_app in Hnd as (_ & _ & Hnd). set_solver.
    + eapply wf_ctx_frame; [|done]. intros x Hx. rewrite lookup_insert_ne; [done|].
      intros ->. unfold ctx_addrs in Hx. rewrite !app_assoc in Hnd.
      apply NoDup_app in Hnd as (Hnd & Hnd2 & _). apply NoDup_app in Hnd as (Hnd & Hnd1 & _).
      apply NoDup_app in Hnd as (_ & Hnd3 & Hnd). set_solver.
Qed.

Lemma NoDup_around (A B C : list positive) :
  NoDup (B ++ A ++ C) ↔ NoDup (B ++ C) ∧ NoDup A ∧ ∀ x, x ∈ A → x ∉ B ++ C.
Proof.
  rewrite (Permutation_app_comm B), <- app_assoc, (Permutation_app_comm C).
  rewrite NoDup_app. set_solver.
Qed.

Lemma addrs_rotate c l a akv ac m b bkv bc r :
  addrs (plug c (Bin (Bin l a akv ac m) b bkv bc r))
  = addrs (plug c (Bin l a akv ac (Bin m b bkv bc r))).
Proof.
  rewrite !addrs_plug. simpl. rewrite <- !app_assoc. simpl. by rewrite <- !app_assoc.
Qed.

Lemma entries_rotate c l a akv ac m b bkv bc r :
  entries (plug c (Bin (Bin l a akv ac m) b bkv bc r))
  = entries (plug c (Bin l a akv ac (Bin m b bkv bc r))).
Proof.
  rewrite !entries_plug. simpl. rewrite <- !app_assoc. simpl. by rewrite <- !app_assoc.
Qed.

Lemma rotateLeft_spec s c l a akv ac m b bkv bc r :
  StrictWeakOrder (call (compare_ (this s))) →
  tree_at s (plug c (Bin l a akv ac (Bin m b bkv bc r))) →
  bst (call (compare_ (this s))) (plug c (Bin l a akv ac (Bin m b bkv bc r))) →
  ∃ s', rotateLeft (Some a) s = Ret tt s'
        ∧ tree_at s' (plug c (Bin (Bin l a akv ac m) b bkv bc r))
        ∧ same_outside (addrs (plug c (Bin l a akv ac (Bin m b bkv bc r)))) s s'.
Proof.
  intros Hswo (Hctx & Hwf & Hroot & Hnd)%tree_at_plug Hbst.
  simpl in Hwf. destruct Hwf as (Ha & Hl & Hb & Hm & Hr).
  pose proof Hnd as Hnd0.
  apply NoDup_around in Hnd as (Hndc & Hndt & Hdisj). fold (ctx_addrs c) in Hndc, Hdisj.
  simpl in Hndt, Hdisj.
  assert (a ≠ b) as Hab.
  { intros ->. apply NoDup_app in Hndt as (_ & _ & Hndt). apply NoDup_cons in Hndt as [Hndt _]. set_solver. }
  unfold rotateLeft.
  exec.
  rewrite (bind_Ret _ _ _ _ _ (updateParentNode_spec s c l a akv ac (Bin m b bkv bc r) (Some b) Hswo Hctx Ha Hbst)).
  pose proof (relink_same c (Some b) s) as (Hnext & Havail & Hcmp & Hsame).
  pose proof (relink_root c (Some b) s _ Hroot) as Hroot1.
  pose proof (wf_ctx_relink s c _ (Some b) Hndc Hctx) as Hctx1.
  generalize dependent (relink c (Some b) s). intros s1 Hnext Havail Hcmp Hsame Hroot1 Hctx1.
  pose proof Ha as Ha1. rewrite <- Hsame in Ha1 by (apply Hdisj; set_solver).
  pose proof Hb as Hb1. rewrite <- Hsame in Hb1 by (apply Hdisj; set_solver).
  unfold set_p, set_left, set_right.
  exec.
  assert (∀ x, x ∈ addrs l ++ addrs m ++ addrs r → x ≠ a ∧ x ≠ b) as Hsub.
  { clear -Hndt. intros x Hx.
    apply NoDup_app in Hndt as (_ & ? & Hndt). apply NoDup_cons in Hndt as (? & Hndt).
    apply NoDup_app in Hndt as (_ & ? & Hndt). apply NoDup_cons in Hndt as (? & _).
    set_solver. }
  assert (∀ x, x ∈ ctx_addrs c → x ≠ a ∧ x ≠ b) as Hcx.
  { clear -Hdisj. intros x Hx. split; intros ->; eapply Hdisj; try done; set_solver. }
  destruct m as [|ml mm mkv mc mr]; cbn [is_null root].
  - eexists. split; [reflexivity|]. split.
    + apply tree_at_plug. cbn [heap root this]. split_and!.
      * eapply wf_ctx_frame; [|done]. intros x Hx. destruct (Hcx x Hx).
        by rewrite !lookup_insert_ne.
      * simpl. rewrite lookup_insert_ne, lookup_insert_eq by done.
        rewrite lookup_insert_eq. split_and!; try done.
        -- eapply wf_frame; [|done]. intros x Hx.
           destruct (Hsub x ltac:(set_solver)).
           rewrite !lookup_insert_ne by done. apply Hsame.
           intros Hc. eapply Hdisj; [|done]. set_solver.
        -- eapply wf_frame; [|done]. intros x Hx.
           destruct (Hsub x ltac:(set_solver)).
           rewrite !lookup_insert_ne by done. apply Hsame.
           intros Hc. eapply Hdisj; [|done]. set_solver.
      * rewrite Hroot1, (root_plug c (Bin _ _ _ _ _)). by destruct c.
      * by rewrite <- addrs_plug, addrs_rotate, addrs_plug.
    + unfold same_outside. cbn [heap next avail this]. split_and!; try congruence.
      intros x Hx. rewrite addrs_plug in Hx. simpl in Hx.
      rewrite !lookup_insert_ne by set_solver. apply Hsame. unfold ctx_addrs. set_solver.
  - assert (mm ≠ a ∧ mm ≠ b) as [Hma Hmb] by (apply Hsub; simpl; set_solver).
    destruct Hm as (Hmm & Hml & Hmr).
    unfold set_p. 
    pose proof Hmm as Hmm1. rewrite <- Hsame in Hmm1 by (apply Hdisj; simpl; set_solver).
    erewrite modify_Some by solve_lookup.
    eexists. split; [reflexivity|]. heap_simpl. split.
    + apply tree_at_plug. cbn [heap root this]. split_and!.
      * eapply wf_ctx_frame; [|done]. intros x Hx. destruct (Hcx x Hx).
        assert (x ≠ mm). { intros ->. eapply Hdisj; [|done]. simpl. set_solver. }
        by rewrite !lookup_insert_ne.
      * simpl. rewrite lookup_insert_eq. 
        rewrite !lookup_insert_ne, lookup_insert_eq by done.
        rewrite lookup_insert_ne, lookup_insert_eq by done.
        assert (∀ x, x ∈ addrs l ++ addrs ml ++ addrs mr ++ addrs r → x ≠ mm) as Hsub2.
        { clear -Hndt. intros x Hx. simpl in Hndt.
          apply NoDup_app in Hndt as (_ & ? & Hndt). apply NoDup_cons in Hndt as (? & Hndt).
          apply NoDup_app in Hndt as (Hndt & ? & _).
          apply NoDup_app in Hndt as (_ & ? & Hndt). apply NoDup_cons in Hndt as (? & _).
          set_solver. }
        split_and!; try done.
        all: eapply wf_frame; [|done]; intros x Hx;
           destruct (Hsub x ltac:(simpl; set_solver));
           pose proof (Hsub2 x ltac:(set_solver));
           rewrite !lookup_insert_ne by done; apply Hsame;
           intros Hc; (eapply Hdisj; [|done]); simpl; set_solver.
      * rewrite Hroot1, (root_plug c (Bin _ _ _ _ _)). by destruct c.
      * by rewrite <- addrs_plug, addrs_rotate, addrs_plug.
    + unfold same_outside. cbn [heap next avail this]. split_and!; try congruence.
      intros x Hx. rewrite addrs_plug in Hx. simpl in Hx.
      rewrite !lookup_insert_ne by set_solver. apply Hsame. unfold ctx_addrs. set_solver.
Qed.

Lemma rotateRight_spec s c l a akv ac m b bkv bc r :
  StrictWeakOrder (call (compare_ (this s))) →
  tree_at s (plug c (Bin (Bin l b bkv bc m) a akv ac r)) →
  bst (call (compare_ (this s))) (plug c (Bin (Bin l b bkv bc m) a akv ac r)) →
  ∃ s', rotateRight (Some a) s = Ret tt s'
        ∧ tree_at s' (plug c (Bin l b bkv bc (Bin m a akv ac r)))
        ∧ same_outside (addrs (plug c (Bin (Bin l b bkv bc m) a akv ac r))) s s'.
Proof.
  intros Hswo (Hctx & Hwf & Hroot & Hnd)%tree_at_plug Hbst.
  simpl in Hwf. destruct Hwf as (Ha & (Hb & Hl & Hm) & Hr).
  pose proof Hnd as Hnd0.
  apply NoDup_around in Hnd as (Hndc & Hndt & Hdisj). fold (ctx_addrs c) in Hndc, Hdisj.
  simpl in Hndt, Hdisj.
  assert (a ≠ b) as Hab.
  { intros ->. apply NoDup_app in Hndt as (Hndt & ? & _).
    apply NoDup_app in Hndt as (_ & _ & Hndt). apply NoDup_cons in Hndt as [? _]. set_solver. }
  unfold rotateRight.
  exec.
  rewrite (bind_Ret _ _ _ _ _ (updateParentNode_spec s c (Bin l b bkv bc m) a akv ac r (Some b) Hswo Hctx Ha Hbst)).
  pose proof (relink_same c (Some b) s) as (Hnext & Havail & Hcmp & Hsame).
  pose proof (relink_root c (Some b) s _ Hroot) as Hroot1.
  pose proof (wf_ctx_relink s c _ (Some b) Hndc Hctx) as Hctx1.
  generalize dependent (relink c (Some b) s). intros s1 Hnext Havail Hcmp Hsame Hroot1 Hctx1.
  pose proof Ha as Ha1. rewrite <- Hsame in Ha1 by (apply Hdisj; set_solver).
  pose proof Hb as Hb1. rewrite <- Hsame in Hb1 by (apply Hdisj; set_solver).
  unfold set_p, set_left, set_right.
  exec.
  assert (∀ x, x ∈ addrs l ++ addrs m ++ addrs r → x ≠ a ∧ x ≠ b) as Hsub.
  { clear -Hndt. intros x Hx.
    apply NoDup_app in Hndt as (Hndt & ? & Hndt2). apply NoDup_cons in Hndt2 as (? & _).
    apply NoDup_app in Hndt as (_ & ? & Hndt). apply NoDup_cons in Hndt as (? & _).
    set_solver. }
  assert (∀ x, x ∈ ctx_addrs c → x ≠ a ∧ x ≠ b) as Hcx.
  { clear -Hdisj. intros x Hx. split; intros ->; eapply Hdisj; try done; set_solver. }
  destruct m as [|ml mm mkv mc mr]; cbn [is_null root].
  - eexists. split; [reflexivity|]. split.
    + apply tree_at_plug. cbn [heap root this]. split_and!.
      * eapply wf_ctx_frame; [|done]. intros x Hx. destruct (Hcx x Hx).
        by rewrite !lookup_insert_ne.
      * simpl. rewrite lookup_insert_ne, lookup_insert_eq by done.
        rewrite lookup_insert_eq. split_and!; try done.
        -- eapply wf_frame; [|done]. intros x Hx.
           destruct (Hsub x ltac:(set_solver)).
           rewrite !lookup_insert_ne by done. apply Hsame.
           intros Hc. eapply Hdisj; [|done]. set_solver.
        -- eapply wf_frame; [|done]. intros x Hx.
           destruct (Hsub x ltac:(set_solver)).
           rewrite !lookup_insert_ne by done. apply Hsame.
           intros Hc. eapply Hdisj; [|done]. set_solver.
      * rewrite Hroot1, (root_plug c (Bin _ _ _ _ _)). by destruct c.
      * by rewrite <- addrs_plug, <- addrs_rotate, addrs_plug.
    + unfold same_outside. cbn [heap next avail this]. split_and!; try congruence.
      intros x Hx. rewrite addrs_plug in Hx. simpl in Hx.
      rewrite !lookup_insert_ne by set_solver. apply Hsame. unfold ctx_addrs. set_solver.
  - assert (mm ≠ a ∧ mm ≠ b) as [Hma Hmb] by (apply Hsub; simpl; set_solver).
    destruct Hm as (Hmm & Hml & Hmr).
    unfold set_p. 
    pose proof Hmm as Hmm1. rewrite <- Hsame in Hmm1 by (apply Hdisj; simpl; set_solver).
    erewrite modify_Some by solve_lookup.
    eexists. split; [reflexivity|]. heap_simpl. split.
    + apply tree_at_plug. cbn [heap root this]. split_and!.
      * eapply wf_ctx_frame; [|done]. intros x Hx. destruct (Hcx x Hx).
        assert (x ≠ mm). { intros ->. eapply Hdisj; [|done]. simpl. set_solver. }
        by rewrite !lookup_insert_ne.
      * simpl. rewrite lookup_insert_eq. 
        rewrite !lookup_insert_ne, lookup_insert_eq by done.
        rewrite lookup_insert_ne, lookup_insert_eq by done.
        assert (∀ x, x ∈ addrs l ++ addrs ml ++ addrs mr ++ addrs r → x ≠ mm) as Hsub2.
        { clear -Hndt. intros x Hx. simpl in Hndt.
          apply NoDup_app in Hndt as (Hndt & ? & _).
          apply NoDup_app in Hndt as (_ & ? & Hndt). apply NoDup_cons in Hndt as (? & Hndt).
          apply NoDup_app in Hndt as (_ & ? & Hndt). apply NoDup_cons in Hndt as (? & _).
          set_solver. }
        split_and!; try done.
        all: eapply wf_frame; [|done]; intros x Hx;
           destruct (Hsub x ltac:(simpl; set_solver));
           pose proof (Hsub2 x ltac:(set_solver));
           rewrite !lookup_insert_ne by done; apply Hsame;
           intros Hc; (eapply Hdisj; [|done]); simpl; set_solver.
      * rewrite Hroot1, (root_plug c (Bin _ _ _ _ _)). by destruct c.
      * by rewrite <- addrs_plug, <- addrs_rotate, addrs_plug.
    + unfold same_outside. cbn [heap next avail this]. split_and!; try congruence.
      intros x Hx. rewrite addrs_plug in Hx. simpl in Hx.
      rewrite !lookup_insert_ne by set_solver. apply Hsame. unfold ctx_addrs. set_solver.
Qed.

End Rotate.

(** ** [minNode], iteration and [lowerBound] *)

Section Iter.
Context {K T Compare : Type} `{!Comparator K Compare} `{!DefaultConstructible T}.
Implicit Types (s : State K T Compare) (t l r m : tree K T) (c : list (frame K T)).

Lemma minNode_loop_spec s par t fuel :
  wf (heap s) par t → t ≠ Leaf → size t ≤ fuel →
  minNode_loop fuel (root t) s = Ret (head (addrs t)) s.
Proof.
  revert par fuel. induction t as [|l IHl a kv col r _]; intros par fuel Hwf Hne Hfuel; [done|].
  destruct Hwf as (Ha & Hl & Hr). simpl in Hfuel.
  destruct fuel as [|fuel]; [lia|]. cbn [minNode_loop root].
  exec. destruct l as [|ll la lkv lc lr]; [done|].
  cbn [is_null root].
  change (Some la) with (root (Bin ll la lkv lc lr)).
  rewrite (IHl (Some a)); [|done|done|simpl in *; lia].
  simpl. by destruct (addrs ll).
Qed.

Lemma minNode_spec s par t fuel :
  wf (heap s) par t → size t ≤ fuel →
  minNode fuel (root t) s = Ret (head (addrs t)) s.
Proof.
  intros Hwf Hfuel. unfold minNode. destruct t as [|l a kv col r]; [done|].
  by apply (minNode_loop_spec s par).
Qed.

Lemma iterator_climb_spec s c x fuel :
  wf_ctx (heap s) c (Some x) → NoDup (x :: ctx_addrs c) → length c < fuel →
  iterator_climb fuel (Some x) (ctx_par c) s = Ret (head (ctx_after c)) s.
Proof.
  revert x fuel. induction c as [|f c IH]; intros x fuel Hctx Hnd Hfuel.
  { destruct fuel; [simpl in *; lia|done]. }
  destruct fuel as [|fuel]; [simpl in *; lia|].
  unfold ctx_addrs in *.
  destruct f as [a kv col r|l a kv col]; simpl in Hctx, Hnd; destruct Hctx as (Ha & Hsib & Hctx);
    cbn [iterator_climb ctx_par frame_addr is_null]; exec.
  - unfold ptr_eqb. rewrite bool_decide_eq_false_2; [done|].
    intros Hr. destruct r as [|rl ra rkv rc rr]; [done|]. simpl in Hr. injection Hr as ->.
    simpl in Hnd. assert (x ≠ x); [nd Hnd|done].
  - unfold ptr_eqb. rewrite bool_decide_eq_true_2 by done. exec.
    apply IH; [done| |simpl in *; lia]. nd Hnd.
Qed.

Lemma size_plug c t : length c + size t ≤ size (plug c t).
Proof.
  revert t. induction c as [|f c IH]; intros t; simpl; [lia|].
  pose proof (IH (fill f t)). destruct f; simpl in *; lia.
Qed.

(** [operator++] steps to the next node of the in-order sequence. *)
Lemma iterator_next_spec s c l x kv col r fuel :
  tree_at s (plug c (Bin l x kv col r)) →
  size (plug c (Bin l x kv col r)) < fuel →
  iterator_next fuel (Some x) s = Ret (head (addrs r ++ ctx_after c)) s.
Proof.
  intros (Hctx & Hwf & Hroot & Hnd)%tree_at_plug Hfuel.
  destruct Hwf as (Hx & Hl & Hr). unfold iterator_next. exec.
  pose proof (size_plug c (Bin l x kv col r)) as Hsz. simpl in Hsz.
  destruct r as [|rl ra rkv rc rr]; cbn [is_null root negb].
  - exec. rewrite iterator_climb_spec; [done|done| |lia].
    simpl in Hnd. unfold ctx_addrs. nd Hnd.
  - change (Some ra) with (root (Bin rl ra rkv rc rr)).
    rewrite (minNode_spec s (Some x)); [|done|simpl in *; lia].
    simpl. by destruct (addrs rl).
Qed.

Lemma nodes_plug c t :
  nodes (plug c t) = ctx_nodes_before c ++ nodes t ++ ctx_nodes_after c.
Proof.
  revert t. induction c as [|f c IH]; intros t; simpl.
  - by rewrite app_nil_r.
  - rewrite IH. destruct f; simpl; by rewrite <- ?app_assoc.
Qed.

Lemma ctx_after_nodes c : ctx_after c = (ctx_nodes_after c).*1.
Proof.
  induction c as [|[a kv col r|l a kv col] c IH]; simpl; [done| |done].
  by rewrite fmap_app, IH, addrs_nodes.
Qed.

(** With distinct addresses a node splits the in-order sequence in one
    way only. *)
Lemma split_unique (x : positive) (kv kv' : K * T) pre post pre' post' :
  NoDup (pre ++ (x, kv) :: post).*1 →
  pre ++ (x, kv) :: post = pre' ++ (x, kv') :: post' →
  pre = pre' ∧ kv = kv' ∧ post = post'.
Proof.
  revert pre'. induction pre as [|[y ykv] pre IH]; intros pre' Hnd Heq.
  - destruct pre' as [|[y ykv] pre']; simpl in *.
    + by injection Heq as -> ->.
    + injection Heq as -> -> ->. apply NoDup_cons in Hnd as [Hx _].
      destruct Hx. rewrite fmap_app. simpl. set_solver.
  - destruct pre' as [|[z zkv] pre']; simpl in *.
    + injection Heq as -> -> Heq. apply NoDup_cons in Hnd as [Hx _].
      destruct Hx. rewrite fmap_app. simpl. set_solver.
    + injection Heq as -> -> Heq. apply NoDup_cons in Hnd as [_ Hnd].
      destruct (IH pre' Hnd Heq) as (-> & -> & ->). done.
Qed.

Lemma search_split lt `{!StrictWeakOrder lt} key t last :
  bst lt t → t ≠ Leaf →
  ∃ pre x kv post,
    nodes t = pre ++ (x, kv) :: post
    ∧ search lt key t last = Some x
    ∧ Forall (λ n, lt n.2.1 key = true) pre
    ∧ Forall (λ n, lt key n.2.1 = true) post.
Proof.
  revert last. induction t as [|l IHl a akv c r IHr]; intros last Hbst Hne; [done|].
  apply bst_Bin in Hbst as (Hbl & Hbr & Hla & Har & _). simpl.
  rewrite !entries_nodes in *.
  assert (∀ n, n ∈ nodes l → lt n.2.1 akv.1 = true) as Hla'.
  { intros n Hn. apply Hla. apply list_elem_of_fmap. eauto. }
  assert (∀ n, n ∈ nodes r → lt akv.1 n.2.1 = true) as Har'.
  { intros n Hn. apply Har. apply list_elem_of_fmap. eauto. }
  destruct (equivb lt key akv.1) eqn:Heq.
  { exists (nodes l), a, akv, (nodes r). split_and!; [done|done|..]; apply Forall_forall; intros n Hn.
    - eapply lt_equiv_r; eauto. by rewrite equivb_sym.
    - eapply lt_equiv_l; eauto. }
  destruct (lt key akv.1) eqn:Hlt.
  - assert (Forall (λ n, lt key n.2.1 = true) ((a, akv) :: nodes r)) as Hpost.
    { apply Forall_cons. split; [done|]. apply Forall_forall. intros n Hn.
      eapply swo_trans; eauto. }
    destruct l as [|ll la lkv lc lr].
    + exists [], a, akv, (nodes r). split_and!; [done|done|done|]. by apply Forall_cons in Hpost as [_ ?].
    + destruct (IHl (Some a) Hbl) as (pre & x & kv & post & Hn & Hs & Hpre & Hpo); [done|].
      exists pre, x, kv, (post ++ (a, akv) :: nodes r). rewrite Hn, Hs.
      split_and!; [by rewrite <- app_assoc|done|done|]. by apply Forall_app.
  - assert (lt akv.1 key = true) as Hgt.
    { apply not_true_iff_false in Heq. 
      destruct (lt akv.1 key) eqn:E; [done|]. exfalso. apply Heq. by apply equivb_true. }
    assert (Forall (λ n, lt n.2.1 key = true) (nodes l ++ [(a, akv)])) as Hpre.
    { apply Forall_app. split; [|by apply Forall_singleton]. apply Forall_forall. intros n Hn.
      eapply swo_trans; eauto. }
    destruct r as [|rl ra rkv rc rr].
    + exists (nodes l), a, akv, []. split_and!; [done|done| |done]. by apply Forall_app in Hpre as [? _].
    + destruct (IHr (Some a) Hbr) as (pre & x & kv & post & Hn & Hs & Hpr & Hpo); [done|].
      exists ((nodes l ++ [(a, akv)]) ++ pre), x, kv, post. rewrite Hn, Hs.
      split_and!; [by rewrite <- !app_assoc|done| |done]. by apply Forall_app.
Qed.

(** [lowerBound] reaches its node by [findNode]; standing on a node it
    calls the comparator on the entry, which is as far as it gets. *)
Lemma lowerBound_wf s t fuel key :
  tree_at s t → size t ≤ fuel →
  lowerBound fuel key s
  = match search (call (compare_ (this s))) key t None with
    | None => Ret None s
    | Some _ => Abort IllTyped
    end.
Proof.
  intros Ht Hfuel. unfold lowerBound.
  rewrite (bind_Ret _ _ _ _ _ (findNode_wf s t fuel key Ht Hfuel)).
  unfold end_. rewrite bind_ret.
  destruct t as [|tl ta tkv tc tr]; [done|].
  destruct (search_lookup (call (compare_ (this s))) key (Bin tl ta tkv tc tr) None)
    as (x & kv & Hs & Hin & _); [done|].
  rewrite Hs. unfold ptr_eqb. rewrite bool_decide_eq_false_2 by done. cbn [negb].
  destruct Ht as (Hwf & _).
  destruct (wf_node _ _ _ _ _ Hwf Hin) as (n & Hn & _).
  unfold iterator_deref. by exec.
Qed.

(** An iteration that starts on a node of the tree visits the rest of the
    in-order sequence from that node on. *)
Lemma iterate_spec s t post : ∀ pre fuel,
  tree_at s t → nodes t = pre ++ post → size t + length post < fuel →
  iterate fuel (head post.*1) s = Ret post.*2 s.
Proof.
  induction post as [|[x kv] post IH]; intros pre fuel Ht Hn Hfuel.
  { destruct fuel; [lia|done]. }
  destruct fuel as [|fuel]; [lia|].
  cbn [fmap list_fmap head fst snd iterate is_null].
  pose proof Ht as (Hwf & _ & Hnd).
  destruct (wf_node _ _ _ x kv Hwf) as (n & Hx & Hv).
  { rewrite Hn. set_solver. }
  unfold iterator_deref. exec. rewrite Hv.
  destruct (in_addrs_plug t x) as (c & l & kv' & col & r & Heq).
  { rewrite addrs_nodes, Hn, fmap_app. simpl. set_solver. }
  assert (NoDup (pre ++ (x, kv) :: post).*1) as Hndn.
  { by rewrite <- Hn, <- addrs_nodes. }
  rewrite Heq in Ht. simpl in Hfuel.
  rewrite (bind_Ret _ _ _ _ _ (iterator_next_spec _ _ _ _ _ _ _ fuel Ht ltac:(rewrite <- Heq; lia))).
  rewrite <- Heq in Ht.
  pose proof Hn as Hn'.
  rewrite Heq, nodes_plug in Hn'. cbn [nodes] in Hn'.
  rewrite <- app_assoc in Hn'. rewrite app_assoc in Hn'.
  symmetry in Hn'.
  apply (split_unique x kv kv' pre post (ctx_nodes_before c ++ nodes l)
           (nodes r ++ ctx_nodes_after c)) in Hn' as (_ & _ & Hpost); [|done].
  assert (head (addrs r ++ ctx_after c) = head post.*1) as ->.
  { by rewrite Hpost, fmap_app, ctx_after_nodes, addrs_nodes. }
  rewrite (bind_Ret _ _ _ _ _ (IH (pre ++ [(x, kv)]) fuel Ht ltac:(by rewrite <- app_assoc)
                                 ltac:(simpl in *; lia))).
  done.
Qed.

(** [begin()] to [end()] yields the entries in the order of the tree. *)
Lemma to_list_wf s t fuel :
  tree_at s t → 2 * size t < fuel →
  to_list fuel s = Ret (entries t) s.
Proof.
  intros Ht Hfuel. unfold to_list, begin_.
  pose proof Ht as (Hwf & Hroot & _).
  assert (get_root s = Ret (root t) s) as Hr by (unfold get_root; by rewrite Hroot).
  rewrite (bind_Ret _ _ s (head (addrs t)) s);
    [|rewrite (bind_Ret _ _ _ _ _ Hr); apply (minNode_spec s None); [done|lia]].
  rewrite addrs_nodes, entries_nodes.
  apply (iterate_spec s t (nodes t) []); [done|done|].
  rewrite <- size_nodes. lia.
Qed.

End Iter.

(** ** Recoloring *)

Section Insert.
Context {K T Compare : Type} `{!Comparator K Compare} `{!DefaultConstructible T}.
Implicit Types (s : State K T Compare) (t l r m : tree K T) (c : list (frame K T)).

Lemma same_outside_refl S s : same_outside S s s.
Proof. by unfold same_outside. Qed.

Lemma same_outside_trans S1 S2 S s1 s2 s3 :
  same_outside S1 s1 s2 → same_outside S2 s2 s3 →
  (∀ x, x ∈ S1 → x ∈ S) → (∀ x, x ∈ S2 → x ∈ S) →
  same_outside S s1 s3.
Proof.
  intros (? & ? & ? & Hh1) (? & ? & ? & Hh2) HS1 HS2. unfold same_outside.
  split_and!; try congruence.
  intros x Hx. rewrite Hh2, Hh1; [done|..]; intros ?; apply Hx; auto.
Qed.

Lemma set_color_spec s c l a kv col r col' :
  tree_at s (plug c (Bin l a kv col r)) →
  ∃ s', set_color (Some a) col' s = Ret tt s'
        ∧ tree_at s' (plug c (Bin l a kv col' r))
        ∧ same_outside [a] s s'.
Proof.
  intros (Hctx & Hwf & Hroot & Hnd)%tree_at_plug.
  destruct Hwf as (Ha & Hl & Hr). unfold set_color.
  assert (a ∉ ctx_addrs c ∧ a ∉ addrs l ∧ a ∉ addrs r) as (Hac & Hal & Har).
  { unfold ctx_addrs. simpl in Hnd. split_and!; nd Hnd. }
  erewrite modify_Some by done. eexists. split; [done|]. heap_simpl. split.
  - apply tree_at_plug. cbn [heap this root]. split_and!.
    + eapply wf_ctx_frame; [|done]. intros x Hx. rewrite lookup_insert_ne; [done|].
      by intros ->.
    + simpl. rewrite lookup_insert_eq. split_and!; [done|..].
      * eapply wf_frame; [|done]. intros x Hx. rewrite lookup_insert_ne; [done|].
        by intros ->.
      * eapply wf_frame; [|done]. intros x Hx. rewrite lookup_insert_ne; [done|].
        by intros ->.
    + rewrite Hroot, !(root_plug c (Bin _ _ _ _ _)). by destruct c.
    + done.
  - unfold same_outside. cbn [heap next avail this]. split_and!; try done.
    intros x Hx. rewrite lookup_insert_ne; [done|]. set_solver.
Qed.

(** Where [findNode] stops: at a node with an equal key, or at a node that
    has no child on the side the key belongs to. *)
Lemma search_ctx lt key t last :
  t ≠ Leaf →
  ∃ c l x kv col r,
    t = plug c (Bin l x kv col r) ∧ search lt key t last = Some x
    ∧ (if equivb lt key kv.1 then True
       else if lt key kv.1 then l = Leaf else r = Leaf).
Proof.
  revert last. induction t as [|l IHl a akv col r IHr]; intros last Hne; [done|]. simpl.
  assert (∀ f c (t : tree K T), plug (c ++ [f]) t = fill f (plug c t)) as Hsnoc.
  { intros f c. induction c as [|g c IH]; intros t; simpl; [done|]. apply IH. }
  destruct (equivb lt key akv.1) eqn:Heq.
  { exists [], l, a, akv, col, r. by rewrite Heq. }
  destruct (lt key akv.1) eqn:Hlt.
  - destruct l as [|ll la lkv lc lr].
    + exists [], Leaf, a, akv, col, r. by rewrite Heq, Hlt.
    + destruct (IHl (Some a)) as (c & l' & x & kv & col' & r' & Ht & Hs & Hc); [done|].
      exists (c ++ [InL a akv col r]), l', x, kv, col', r'.
      rewrite Hsnoc, <- Ht. done.
  - destruct r as [|rl ra rkv rc rr].
    + exists [], l, a, akv, col, Leaf. by rewrite Heq, Hlt.
    + destruct (IHr (Some a)) as (c & l' & x & kv & col' & r' & Ht & Hs & Hc); [done|].
      exists (c ++ [InR l a akv col]), l', x, kv, col', r'.
      rewrite Hsnoc, <- Ht. done.
Qed.

End Insert.

(** ** The fix-up after an insertion *)

Section InsertFixup.
Context {K T Compare : Type} `{!Comparator K Compare} `{!DefaultConstructible T}.
Implicit Types (s : State K T Compare) (t l r m : tree K T) (c : list (frame K T)).

Lemma ctx_root_black_cons f g c :
  ctx_root_black (f :: g :: c) ↔ ctx_root_black (g :: c).
Proof. unfold ctx_root_black. by rewrite last_cons_cons. Qed.

Lemma ptr_eqb_refl (q : ptr) : ptr_eqb q q = true.
Proof. unfold ptr_eqb. by rewrite bool_decide_eq_true_2. Qed.

Lemma ptr_eqb_root_ne x t : x ∉ addrs t → ptr_eqb (Some x) (root t) = false.
Proof.
  intros Hx. unfold ptr_eqb. rewrite bool_decide_eq_false_2; [done|].
  destruct t; [done|]. simpl. intros [= ->]. apply Hx. simpl. set_solver.
Qed.

Lemma colorOf_root s par t :
  wf (heap s) par t → colorOf (root t) s = Ret (tree_color t) s.
Proof.
  destruct t as [|l a kv col r]; [done|]. intros (Ha & _).
  apply (get_color_Some _ _ _ Ha).
Qed.

Lemma reach_refl s t : tree_at s t → reach s t s t.
Proof. intros Ht. split_and!; try done; apply same_outside_refl. Qed.

Lemma reach_trans s0 t0 s1 t1 s2 t2 :
  reach s0 t0 s1 t1 → reach s1 t1 s2 t2 → reach s0 t0 s2 t2.
Proof.
  intros (_ & He1 & Ha1 & Hso1) (Ht2 & He2 & Ha2 & Hso2).
  split_and!; [done|congruence| |].
  - intros y. by rewrite Ha2, Ha1.
  - eapply same_outside_trans; [done|done|done|]. intros y. apply Ha1.
Qed.

Lemma reach_bst s0 t0 s t :
  reach s0 t0 s t → bst (call (compare_ (this s0))) t0 →
  bst (call (compare_ (this s))) t.
Proof.
  intros (_ & He & _ & (_ & _ & Hc & _)). unfold bst. by rewrite He, Hc.
Qed.

Lemma reach_swo s0 t0 s t :
  reach s0 t0 s t → StrictWeakOrder (call (compare_ (this s0))) →
  StrictWeakOrder (call (compare_ (this s))).
Proof. intros (_ & _ & _ & (_ & _ & Hc & _)). by rewrite Hc. Qed.

Lemma entries_recolor c l a kv col col' r :
  entries (plug c (Bin l a kv col' r)) = entries (plug c (Bin l a kv col r)).
Proof. by rewrite !entries_plug. Qed.

Lemma addrs_recolor c l a kv col col' r :
  addrs (plug c (Bin l a kv col' r)) = addrs (plug c (Bin l a kv col r)).
Proof. by rewrite !addrs_plug. Qed.

Lemma reach_set_color s0 t0 s c l a kv col r col' :
  reach s0 t0 s (plug c (Bin l a kv col r)) →
  ∃ s', set_color (Some a) col' s = Ret tt s'
        ∧ reach s0 t0 s' (plug c (Bin l a kv col' r)).
Proof.
  intros Hr. pose proof Hr as (Ht & _).
  destruct (set_color_spec s c l a kv col r col' Ht) as (s' & Hs' & Ht' & Hso).
  exists s'. split; [done|]. eapply reach_trans; [done|].
  split_and!; [done|apply entries_recolor| |].
  - intros y. by rewrite (addrs_recolor c l a kv col col' r).
  - eapply same_outside_trans; [done|apply same_outside_refl| |done].
    intros y ->%list_elem_of_singleton. rewrite addrs_plug. simpl. set_solver.
Qed.

Lemma reach_rotateLeft s0 t0 s c l a akv ac m b bkv bc r :
  StrictWeakOrder (call (compare_ (this s0))) →
  bst (call (compare_ (this s0))) t0 →
  reach s0 t0 s (plug c (Bin l a akv ac (Bin m b bkv bc r))) →
  ∃ s', rotateLeft (Some a) s = Ret tt s'
        ∧ reach s0 t0 s' (plug c (Bin (Bin l a akv ac m) b bkv bc r)).
Proof.
  intros Hswo Hbst Hr. pose proof Hr as (Ht & _).
  destruct (rotateLeft_spec s c l a akv ac m b bkv bc r) as (s' & Hs' & Ht' & Hso);
    [by eapply reach_swo|done|by eapply reach_bst|].
  exists s'. split; [done|]. eapply reach_trans; [done|].
  split_and!; [done|apply entries_rotate| |done].
  intros y. by rewrite addrs_rotate.
Qed.

Lemma reach_rotateRight s0 t0 s c l a akv ac m b bkv bc r :
  StrictWeakOrder (call (compare_ (this s0))) →
  bst (call (compare_ (this s0))) t0 →
  reach s0 t0 s (plug c (Bin (Bin l b bkv bc m) a akv ac r)) →
  ∃ s', rotateRight (Some a) s = Ret tt s'
        ∧ reach s0 t0 s' (plug c (Bin l b bkv bc (Bin m a akv ac r))).
Proof.
  intros Hswo Hbst Hr. pose proof Hr as (Ht & _).
  destruct (rotateRight_spec s c l a akv ac m b bkv bc r) as (s' & Hs' & Ht' & Hso);
    [by eapply reach_swo|done|by eapply reach_bst|].
  exists s'. split; [done|]. eapply reach_trans; [done|].
  split_and!; [done|symmetry; apply entries_rotate| |done].
  intros y. by rewrite <- addrs_rotate.
Qed.

Lemma fixed_up_reach s0 t0 s t s' :
  reach s0 t0 s t → fixed_up s t s' → fixed_up s0 t0 s'.
Proof. intros Hr (t' & Hr'). exists t'. by eapply reach_trans. Qed.

(** The cells of the nodes a tree is written with. *)
Ltac cells H :=
  let H' := fresh in
  pose proof H as (H' & _);
  apply tree_at_plug in H' as (?Hc & ?Hw & _ & ?Hnd);
  cbn [wf wf_ctx root ctx_par frame_addr fill] in *;
  destruct_and?.

(** Steps of the fix-up proofs: run one call by its tree-level lemma, then
    read on. *)
Tactic Notation "recolor" constr(Hr) "as" ident(Hr') "at" constr(c) constr(t) "to" constr(col') :=
  lazymatch t with
  | Bin ?l ?a ?kv ?col ?r =>
      let s' := fresh "s" in let Hs := fresh "Hs" in
      destruct (reach_set_color _ _ _ c l a kv col r col' Hr) as (s' & Hs & Hr');
      rewrite (bind_Ret _ _ _ _ _ Hs); clear Hs; cells Hr'; reads
  end.

Tactic Notation "rotate_left" constr(Hr) "as" ident(Hr') "at" constr(c) constr(t) "by" constr(Hswo) constr(Hbst) :=
  lazymatch t with
  | Bin ?l ?a ?akv ?ac (Bin ?m ?b ?bkv ?bc ?r) =>
      let s' := fresh "s" in let Hs := fresh "Hs" in
      destruct (reach_rotateLeft _ _ _ c l a akv ac m b bkv bc r Hswo Hbst Hr) as (s' & Hs & Hr');
      cbn [rotate negb]; rewrite (bind_Ret _ _ _ _ _ Hs); clear Hs; cells Hr'; reads
  end.

Tactic Notation "rotate_right" constr(Hr) "as" ident(Hr') "at" constr(c) constr(t) "by" constr(Hswo) constr(Hbst) :=
  lazymatch t with
  | Bin (Bin ?l ?b ?bkv ?bc ?m) ?a ?akv ?ac ?r =>
      let s' := fresh "s" in let Hs := fresh "Hs" in
      destruct (reach_rotateRight _ _ _ c l a akv ac m b bkv bc r Hswo Hbst Hr) as (s' & Hs & Hr');
      cbn [rotate negb]; rewrite (bind_Ret _ _ _ _ _ Hs); clear Hs; cells Hr'; reads
  end.

Lemma insertFixup_loop_spec fuel : ∀ c l x kv col r s,
  StrictWeakOrder (call (compare_ (this s))) →
  tree_at s (plug c (Bin l x kv col r)) →
  bst (call (compare_ (this s))) (plug c (Bin l x kv col r)) →
  ctx_root_black c → length c < fuel →
  ∃ s' t', insertFixup_loop fuel (Some x) s = Ret tt s'
           ∧ reach s (plug c (Bin l x kv col r)) s' t'
           ∧ insert_fixed c (Bin l x kv col r) t'.
Proof.
  induction fuel as [|fuel IH]; intros c l x kv col r s Hswo Ht Hbst Hrb Hfuel; [lia|].
  pose proof (reach_refl _ _ Ht) as Hr0.
  assert (∀ s1 c1 l1 x1 kv1 col1 r1,
    reach s (plug c (Bin l x kv col r)) s1 (plug c1 (Bin l1 x1 kv1 col1 r1)) →
    ctx_root_black c1 → length c1 < fuel →
    ∃ s' t', insertFixup_loop fuel (Some x1) s1 = Ret tt s'
             ∧ reach s (plug c (Bin l x kv col r)) s' t'
             ∧ insert_fixed c1 (Bin l1 x1 kv1 col1 r1) t') as IH'.
  { intros s1 c1 l1 x1 kv1 col1 r1 Hr1 Hrb1 Hf1.
    destruct (IH c1 l1 x1 kv1 col1 r1 s1) as (s' & t' & Hs' & Hr' & Hfx);
      [by eapply reach_swo|apply Hr1|by eapply reach_bst|done|done|].
    exists s', t'. split_and!; [done| |done]. by eapply reach_trans. }
  clear IH.
  pose proof Ht as (Hctx & Hwf & Hroot & Hnd)%tree_at_plug.
  destruct Hwf as (Hx & Hl & Hr).
  cbn [insertFixup_loop].
  destruct c as [|f1 c1]; reads.
  { eexists _, _. split_and!; [done|exact Hr0|apply fixed_root]. }
  destruct f1 as [P pkv pc pr|pl P pkv pc]; destruct Hctx as (HP & Hsib1 & Hctx);
    heap_simpl; reads;
    (destruct pc;
     [|by (eexists _, _; split_and!; [done|exact Hr0|by apply fixed_black_parent])]);
    (destruct c1 as [|f2 c2]; [done|]);
    apply ctx_root_black_cons in Hrb;
    (destruct f2 as [G gkv gc gr|gl G gkv gc]; destruct Hctx as (HG & Hsib2 & Hctx));
    heap_simpl; reads;
    rewrite ?ptr_eqb_refl, ?ptr_eqb_root_ne by (simpl in Hnd; nd Hnd);
    cbn [negb]; reads;
    rewrite (bind_Ret _ _ _ _ _ (colorOf_root _ _ _ Hsib2)).
  - (* node left of parent, parent left of grandparent *)
    destruct (tree_color gr) eqn:Hgc.
    + destruct gr as [|ul u ukv uc ur]; [done|]. simpl in Hgc. subst uc. reads.
      clear Hx Hl Hr HP Hsib1 HG Hsib2 Hctx Hnd.
      recolor Hr0 as Hr1 at (InL G gkv gc (Bin ul u ukv Red ur) :: c2)
        (Bin (Bin l x kv col r) P pkv Red pr) to Black.
      recolor Hr1 as Hr2 at (InR (Bin (Bin l x kv col r) P pkv Black pr) G gkv gc :: c2)
        (Bin ul u ukv Red ur) to Black.
      recolor Hr2 as Hr3 at c2
        (Bin (Bin (Bin l x kv col r) P pkv Black pr) G gkv gc (Bin ul u ukv Black ur)) to Red.
      destruct (IH' _ c2 _ G gkv Red _ Hr3) as (s' & t' & Hs' & Hr' & Hfx'); [|simpl in *; lia|].
      { destruct c2; [done|]. by apply ctx_root_black_cons in Hrb. }
      exists s', t'. split_and!; [done|done|]. by apply fixed_red_uncle_LL.
    + reads. rewrite ptr_eqb_root_ne by (simpl in Hnd; nd Hnd). cbn [eqb]. reads.
      clear Hx Hl Hr HP Hsib1 HG Hsib2 Hctx Hnd.
      recolor Hr0 as Hr1 at (InL G gkv gc gr :: c2) (Bin (Bin l x kv col r) P pkv Red pr) to Black.
      recolor Hr1 as Hr2 at c2 (Bin (Bin (Bin l x kv col r) P pkv Black pr) G gkv gc gr) to Red.
      rotate_right Hr2 as Hr3 at c2 (Bin (Bin (Bin l x kv col r) P pkv Black pr) G gkv Red gr)
        by Hswo Hbst.
      destruct (IH' _ (InL P pkv Black (Bin pr G gkv Red gr) :: c2) _ x kv col _ Hr3) as (s' & t' & Hs' & Hr' & Hfx'); [|simpl in *; lia|].
      { destruct c2; [done|]. by apply ctx_root_black_cons. }
      exists s', t'. split_and!; [done|done|]. by apply fixed_rotate_LL.
  - (* node left of parent, parent right of grandparent *)
    destruct (tree_color gl) eqn:Hgc.
    + destruct gl as [|ul u ukv uc ur]; [done|]. simpl in Hgc. subst uc. reads.
      clear Hx Hl Hr HP Hsib1 HG Hsib2 Hctx Hnd.
      recolor Hr0 as Hr1 at (InR (Bin ul u ukv Red ur) G gkv gc :: c2)
        (Bin (Bin l x kv col r) P pkv Red pr) to Black.
      recolor Hr1 as Hr2 at (InL G gkv gc (Bin (Bin l x kv col r) P pkv Black pr) :: c2)
        (Bin ul u ukv Red ur) to Black.
      recolor Hr2 as Hr3 at c2
        (Bin (Bin ul u ukv Black ur) G gkv gc (Bin (Bin l x kv col r) P pkv Black pr)) to Red.
      destruct (IH' _ c2 _ G gkv Red _ Hr3) as (s' & t' & Hs' & Hr' & Hfx'); [|simpl in *; lia|].
      { destruct c2; [done|]. by apply ctx_root_black_cons in Hrb. }
      exists s', t'. split_and!; [done|done|]. by apply fixed_red_uncle_LR.
    + reads. rewrite ptr_eqb_root_ne by (simpl in Hnd; nd Hnd). cbn [eqb]. reads.
      clear Hx Hl Hr HP Hsib1 HG Hsib2 Hctx Hnd.
      rotate_right Hr0 as Hr1 at (InR gl G gkv gc :: c2)
        (Bin (Bin l x kv col r) P pkv Red pr) by Hswo Hbst.
      recolor Hr1 as Hr2 at (InR gl G gkv gc :: c2)
        (Bin l x kv col (Bin r P pkv Red pr)) to Black.
      recolor Hr2 as Hr3 at c2
        (Bin gl G gkv gc (Bin l x kv Black (Bin r P pkv Red pr))) to Red.
      rotate_left Hr3 as Hr4 at c2
        (Bin gl G gkv Red (Bin l x kv Black (Bin r P pkv Red pr))) by Hswo Hbst.
      destruct (IH' _ (InR (Bin gl G gkv Red l) x kv Black :: c2) _ P pkv Red _ Hr4) as (s' & t' & Hs' & Hr' & Hfx'); [|simpl in *; lia|].
      { destruct c2; [done|]. by apply ctx_root_black_cons. }
      exists s', t'. split_and!; [done|done|]. by apply fixed_rotate_LR.
  - (* node right of parent, parent left of grandparent *)
    destruct (tree_color gr) eqn:Hgc.
    + destruct gr as [|ul u ukv uc ur]; [done|]. simpl in Hgc. subst uc. reads.
      clear Hx Hl Hr HP Hsib1 HG Hsib2 Hctx Hnd.
      recolor Hr0 as Hr1 at (InL G gkv gc (Bin ul u ukv Red ur) :: c2)
        (Bin pl P pkv Red (Bin l x kv col r)) to Black.
      recolor Hr1 as Hr2 at (InR (Bin pl P pkv Black (Bin l x kv col r)) G gkv gc :: c2)
        (Bin ul u ukv Red ur) to Black.
      recolor Hr2 as Hr3 at c2
        (Bin (Bin pl P pkv Black (Bin l x kv col r)) G gkv gc (Bin ul u ukv Black ur)) to Red.
      destruct (IH' _ c2 _ G gkv Red _ Hr3) as (s' & t' & Hs' & Hr' & Hfx'); [|simpl in *; lia|].
      { destruct c2; [done|]. by apply ctx_root_black_cons in Hrb. }
      exists s', t'. split_and!; [done|done|]. by apply fixed_red_uncle_RL.
    + reads. rewrite ptr_eqb_refl. cbn [eqb]. reads.
      clear Hx Hl Hr HP Hsib1 HG Hsib2 Hctx Hnd.
      rotate_left Hr0 as Hr1 at (InL G gkv gc gr :: c2)
        (Bin pl P pkv Red (Bin l x kv col r)) by Hswo Hbst.
      recolor Hr1 as Hr2 at (InL G gkv gc gr :: c2)
        (Bin (Bin pl P pkv Red l) x kv col r) to Black.
      recolor Hr2 as Hr3 at c2
        (Bin (Bin (Bin pl P pkv Red l) x kv Black r) G gkv gc gr) to Red.
      rotate_right Hr3 as Hr4 at c2
        (Bin (Bin (Bin pl P pkv Red l) x kv Black r) G gkv Red gr) by Hswo Hbst.
      destruct (IH' _ (InL x kv Black (Bin r G gkv Red gr) :: c2) _ P pkv Red _ Hr4) as (s' & t' & Hs' & Hr' & Hfx'); [|simpl in *; lia|].
      { destruct c2; [done|]. by apply ctx_root_black_cons. }
      exists s', t'. split_and!; [done|done|]. by apply fixed_rotate_RL.
  - (* node right of parent, parent right of grandparent *)
    destruct (tree_color gl) eqn:Hgc.
    + destruct gl as [|ul u ukv uc ur]; [done|]. simpl in Hgc. subst uc. reads.
      clear Hx Hl Hr HP Hsib1 HG Hsib2 Hctx Hnd.
      recolor Hr0 as Hr1 at (InR (Bin ul u ukv Red ur) G gkv gc :: c2)
        (Bin pl P pkv Red (Bin l x kv col r)) to Black.
      recolor Hr1 as Hr2 at (InL G gkv gc (Bin pl P pkv Black (Bin l x kv col r)) :: c2)
        (Bin ul u ukv Red ur) to Black.
      recolor Hr2 as Hr3 at c2
        (Bin (Bin ul u ukv Black ur) G gkv gc (Bin pl P pkv Black (Bin l x kv col r))) to Red.
      destruct (IH' _ c2 _ G gkv Red _ Hr3) as (s' & t' & Hs' & Hr' & Hfx'); [|simpl in *; lia|].
      { destruct c2; [done|]. by apply ctx_root_black_cons in Hrb. }
      exists s', t'. split_and!; [done|done|]. by apply fixed_red_uncle_RR.
    + reads. rewrite ptr_eqb_refl. cbn [eqb]. reads.
      clear Hx Hl Hr HP Hsib1 HG Hsib2 Hctx Hnd.
      recolor Hr0 as Hr1 at (InR gl G gkv gc :: c2)
        (Bin pl P pkv Red (Bin l x kv col r)) to Black.
      recolor Hr1 as Hr2 at c2
        (Bin gl G gkv gc (Bin pl P pkv Black (Bin l x kv col r))) to Red.
      rotate_left Hr2 as Hr3 at c2
        (Bin gl G gkv Red (Bin pl P pkv Black (Bin l x kv col r))) by Hswo Hbst.
      destruct (IH' _ (InR (Bin gl G gkv Red pl) P pkv Black :: c2) _ x kv col _ Hr3) as (s' & t' & Hs' & Hr' & Hfx'); [|simpl in *; lia|].
      { destruct c2; [done|]. by apply ctx_root_black_cons. }
      exists s', t'. split_and!; [done|done|]. by apply fixed_rotate_RR.
Qed.

End InsertFixup.

(** ** Red-black trees and their contexts *)

Section RedBlack.
Context {K T : Type}.
Implicit Types (t l r : tree K T) (c : list (frame K T)) (f : frame K T) (n m k : nat).

Lemma red_black_blacken t n : red_black t n → ∃ m, red_black (blacken t) m.
Proof.
  destruct 1 as [|l a kv r n Hl Hr _ _|l a kv r n Hl Hr]; simpl.
  - exists 1. constructor.
  - exists (S n). by constructor.
  - exists (S n). by constructor.
Qed.

Lemma red_black_Red_inv l a kv r n :
  red_black (Bin l a kv Red r) n →
  red_black l n ∧ red_black r n ∧ tree_color l = Black ∧ tree_color r = Black.
Proof. by inversion 1. Qed.

Lemma red_black_Black_inv l a kv r n :
  red_black (Bin l a kv Black r) n → ∃ k, n = S k ∧ red_black l k ∧ red_black r k.
Proof. inversion 1; subst. eauto. Qed.

Lemma red_black_Leaf_inv n : red_black (Leaf : tree K T) n → n = 1.
Proof. by inversion 1. Qed.

(** A subtree of the right height fits into its context. *)
Lemma rb_plug c : ∀ t n,
  rb_ctx c n → red_black t n → head_black c ∨ tree_color t = Black →
  ∃ m, red_black (plug c t) m.
Proof.
  induction c as [|f c IH]; intros t n Hc Ht Hcol; [by exists n|].
  destruct f as [a kv col sib|sib a kv col]; destruct Hc as (Hsib & Hc);
    destruct col; cbn [plug fill].
  - destruct Hc as (Hsb & Hhead & Hc). destruct Hcol as [Hcol|Hcol]; [done|].
    apply (IH _ n); [done|by constructor|by left].
  - apply (IH _ (S n)); [done|by constructor|by right].
  - destruct Hc as (Hsb & Hhead & Hc). destruct Hcol as [Hcol|Hcol]; [done|].
    apply (IH _ n); [done|by constructor|by left].
  - apply (IH _ (S n)); [done|by constructor|by right].
Qed.

(** And a valid tree comes apart into a subtree and a context that fit. *)
Lemma rb_unplug c : ∀ t m,
  red_black (plug c t) m →
  ∃ n, red_black t n ∧ rb_ctx c n ∧ (head_black c ∨ tree_color t = Black).
Proof.
  induction c as [|f c IH]; intros t m Hrb.
  { exists m. split_and!; [done|done|by left]. }
  cbn [plug] in Hrb. destruct (IH _ _ Hrb) as (n & Hf & Hc & Hcol).
  destruct f as [a kv col sib|sib a kv col]; destruct col; cbn [fill] in Hf.
  - apply red_black_Red_inv in Hf as (Ht & Hs & Hct & Hcs).
    destruct Hcol as [Hcol|Hcol]; [|done].
    exists n. split_and!; [done| |by right]. by split_and!.
  - apply red_black_Black_inv in Hf as (k & -> & Ht & Hs).
    exists k. split_and!; [done| |by left]. by split_and!.
  - apply red_black_Red_inv in Hf as (Hs & Ht & Hcs & Hct).
    destruct Hcol as [Hcol|Hcol]; [|done].
    exists n. split_and!; [done| |by right]. by split_and!.
  - apply red_black_Black_inv in Hf as (k & -> & Hs & Ht).
    exists k. split_and!; [done| |by left]. by split_and!.
Qed.

Lemma ctx_root_black_tail f g c : ctx_root_black (f :: g :: c) → ctx_root_black c.
Proof.
  intros H. destruct c as [|h c]; [done|].
  by do 2 apply ctx_root_black_cons in H.
Qed.

Lemma ctx_root_black_push f g c :
  frame_color f = Black → ctx_root_black (g :: c) → ctx_root_black (f :: c).
Proof.
  intros Hf H. destruct c as [|h c]; [done|].
  apply ctx_root_black_cons. by apply ctx_root_black_cons in H.
Qed.

(** The loop of [insertFixup], started on a Red node that has a valid
    subtree and sits where a subtree of that height fits, ends with a tree
    in which no Red node has a Red child and all paths count the same
    number of Black nodes; its root may be Red. *)
Lemma insert_fixed_rb c t t' :
  insert_fixed c t t' →
  ∀ n, tree_color t = Red → red_black t n → rb_ctx c n → ctx_root_black c →
       ∃ m, red_black t' m.
Proof.
  induction 1 as
    [t
    |f c t Hf
    |l x kv col r P pkv pr G gkv gc ul u ukv ur c t' _ IH
    |l x kv col r P pkv pr G gkv gc gr c t' Hu _ IH
    |l x kv col r P pkv pr G gkv gc ul u ukv ur c t' _ IH
    |l x kv col r P pkv pr G gkv gc gl c t' Hu _ IH
    |l x kv col r P pkv pl G gkv gc ul u ukv ur c t' _ IH
    |l x kv col r P pkv pl G gkv gc gr c t' Hu _ IH
    |l x kv col r P pkv pl G gkv gc ul u ukv ur c t' _ IH
    |l x kv col r P pkv pl G gkv gc gl c t' Hu _ IH];
    intros n Hred Ht Hc Hrb.
  - by exists n.
  - apply (rb_plug (f :: c) t n); [done|done|by left].
  - destruct Hc as (Hpr & Hprb & Hgb & Hun & Hc). simpl in Hgb. subst gc.
    apply red_black_Red_inv in Hun as (Hul & Hur & _ & _).
    apply (IH (S n)); [done| |done|by eapply ctx_root_black_tail].
    constructor; [by constructor|by constructor|done|done].
  - destruct Hc as (Hpr & Hprb & Hgb & Hun & Hc). simpl in Hgb. subst gc.
    apply (IH n); [done|done| |].
    + split; [by constructor|done].
    + eapply (ctx_root_black_push _ (InL G gkv Black gr)); [done|].
      destruct c; [done|]. by apply ctx_root_black_cons in Hrb.
  - destruct Hc as (Hpr & Hprb & Hgb & Hun & Hc). simpl in Hgb. subst gc.
    apply red_black_Red_inv in Hun as (Hul & Hur & _ & _).
    apply (IH (S n)); [done| |done|by eapply ctx_root_black_tail].
    constructor; [by constructor|by constructor|done|done].
  - destruct Hc as (Hpr & Hprb & Hgb & Hun & Hc). simpl in Hgb. subst gc.
    simpl in Hred. subst col.
    apply red_black_Red_inv in Ht as (Hl & Hr & Hlb & Hrb').
    apply (IH n); [done|by constructor| |].
    + split; [by constructor|done].
    + eapply (ctx_root_black_push _ (InR gl G gkv Black)); [done|].
      destruct c; [done|]. by apply ctx_root_black_cons in Hrb.
  - destruct Hc as (Hpr & Hprb & Hgb & Hun & Hc). simpl in Hgb. subst gc.
    apply red_black_Red_inv in Hun as (Hul & Hur & _ & _).
    apply (IH (S n)); [done| |done|by eapply ctx_root_black_tail].
    constructor; [by constructor|by constructor|done|done].
  - destruct Hc as (Hpr & Hprb & Hgb & Hun & Hc). simpl in Hgb. subst gc.
    simpl in Hred. subst col.
    apply red_black_Red_inv in Ht as (Hl & Hr & Hlb & Hrb').
    apply (IH n); [done|by constructor| |].
    + split; [by constructor|done].
    + eapply (ctx_root_black_push _ (InL G gkv Black gr)); [done|].
      destruct c; [done|]. by apply ctx_root_black_cons in Hrb.
  - destruct Hc as (Hpr & Hprb & Hgb & Hun & Hc). simpl in Hgb. subst gc.
    apply red_black_Red_inv in Hun as (Hul & Hur & _ & _).
    apply (IH (S n)); [done| |done|by eapply ctx_root_black_tail].
    constructor; [by constructor|by constructor|done|done].
  - destruct Hc as (Hpr & Hprb & Hgb & Hun & Hc). simpl in Hgb. subst gc.
    apply (IH n); [done|done| |].
    + split; [by constructor|done].
    + eapply (ctx_root_black_push _ (InR gl G gkv Black)); [done|].
      destruct c; [done|]. by apply ctx_root_black_cons in Hrb.
Qed.

End RedBlack.

(** ** Allocation and the new node *)

Section InsertSpec.
Context {K T Compare : Type} `{!Comparator K Compare} `{!DefaultConstructible T}.
Implicit Types (s : State K T Compare) (t l r m : tree K T) (c : list (frame K T)).

Lemma wf_allocated h par t a : wf h par t → a ∈ addrs t → is_Some (h !! a).
Proof.
  revert par. induction t as [|l IHl x kv col r IHr]; intros par; simpl; [set_solver|].
  intros (Hx & Hl & Hr) [Hin|[->|Hin]%elem_of_cons]%elem_of_app; eauto.
Qed.

Lemma alloc_ok_fresh s t : alloc_ok s → tree_at s t → next s ∉ addrs t.
Proof.
  intros Hok (Hwf & _) Hin. destruct (wf_allocated _ _ _ _ Hwf Hin) as [n Hn].
  rewrite Hok in Hn; [done|lia].
Qed.

Lemma alloc_ok_same s t s' :
  alloc_ok s → tree_at s t → same_outside (addrs t) s s' → alloc_ok s'.
Proof.
  intros Hok Ht (Hn & _ & _ & Hh) a Ha. rewrite Hn in Ha.
  rewrite Hh; [by apply Hok|].
  intros Hin. destruct Ht as (Hwf & _).
  destruct (wf_allocated _ _ _ _ Hwf Hin) as [n Hn']. by rewrite Hok in Hn'.
Qed.

Lemma insertFixup_spec fuel c l x kv col r s :
  StrictWeakOrder (call (compare_ (this s))) →
  tree_at s (plug c (Bin l x kv col r)) →
  bst (call (compare_ (this s))) (plug c (Bin l x kv col r)) →
  ctx_root_black c → length c < fuel →
  ∃ s' t', insertFixup fuel (Some x) s = Ret tt s'
           ∧ reach s (plug c (Bin l x kv col r)) s' t'
           ∧ tree_color t' = Black
           ∧ ∃ t1, insert_fixed c (Bin l x kv col r) t1 ∧ t' = blacken t1.
Proof.
  intros Hswo Ht Hbst Hrb Hfuel. unfold insertFixup.
  destruct (insertFixup_loop_spec fuel c l x kv col r s) as (s1 & t1 & Hs1 & Hr1 & Hfx1); [done..|].
  rewrite (bind_Ret _ _ _ _ _ Hs1).
  pose proof Hr1 as ((_ & Hroot & _) & _ & Ha & _).
  destruct t1 as [|l1 a1 kv1 col1 r1].
  { exfalso. specialize (Ha x). rewrite addrs_plug in Ha. simpl in Ha. set_solver. }
  reads. rewrite Hroot. cbn [root].
  destruct (reach_set_color _ _ _ [] l1 a1 kv1 col1 r1 Black Hr1) as (s2 & Hs2 & Hr2).
  exists s2, (Bin l1 a1 kv1 Black r1). split_and!; [done|done|done|].
  by exists (Bin l1 a1 kv1 col1 r1).
Qed.

(** The in-order sequence stays sorted when an entry is put between the
    entries smaller and the entries greater than it. *)
Lemma sorted_insert_mid {A} (R : relation A) (l1 l2 : list A) (e : A) :
  StronglySorted R (l1 ++ l2) → Forall (λ x, R x e) l1 → Forall (R e) l2 →
  StronglySorted R (l1 ++ e :: l2).
Proof.
  intros (H12 & H1 & H2)%StronglySorted_app Hl1 Hl2.
  apply StronglySorted_app. split_and!; [|done|].
  - intros x1 x2 Hx1 [->|Hx2]%elem_of_cons; [|by apply H12].
    by eapply Forall_forall in Hl1.
  - by apply StronglySorted_cons.
Qed.

Lemma tree_color_plug c t :
  tree_color (plug c t)
  = match last c with Some f => frame_color f | None => tree_color t end.
Proof.
  revert t. induction c as [|f c IH]; intros t; [done|].
  cbn [plug]. rewrite IH. destruct c as [|g c]; [by destruct f|].
  rewrite last_cons_cons. destruct (last (g :: c)) eqn:E; [done|].
  by apply last_None in E.
Qed.

Lemma attach_right s c l x kv col e nx av :
  tree_at s (plug c (Bin l x kv col Leaf)) → heap s !! next s = None →
  tree_at
    (mkState (<[x := detail.mkNode kv col (ctx_par c) (root l) (Some (next s))]>
                (<[next s := detail.mkNode e Red (Some x) None None]> (heap s)))
             nx av (this s))
    (plug c (Bin l x kv col (Bin Leaf (next s) e Red Leaf))).
Proof.
  intros Ht Hfresh. pose proof Ht as (Hctx & Hwf & Hroot & Hnd)%tree_at_plug.
  destruct Hwf as (Hx & Hl & _).
  assert (∀ y, y ∈ addrs (plug c (Bin l x kv col Leaf)) → y ≠ next s) as Hn.
  { intros y Hy ->. destruct Ht as (Hwf & _).
    destruct (wf_allocated _ _ _ _ Hwf Hy) as [? ?]. congruence. }
  rewrite addrs_plug in Hn. simpl in Hn, Hnd.
  assert (x ∉ ctx_addrs c ∧ x ∉ addrs l) as (Hxc & Hxl).
  { unfold ctx_addrs. split; nd Hnd. }
  apply tree_at_plug. cbn [heap this root]. split_and!.
  - eapply wf_ctx_frame; [|done]. intros y Hy.
    rewrite !lookup_insert_ne; [done|..].
    + apply not_eq_sym, Hn. unfold ctx_addrs in Hy. set_solver.
    + by intros ->.
  - simpl. rewrite lookup_insert_eq, lookup_insert_ne, lookup_insert_eq.
    2:{ apply Hn. set_solver. }
    split_and!; try done.
    eapply wf_frame; [|done]. intros y Hy.
    rewrite !lookup_insert_ne; [done|..].
    + apply not_eq_sym, Hn. set_solver.
    + by intros ->.
  - rewrite Hroot, !(root_plug c (Bin _ _ _ _ _)). by destruct c.
  - simpl.
    assert (ctx_before c ++ (addrs l ++ [x; next s]) ++ ctx_after c
            ≡ₚ next s :: ctx_before c ++ (addrs l ++ [x]) ++ ctx_after c) as Hp
      by solve_Permutation.
    rewrite Hp. apply NoDup_cons. split; [|done].
    intros Hin. by apply (Hn _ Hin).
Qed.

Lemma attach_left s c r x kv col e nx av :
  tree_at s (plug c (Bin Leaf x kv col r)) → heap s !! next s = None →
  tree_at
    (mkState (<[x := detail.mkNode kv col (ctx_par c) (Some (next s)) (root r)]>
                (<[next s := detail.mkNode e Red (Some x) None None]> (heap s)))
             nx av (this s))
    (plug c (Bin (Bin Leaf (next s) e Red Leaf) x kv col r)).
Proof.
  intros Ht Hfresh. pose proof Ht as (Hctx & Hwf & Hroot & Hnd)%tree_at_plug.
  destruct Hwf as (Hx & _ & Hr).
  assert (∀ y, y ∈ addrs (plug c (Bin Leaf x kv col r)) → y ≠ next s) as Hn.
  { intros y Hy ->. destruct Ht as (Hwf & _).
    destruct (wf_allocated _ _ _ _ Hwf Hy) as [? ?]. congruence. }
  rewrite addrs_plug in Hn. simpl in Hn, Hnd.
  assert (x ∉ ctx_addrs c ∧ x ∉ addrs r) as (Hxc & Hxl).
  { unfold ctx_addrs. split; nd Hnd. }
  apply tree_at_plug. cbn [heap this root]. split_and!.
  - eapply wf_ctx_frame; [|done]. intros y Hy.
    rewrite !lookup_insert_ne; [done|..].
    + apply not_eq_sym, Hn. unfold ctx_addrs in Hy. set_solver.
    + by intros ->.
  - simpl. rewrite lookup_insert_eq, lookup_insert_ne, lookup_insert_eq.
    2:{ apply Hn. set_solver. }
    split_and!; try done.
    eapply wf_frame; [|done]. intros y Hy.
    rewrite !lookup_insert_ne; [done|..].
    + apply not_eq_sym, Hn. set_solver.
    + by intros ->.
  - rewrite Hroot, !(root_plug c (Bin _ _ _ _ _)). by destruct c.
  - simpl.
    assert (ctx_before c ++ (next s :: x :: addrs r) ++ ctx_after c
            ≡ₚ next s :: ctx_before c ++ (x :: addrs r) ++ ctx_after c) as Hp
      by solve_Permutation.
    rewrite Hp. apply NoDup_cons. split; [|done].
    intros Hin. by apply (Hn _ Hin).
Qed.

Lemma ctx_entries_before_nodes c : ctx_entries_before c = (ctx_nodes_before c).*2.
Proof.
  induction c as [|[a kv col r|l a kv col] c IH]; simpl; [done|done|].
  by rewrite !fmap_app, IH, entries_nodes.
Qed.

Lemma ctx_entries_after_nodes c : ctx_entries_after c = (ctx_nodes_after c).*2.
Proof.
  induction c as [|[a kv col r|l a kv col] c IH]; simpl; [done| |done].
  by rewrite !fmap_app, IH, entries_nodes.
Qed.

(** The keys before the node [findNode] stops at are smaller than the key
    looked for and the keys after it are greater. *)
Lemma search_bounds lt `{!StrictWeakOrder lt} key c l x kv col r last :
  bst lt (plug c (Bin l x kv col r)) → NoDup (addrs (plug c (Bin l x kv col r))) →
  search lt key (plug c (Bin l x kv col r)) last = Some x →
  Forall (λ e, lt e.1 key = true) (ctx_entries_before c ++ entries l)
  ∧ Forall (λ e, lt key e.1 = true) (entries r ++ ctx_entries_after c).
Proof.
  intros Hbst Hnd Hs.
  destruct (search_split lt key (plug c (Bin l x kv col r)) last Hbst)
    as (pre & x' & kv' & post & Hn & Hs' & Hpre & Hpost).
  { clear. revert l x kv col r. induction c as [|f c IH]; intros; [done|].
    destruct f; simpl; apply IH. }
  rewrite Hs in Hs'. injection Hs' as <-.
  rewrite addrs_nodes in Hnd. rewrite Hn in Hnd.
  rewrite nodes_plug in Hn. cbn [nodes] in Hn. rewrite <- app_assoc in Hn. rewrite app_assoc in Hn.
  symmetry in Hn.
  apply (split_unique x kv' kv pre post (ctx_nodes_before c ++ nodes l)
           (nodes r ++ ctx_nodes_after c)) in Hn as (-> & _ & ->); [|done].
  rewrite ctx_entries_before_nodes, ctx_entries_after_nodes, !entries_nodes, <- !fmap_app.
  split; apply Forall_fmap; eapply Forall_impl; eauto.
Qed.

End InsertSpec.

(** ** [insert] *)

Section InsertTotal.
Context {K T Compare : Type} `{!Comparator K Compare} `{!DefaultConstructible T}.
Implicit Types (s : State K T Compare) (t l r m : tree K T) (c : list (frame K T)).

Lemma insert_present s t fuel key v :
  StrictWeakOrder (call (compare_ (this s))) →
  tree_at s t → bst (call (compare_ (this s))) t → size t ≤ fuel →
  present (call (compare_ (this s))) key t →
  insert fuel key v s = Ret false s.
Proof.
  intros Hswo Ht Hbst Hfuel Hp. unfold insert.
  rewrite (bind_Ret _ _ _ _ _ (findNode_wf s t fuel key Ht Hfuel)).
  destruct t as [|tl ta tkv tc tr]. { destruct Hp as (e & He & _). set_solver. }
  set (t := Bin tl ta tkv tc tr) in *.
  destruct (lookup_present _ key t Hbst Hp) as [[a akv] Hl].
  destruct (search_lookup (call (compare_ (this s))) key t None) as (x & kv & Hs & Hin & Hl'); [done|].
  rewrite Hl in Hl'. destruct (equivb _ key kv.1) eqn:Heq; [|done].
  rewrite Hs. destruct Ht as (Hwf & _).
  destruct (wf_node _ _ _ _ _ Hwf Hin) as (n & Hn & <-).
  unfold insertNode. cbn [is_null]. reads. rewrite Heq. by reads.
Qed.

Lemma plug_not_Leaf c l x kv col r : plug c (Bin l x kv col r) ≠ (Leaf : tree K T).
Proof.
  revert l x kv col r. induction c as [|f c IH]; intros; [done|].
  destruct f; simpl; apply IH.
Qed.

(** [insert] of a new key: the entry is added, and a tree that was valid
    is valid again. *)
Lemma insert_absent_rb s t fuel key v :
  StrictWeakOrder (call (compare_ (this s))) →
  tree_at s t → bst (call (compare_ (this s))) t → tree_color t = Black →
  alloc_ok s → avail s ≠ 0 → size t < fuel →
  ¬ present (call (compare_ (this s))) key t →
  ∃ s' t', insert fuel key v s = Ret true s' ∧ inserted s t key v s' t'
           ∧ ∀ n, red_black t n → ∃ h : nat, red_black t' h.
Proof.
  intros Hswo Ht Hbst Hblack Hok Hav Hfuel Hnp. unfold insert.
  rewrite (bind_Ret _ _ _ _ _ (findNode_wf s t fuel key Ht ltac:(lia))).
  destruct (avail s) as [|k] eqn:Hk; [done|]. clear Hav.
  assert (heap s !! next s = None) as Hfresh by (apply Hok; lia).
  destruct t as [|tl ta tkv tc tr].
  { (* the tree is empty: the new node is the root *)
    cbn [search insertNode is_null]. exec. eexists _, (Bin Leaf (next s) (key, v) Black Leaf).
    split; [reflexivity|]. split; [|intros _ _; exists 2; repeat constructor].
    unfold inserted. cbn [heap next avail this compare_ root_].
    split_and!; try done.
    - split_and!; [|done|apply NoDup_singleton]. simpl. by rewrite lookup_insert_eq.
    - unfold bst. simpl. apply StronglySorted_cons. split; [done|constructor].
    - intros a Ha. cbn [next heap] in *. rewrite lookup_insert_ne by lia. apply Hok. lia.
    - intros a. simpl. set_solver.
    - intros a _ Ha. by rewrite lookup_insert_ne. }
  set (t := Bin tl ta tkv tc tr) in *.
  destruct (search_ctx (call (compare_ (this s))) key t None)
    as (c & l & x & kv & col & r & Heq & Hs & Hshape); [done|].
  rewrite Hs. clearbody t. subst t.
  pose proof Ht as (Hctx & (Hx & Hl & Hr) & Hroot & Hnd)%tree_at_plug.
  assert (equivb (call (compare_ (this s))) key kv.1 = false) as Hne.
  { destruct (equivb _ key kv.1) eqn:E; [|done]. destruct Hnp.
    exists kv. split; [|done]. rewrite entries_plug. simpl. set_solver. }
  rewrite Hne in Hshape.
  destruct (search_bounds _ key c l x kv col r None Hbst) as (Hlo & Hhi); [apply Ht|done|].
  assert (x ≠ next s) as Hxn by congruence.
  assert (x < next s)%positive as Hxlt.
  { destruct (decide (next s ≤ x)%positive) as [Hle|]; [|lia]. apply Hok in Hle. congruence. }
  unfold insertNode. cbn [is_null]. reads. rewrite Hne. exec.
  assert (ctx_root_black c ∧ S (length c) < fuel ∧
          (c = [] → col = Black)) as (Hrb & Hlen & Hcol).
  { rewrite tree_color_plug in Hblack. unfold ctx_root_black.
    pose proof (size_plug c (Bin l x kv col r)) as Hsz. simpl in Hsz.
    split_and!; [by destruct (last c)|lia|by intros ->]. }
  destruct (call (compare_ (this s)) key kv.1) eqn:Hlt.
  - (* the key is smaller: the new node becomes the left child *)
    subst l.
    rewrite (swo_asym _ _ _ Hlt). exec.
    pose proof (attach_left s c r x kv col (key, v) (Pos.succ (next s)) k Ht Hfresh) as Ht2.
    set (s2 := mkState _ _ _ _) in *.
    set (t2 := plug c (Bin (Bin Leaf (next s) (key, v) Red Leaf) x kv col r)) in *.
    assert (entries t2 = (ctx_entries_before c ++ []) ++ (key, v) :: kv :: entries r ++ ctx_entries_after c) as He2.
    { unfold t2. rewrite entries_plug. simpl. by rewrite app_nil_r. }
    assert (bst (call (compare_ (this s2))) t2) as Hbst2.
    { unfold bst. rewrite He2. apply sorted_insert_mid.
      - unfold bst in Hbst. rewrite entries_plug in Hbst. simpl in Hbst. by rewrite app_nil_r.
      - done.
      - apply Forall_cons. split; [done|]. done. }
    assert (ctx_root_black (InL x kv col r :: c)) as Hrb2.
    { destruct c; [|by apply ctx_root_black_cons]. unfold ctx_root_black. simpl. auto. }
    destruct (insertFixup_spec fuel (InL x kv col r :: c) Leaf (next s) (key, v) Red Leaf s2)
      as (s3 & t3 & Hs3 & Hr3 & Hb3 & t1 & Hfx & Ht1); [done|done|done|done|simpl; lia|].
    rewrite (bind_Ret _ _ _ _ _ Hs3). reads.
    exists s3, t3. split; [done|]. split; [|
      intros n Hn;
      destruct (rb_unplug (InL x kv col r :: c) Leaf n Hn) as (n0 & Hleaf & Hc0 & _);
      apply red_black_Leaf_inv in Hleaf; subst n0;
      destruct (insert_fixed_rb _ _ _ Hfx 1) as (m1 & Hm1);
        [done|by repeat constructor|done|done|];
      subst t3; by eapply red_black_blacken].
    destruct Hr3 as (Ht3 & He3 & Ha3 & (Hn3 & Hav3 & Hc3 & Hh3)).
    change (entries t3 = entries t2) in He3.
    change (∀ y, y ∈ addrs t3 ↔ y ∈ addrs t2) in Ha3.
    change (∀ y, y ∉ addrs t2 → heap s3 !! y = heap s2 !! y) in Hh3.
    assert (∀ a, a ∈ addrs t2 ↔ a = next s ∨ a ∈ addrs (plug c (Bin Leaf x kv col r))) as Ha2.
    { intros a. unfold t2. rewrite !addrs_plug. simpl. set_solver. }
    unfold inserted. split_and!; try done.
    + unfold bst. rewrite He3, Hc3. done.
    + eapply alloc_ok_same; [|exact Ht2|by split_and!].
      intros a Ha. unfold s2 in *. cbn [next heap] in *.
      rewrite !lookup_insert_ne by lia. apply Hok. lia.
    + by rewrite Hav3.
    + rewrite He3, He2, entries_plug. simpl. solve_Permutation.
    + intros a. by rewrite Ha3, Ha2.
    + intros a Ha Han. rewrite Hh3 by (rewrite Ha2; tauto).
      unfold s2. cbn [heap]. rewrite !lookup_insert_ne; [done|done|].
      intros ->. apply Ha. rewrite addrs_plug. simpl. set_solver.
  - (* the key is greater: the new node becomes the right child *)
    subst r.
    assert (call (compare_ (this s)) kv.1 key = true) as Hgt.
    { apply not_true_iff_false in Hne. rewrite equivb_true in Hne. destruct (call _ kv.1 key); [done|]. by destruct Hne. }
    rewrite Hgt. exec.
    pose proof (attach_right s c l x kv col (key, v) (Pos.succ (next s)) k Ht Hfresh) as Ht2.
    set (s2 := mkState _ _ _ _) in *.
    set (t2 := plug c (Bin l x kv col (Bin Leaf (next s) (key, v) Red Leaf))) in *.
    assert (entries t2 = (ctx_entries_before c ++ entries l ++ [kv]) ++ (key, v) :: [] ++ ctx_entries_after c) as He2.
    { unfold t2. rewrite entries_plug. simpl. by rewrite <- !app_assoc. }
    assert (bst (call (compare_ (this s2))) t2) as Hbst2.
    { unfold bst. rewrite He2. apply sorted_insert_mid.
      - unfold bst in Hbst. rewrite entries_plug in Hbst. simpl in Hbst.
        rewrite <- !app_assoc in Hbst. simpl. by rewrite <- !app_assoc.
      - rewrite app_assoc. apply Forall_app. split; [done|]. by apply Forall_singleton.
      - done. }
    assert (ctx_root_black (InR l x kv col :: c)) as Hrb2.
    { destruct c; [|by apply ctx_root_black_cons]. unfold ctx_root_black. simpl. auto. }
    destruct (insertFixup_spec fuel (InR l x kv col :: c) Leaf (next s) (key, v) Red Leaf s2)
      as (s3 & t3 & Hs3 & Hr3 & Hb3 & t1 & Hfx & Ht1); [done|done|done|done|simpl; lia|].
    rewrite (bind_Ret _ _ _ _ _ Hs3). reads.
    exists s3, t3. split; [done|]. split; [|
      intros n Hn;
      destruct (rb_unplug (InR l x kv col :: c) Leaf n Hn) as (n0 & Hleaf & Hc0 & _);
      apply red_black_Leaf_inv in Hleaf; subst n0;
      destruct (insert_fixed_rb _ _ _ Hfx 1) as (m1 & Hm1);
        [done|by repeat constructor|done|done|];
      subst t3; by eapply red_black_blacken].
    destruct Hr3 as (Ht3 & He3 & Ha3 & (Hn3 & Hav3 & Hc3 & Hh3)).
    change (entries t3 = entries t2) in He3.
    change (∀ y, y ∈ addrs t3 ↔ y ∈ addrs t2) in Ha3.
    change (∀ y, y ∉ addrs t2 → heap s3 !! y = heap s2 !! y) in Hh3.
    assert (∀ a, a ∈ addrs t2 ↔ a = next s ∨ a ∈ addrs (plug c (Bin l x kv col Leaf))) as Ha2.
    { intros a. unfold t2. rewrite !addrs_plug. simpl. set_solver. }
    unfold inserted. split_and!; try done.
    + unfold bst. rewrite He3, Hc3. done.
    + eapply alloc_ok_same; [|exact Ht2|by split_and!].
      intros a Ha. unfold s2 in *. cbn [next heap] in *.
      rewrite !lookup_insert_ne by lia. apply Hok. lia.
    + by rewrite Hav3.
    + rewrite He3, He2, entries_plug. simpl. solve_Permutation.
    + intros a. by rewrite Ha3, Ha2.
    + intros a Ha Han. rewrite Hh3 by (rewrite Ha2; tauto).
      unfold s2. cbn [heap]. rewrite !lookup_insert_ne; [done|done|].
      intros ->. apply Ha. rewrite addrs_plug. simpl. set_solver.
Qed.

Lemma insert_absent s t fuel key v :
  StrictWeakOrder (call (compare_ (this s))) →
  tree_at s t → bst (call (compare_ (this s))) t → tree_color t = Black →
  alloc_ok s → avail s ≠ 0 → size t < fuel →
  ¬ present (call (compare_ (this s))) key t →
  ∃ s' t', insert fuel key v s = Ret true s' ∧ inserted s t key v s' t'.
Proof.
  intros Hswo Ht Hbst Hblack Hok Hav Hfuel Hnp.
  destruct (insert_absent_rb s t fuel key v Hswo Ht Hbst Hblack Hok Hav Hfuel Hnp)
    as (s' & t' & Hrun & Hi & _).
  by exists s', t'.
Qed.

End InsertTotal.

(** ** The fix-up after a removal *)

Section Partial.
Context {K T Compare : Type} `{!Comparator K Compare} `{!DefaultConstructible T}.
Implicit Types (s : State K T Compare) (t l r m : tree K T) (c : list (frame K T)).

Lemma bind_Ret_inv {A B} (m : M K T Compare A) (k : A → M K T Compare B) s b s' :
  bind m k s = Ret b s' → ∃ a s1, m s = Ret a s1 ∧ k a s1 = Ret b s'.
Proof. unfold bind. destruct (m s) as [a s1| | |]; [eauto|done..]. Qed.

Lemma ret_inv {A} (a b : A) s s' : ret a s = (Ret b s' : Res K T Compare A) → b = a ∧ s' = s.
Proof. unfold ret. by intros [= -> ->]. Qed.

Lemma ctx_par_in c t : ∀ a, ctx_par c = Some a → a ∈ addrs (plug c t).
Proof.
  intros a. rewrite addrs_plug. destruct c as [|[]]; simpl; [done|..]; intros [= ->]; set_solver.
Qed.

Lemma root_in t a : root t = Some a → a ∈ addrs t.
Proof. destruct t; [done|]. simpl. intros [= ->]. set_solver. Qed.

Context (s0 : State K T Compare) (t0 : tree K T).
Context (Hswo0 : StrictWeakOrder (call (compare_ (this s0)))).
Context (Hbst0 : bst (call (compare_ (this s0))) t0).

Lemma ok_focus s a :
  ok s0 t0 s → a ∈ addrs t0 →
  ∃ c l kv col r, reach s0 t0 s (plug c (Bin l a kv col r)).
Proof.
  intros (t & Hr) Ha. pose proof Hr as (_ & _ & Hat & _).
  apply Hat in Ha. destruct (in_addrs_plug t a Ha) as (c & l & kv & col & r & ->).
  eauto 10.
Qed.

Lemma load_ok s q n s' :
  ok s0 t0 s → inT t0 q → load q s = Ret n s' →
  s' = s ∧ inT t0 (detail.p n) ∧ inT t0 (detail.left n) ∧ inT t0 (detail.right n).
Proof.
  intros Hok Hq Hload. destruct q as [a|]; [|done].
  destruct (ok_focus s a Hok Hq) as (c & l & kv & col & r & Hr).
  pose proof Hr as (Ht & _ & Hat & _).
  apply tree_at_plug in Ht as (_ & (Ha & _) & _ & _).
  rewrite (load_Some _ _ _ Ha) in Hload. injection Hload as <- <-.
  split; [done|]. unfold inT. simpl. split_and!.
  - destruct (ctx_par c) as [pa|] eqn:E; [|done]. apply Hat. by apply ctx_par_in.
  - destruct (root l) as [la|] eqn:E; [|done]. apply Hat.
    rewrite addrs_plug. simpl. apply root_in in E. set_solver.
  - destruct (root r) as [ra|] eqn:E; [|done]. apply Hat.
    rewrite addrs_plug. simpl. apply root_in in E. set_solver.
Qed.

Lemma get_p_ok s q v s' : ok s0 t0 s → inT t0 q → get_p q s = Ret v s' → s' = s ∧ inT t0 v.
Proof.
  intros Hok Hq (n & s1 & Hl & [-> ->]%ret_inv)%bind_Ret_inv.
  destruct (load_ok _ _ _ _ Hok Hq Hl) as (-> & ? & ? & ?). done.
Qed.

Lemma get_left_ok s q v s' : ok s0 t0 s → inT t0 q → get_left q s = Ret v s' → s' = s ∧ inT t0 v.
Proof.
  intros Hok Hq (n & s1 & Hl & [-> ->]%ret_inv)%bind_Ret_inv.
  destruct (load_ok _ _ _ _ Hok Hq Hl) as (-> & ? & ? & ?). done.
Qed.

Lemma get_right_ok s q v s' : ok s0 t0 s → inT t0 q → get_right q s = Ret v s' → s' = s ∧ inT t0 v.
Proof.
  intros Hok Hq (n & s1 & Hl & [-> ->]%ret_inv)%bind_Ret_inv.
  destruct (load_ok _ _ _ _ Hok Hq Hl) as (-> & ? & ? & ?). done.
Qed.

Lemma get_child_ok s q b v s' :
  ok s0 t0 s → inT t0 q → get_child q b s = Ret v s' → s' = s ∧ inT t0 v.
Proof.
  intros Hok Hq (n & s1 & Hl & [-> ->]%ret_inv)%bind_Ret_inv.
  destruct (load_ok _ _ _ _ Hok Hq Hl) as (-> & ? & ? & ?). by destruct b.
Qed.

Lemma get_color_ok s q v s' : ok s0 t0 s → inT t0 q → get_color q s = Ret v s' → s' = s.
Proof.
  intros Hok Hq (n & s1 & Hl & [-> ->]%ret_inv)%bind_Ret_inv.
  by destruct (load_ok _ _ _ _ Hok Hq Hl) as (-> & ? & ? & ?).
Qed.

Lemma colorOf_ok s q v s' : ok s0 t0 s → inT t0 q → colorOf q s = Ret v s' → s' = s.
Proof.
  intros Hok Hq. destruct q as [a|]; [apply get_color_ok; done|].
  by intros [_ ->]%ret_inv.
Qed.

Lemma get_root_ok s v s' : ok s0 t0 s → get_root s = Ret v s' → s' = s ∧ inT t0 v.
Proof.
  intros (t & (Ht & _ & Hat & _)) [= <- <-]. split; [done|].
  destruct Ht as (_ & -> & _). unfold inT.
  destruct (root t) as [a|] eqn:E; [|done]. by apply Hat, root_in.
Qed.

Lemma assert_ok b s s' : assert b s = (Ret tt s' : Res K T Compare unit) → s' = s ∧ b = true.
Proof. destruct b; [|done]. by intros [= <-]. Qed.

Lemma set_color_ok s q col s' :
  ok s0 t0 s → inT t0 q → set_color q col s = Ret tt s' → ok s0 t0 s'.
Proof.
  intros Hok Hq Hs. destruct q as [a|]; [|by cbv in Hs].
  destruct (ok_focus s a Hok Hq) as (c & l & kv & col0 & r & Hr).
  destruct (reach_set_color _ _ _ _ _ _ _ _ _ col Hr) as (s'' & Hs'' & Hr').
  rewrite Hs in Hs''. injection Hs'' as <-. by eexists.
Qed.

Lemma rotate_ok s q d s' :
  ok s0 t0 s → inT t0 q → rotate q d s = Ret tt s' → ok s0 t0 s'.
Proof using Hswo0 Hbst0.
  intros Hok Hq Hs. destruct q as [a|]; [|by destruct d; cbv in Hs].
  destruct (ok_focus s a Hok Hq) as (c & l & kv & col0 & r & Hr).
  pose proof Hr as (Ht & _).
  apply tree_at_plug in Ht as (_ & (Ha & _) & _ & _).
  destruct d; cbn [rotate] in Hs.
  - destruct r as [|rl rb rkv rc rr].
    { unfold rotateLeft in Hs. rewrite (bind_Ret _ _ _ _ _ (get_right_Some _ _ _ Ha)) in Hs. done. }
    destruct (reach_rotateLeft _ _ _ _ _ _ _ _ _ _ _ _ _ Hswo0 Hbst0 Hr) as (s'' & Hs'' & Hr').
    rewrite Hs in Hs''. injection Hs'' as <-. by eexists.
  - destruct l as [|ll lb lkv lc lr].
    { unfold rotateRight in Hs. rewrite (bind_Ret _ _ _ _ _ (get_left_Some _ _ _ Ha)) in Hs. done. }
    destruct (reach_rotateRight _ _ _ _ _ _ _ _ _ _ _ _ _ Hswo0 Hbst0 Hr) as (s'' & Hs'' & Hr').
    rewrite Hs in Hs''. injection Hs'' as <-. by eexists.
Qed.

Lemma inT_None : inT t0 None.
Proof. done. Qed.

End Partial.

(** Follows a run that has returned through one more call. *)
Ltac follow_call Hm :=
  first
    [ eapply get_p_ok in Hm as [-> ?]; [|eassumption..]
    | eapply get_left_ok in Hm as [-> ?]; [|eassumption..]
    | eapply get_right_ok in Hm as [-> ?]; [|eassumption..]
    | eapply get_child_ok in Hm as [-> ?]; [|eassumption..]
    | eapply colorOf_ok in Hm as ->; [|eassumption..]
    | eapply get_color_ok in Hm as ->; [|eassumption..]
    | eapply get_root_ok in Hm as [-> ?]; [|eassumption..]
    | apply assert_ok in Hm as [-> ?]
    | eapply set_color_ok in Hm; [|eassumption..]
    | eapply rotate_ok in Hm; [|eassumption..]
    | apply ret_inv in Hm as [-> ->] ].

Ltac follow H :=
  cbv beta in H;
  lazymatch type of H with
  | bind (bind _ _) _ _ = Ret _ _ => rewrite bind_assoc in H
  | bind (if ?b then _ else _) _ _ = Ret _ _ => destruct b eqn:?
  | bind (match ?c with Red => _ | Black => _ end) _ _ = Ret _ _ => destruct c eqn:?
  | bind _ _ _ = Ret _ _ =>
      let v := fresh "v" in let sm := fresh "sm" in let Hm := fresh "Hm" in
      apply bind_Ret_inv in H as (v & sm & Hm & H);
      lazymatch type of v with unit => destruct v | _ => idtac end;
      follow_call Hm
  | (if ?b then _ else _) _ = Ret _ _ => destruct b eqn:?
  | (match ?c with Red => _ | Black => _ end) _ = Ret _ _ => destruct c eqn:?
  end.

Section EraseFixup.
Context {K T Compare : Type} `{!Comparator K Compare} `{!DefaultConstructible T}.
Implicit Types (s : State K T Compare) (t l r m : tree K T) (c : list (frame K T)).
Context (s0 : State K T Compare) (t0 : tree K T).
Context (Hswo0 : StrictWeakOrder (call (compare_ (this s0)))).
Context (Hbst0 : bst (call (compare_ (this s0))) t0).

Lemma eraseFixup_loop_ok fuel : ∀ target b child brother s res s',
  ok s0 t0 s → inT t0 target → inT t0 child → inT t0 brother →
  eraseFixup_loop fuel target b child brother s = Ret res s' →
  ok s0 t0 s' ∧ inT t0 res.1.
Proof using Hswo0 Hbst0.
  induction fuel as [|fuel IH]; intros target b child brother s res s' Hok Ht Hc Hb H; [done|].
  cbn [eraseFixup_loop] in H.
  destruct (is_null target) eqn:Hnull.
  { apply ret_inv in H as [-> ->]. done. }
  repeat follow H.
  all: try (apply ret_inv in H as [-> ->]; done).
  all: try (eapply IH in H; [exact H|first [eassumption|done]..]).
Qed.

Lemma eraseFixup_ok fuel target b s s' :
  ok s0 t0 s → inT t0 target →
  eraseFixup fuel target b s = Ret tt s' → ok s0 t0 s'.
Proof using Hswo0 Hbst0.
  intros Hok Ht H. unfold eraseFixup in H.
  repeat follow H.
  apply bind_Ret_inv in H as ([target' b'] & sm & Hm & H).
  apply eraseFixup_loop_ok in Hm as [Hok' Ht']; [|done..]. simpl in Ht'.
  repeat follow H.
  all: try (apply ret_inv in H as [_ ->]; done).
  all: try (eapply set_color_ok in H; [exact H|eassumption..]).
Qed.

End EraseFixup.

(** ** Removal of a node with at most one child *)

Section Surgery.
Context {K T Compare : Type} `{!Comparator K Compare} `{!DefaultConstructible T}.
Implicit Types (s : State K T Compare) (t l r m : tree K T) (c : list (frame K T)).

Lemma delete_node_Some s a n :
  heap s !! a = Some n →
  delete_node (Some a) s = Ret tt (set_heap (delete a (heap s)) s).
Proof. unfold delete_node. by intros ->. Qed.

Lemma isLeftBroken_runs s c l x kv col r :
  tree_at s (plug c (Bin l x kv col r)) →
  ∃ b, (if ptr_eqb (Some x) (root_ (this s)) then ret true
        else let* tp := get_p (Some x) in
             let* tpl := get_left tp in
             ret (ptr_eqb (Some x) tpl)) s = Ret b s.
Proof.
  intros (Hctx & (Hx & _) & Hroot & Hnd)%tree_at_plug.
  destruct (ptr_eqb _ _) eqn:E; [by eexists|].
  destruct c as [|f c].
  { simpl in Hroot. rewrite Hroot, ptr_eqb_refl in E. done. }
  reads. destruct f; destruct Hctx as (Hp & _); reads; by eexists.
Qed.

Lemma wf_delete h par t x :
  x ∉ addrs t → wf h par t → wf (delete x h) par t.
Proof.
  intros Hx. apply wf_frame. intros a Ha. rewrite lookup_delete_ne; [done|].
  by intros ->.
Qed.

Lemma wf_ctx_delete h c q x :
  x ∉ ctx_addrs c → wf_ctx h c q → wf_ctx (delete x h) c q.
Proof.
  intros Hx. apply wf_ctx_frame. intros a Ha. rewrite lookup_delete_ne; [done|].
  by intros ->.
Qed.

(** A node without children is unhooked from its parent. *)
Lemma erase_leaf s c x kv col fuel :
  StrictWeakOrder (call (compare_ (this s))) →
  tree_at s (plug c (Bin Leaf x kv col Leaf)) →
  bst (call (compare_ (this s))) (plug c (Bin Leaf x kv col Leaf)) →
  ∃ s1 ilb,
    eraseNode fuel (Some x) s
    = (match col with Black => eraseFixup fuel (ctx_par c) ilb | Red => ret tt end) s1
    ∧ removed s (plug c (Bin Leaf x kv col Leaf)) x s1 (plug c Leaf).
Proof.
  intros Hswo Ht Hbst.
  pose proof Ht as (Hctx & (Hx & _) & Hroot & Hnd)%tree_at_plug.
  destruct (isLeftBroken_runs _ _ _ _ _ _ _ Ht) as (ilb & Hilb).
  assert (x ∉ ctx_addrs c) as Hxc by (unfold ctx_addrs; simpl in Hnd; nd Hnd).
  assert (NoDup (ctx_addrs c)) as Hndc by (unfold ctx_addrs; simpl in Hnd; nd Hnd).
  pose proof (relink_same c None s) as (Hnext & Havail & Hcmp & Hsame).
  pose proof (relink_root c None s _ Hroot) as Hroot1.
  pose proof (wf_ctx_relink s c _ None Hndc Hctx) as Hctx1.
  pose proof Hx as Hx1. rewrite <- Hsame in Hx1 by done.
  eexists _, ilb. split.
  { unfold eraseNode. cbn [is_null negb]. reads.
    rewrite (bind_Ret _ _ _ _ _ Hilb). reads. cbn [Nat.b2n Nat.add].
    rewrite bind_assoc.
    rewrite (bind_Ret _ _ _ _ _ (updateParentNode_spec s c Leaf x kv col Leaf None Hswo Hctx Hx Hbst)).
    reads. rewrite (bind_Ret _ _ _ _ _ (delete_node_Some _ _ _ Hx1)). reflexivity. }
  unfold removed. cbn [heap set_heap next avail this].
  split_and!; try done.
  - apply tree_at_plug. cbn [heap set_heap this root]. split_and!.
    + by apply wf_ctx_delete.
    + done.
    + rewrite Hroot1, (root_plug c Leaf). by destruct c.
    + simpl in *. nd Hnd.
  - intros a. rewrite !addrs_plug. simpl. intros Ha. split; [set_solver|].
    intros ->. apply Hxc. unfold ctx_addrs. set_solver.
  - by rewrite lookup_delete_eq.
  - intros a Ha. rewrite addrs_plug in Ha. simpl in Ha.
    rewrite lookup_delete_ne by set_solver. apply Hsame. unfold ctx_addrs. set_solver.
Qed.

(** A node with one child is replaced by that child. *)
Lemma erase_one_left s c ll la lkv lc lr x kv col fuel :
  StrictWeakOrder (call (compare_ (this s))) →
  tree_at s (plug c (Bin (Bin ll la lkv lc lr) x kv col Leaf)) →
  bst (call (compare_ (this s))) (plug c (Bin (Bin ll la lkv lc lr) x kv col Leaf)) →
  ∃ s1 ilb,
    eraseNode fuel (Some x) s
    = (match col with Black => eraseFixup fuel (ctx_par c) ilb | Red => ret tt end) s1
    ∧ removed s (plug c (Bin (Bin ll la lkv lc lr) x kv col Leaf)) x s1
        (plug c (Bin ll la lkv lc lr)).
Proof.
  intros Hswo Ht Hbst.
  pose proof Ht as (Hctx & (Hx & (Hla & Hll & Hlr) & _) & Hroot & Hnd)%tree_at_plug.
  destruct (isLeftBroken_runs _ _ _ _ _ _ _ Ht) as (ilb & Hilb).
  simpl in Hnd.
  assert (x ∉ ctx_addrs c ∧ la ∉ ctx_addrs c ∧ x ≠ la ∧ x ∉ addrs ll ∧ x ∉ addrs lr
          ∧ la ∉ addrs ll ∧ la ∉ addrs lr)
    as (Hxc & Hlac & Hxla & Hxll & Hxlr & Hlall & Hlalr)
    by (unfold ctx_addrs; split_and!; nd Hnd).
  assert (NoDup (ctx_addrs c)) as Hndc by (unfold ctx_addrs; nd Hnd).
  assert (∀ a, a ∈ addrs ll ++ addrs lr → a ∉ ctx_addrs c ∧ a ≠ x ∧ a ≠ la) as Hsub.
  { intros a Ha. pose proof Hnd as (_ & Hndt & Hdisj)%NoDup_around.
    split; [apply Hdisj; set_solver|].
    apply NoDup_app in Hndt as (Hndt & Hx2 & _).
    apply NoDup_app in Hndt as (_ & Hll2 & Hndt). apply NoDup_cons in Hndt as (Hla2 & _).
    split; intros ->; set_solver. }
  set (s' := mkState (<[la := detail.mkNode lkv lc (ctx_par c) (root ll) (root lr)]> (heap s))
                     (next s) (avail s) (this s)).
  assert (wf_ctx (heap s') c (Some x)) as Hctx'.
  { eapply wf_ctx_frame; [|exact Hctx]. intros a Ha. unfold s'. cbn [heap set_heap].
    rewrite lookup_insert_ne; [done|]. by intros ->. }
  assert (heap s' !! x = Some (detail.mkNode kv col (ctx_par c) (Some la) None)) as Hx'.
  { unfold s'. cbn [heap set_heap]. by rewrite lookup_insert_ne. }
  pose proof (relink_same c (Some la) s') as (Hnext & Havail & Hcmp & Hsame).
  pose proof (relink_root c (Some la) s' (Bin (Bin ll la lkv lc lr) x kv col Leaf) Hroot) as Hroot1.
  pose proof (wf_ctx_relink s' c _ (Some la) Hndc Hctx') as Hctx1.
  pose proof Hx' as Hx1. rewrite <- Hsame in Hx1 by done.
  eexists _, ilb. split.
  { unfold eraseNode. cbn [is_null negb]. reads.
    rewrite (bind_Ret _ _ _ _ _ Hilb). reads. cbn [Nat.b2n Nat.add]. exec.
    change (mkState _ _ _ _) with s'.
    rewrite (bind_Ret _ _ _ _ _ (updateParentNode_spec s' c (Bin ll la lkv lc lr) x kv col Leaf
                                  (Some la) Hswo Hctx' Hx' Hbst)).
    reads. rewrite (bind_Ret _ _ _ _ _ (delete_node_Some _ _ _ Hx1)). reflexivity. }
  unfold removed. cbn [heap set_heap next avail this].
  split_and!; try done.
  - apply tree_at_plug. cbn [heap set_heap this root]. split_and!.
    + by apply wf_ctx_delete.
    + simpl. rewrite lookup_delete_ne, Hsame by done. unfold s'. cbn [heap set_heap].
      rewrite lookup_insert_eq. split_and!; [done|..].
      * apply wf_delete; [done|]. eapply wf_frame; [|exact Hll]. intros a Ha.
        destruct (Hsub a) as (? & ? & ?); [set_solver|].
        rewrite Hsame by done.
        unfold s'. cbn [heap set_heap]. by rewrite lookup_insert_ne.
      * apply wf_delete; [done|]. eapply wf_frame; [|exact Hlr]. intros a Ha.
        destruct (Hsub a) as (? & ? & ?); [set_solver|].
        rewrite Hsame by done.
        unfold s'. cbn [heap set_heap]. by rewrite lookup_insert_ne.
    + rewrite Hroot1, (root_plug c (Bin _ _ _ _ _)). by destruct c.
    + nd Hnd.
  - intros a. rewrite !addrs_plug. simpl. intros Ha. split; [set_solver|].
    intros ->. revert Ha. rewrite !elem_of_app, elem_of_cons.
    unfold ctx_addrs in Hxc. set_solver.
  - by rewrite lookup_delete_eq.
  - intros a Ha. rewrite addrs_plug in Ha. simpl in Ha.
    rewrite lookup_delete_ne by set_solver. rewrite Hsame by (unfold ctx_addrs; set_solver).
    unfold s'. cbn [heap set_heap]. rewrite lookup_insert_ne; [done|]. set_solver.
Qed.

Lemma erase_one_right s c ll la lkv lc lr x kv col fuel :
  StrictWeakOrder (call (compare_ (this s))) →
  tree_at s (plug c (Bin Leaf x kv col (Bin ll la lkv lc lr))) →
  bst (call (compare_ (this s))) (plug c (Bin Leaf x kv col (Bin ll la lkv lc lr))) →
  ∃ s1 ilb,
    eraseNode fuel (Some x) s
    = (match col with Black => eraseFixup fuel (ctx_par c) ilb | Red => ret tt end) s1
    ∧ removed s (plug c (Bin Leaf x kv col (Bin ll la lkv lc lr))) x s1
        (plug c (Bin ll la lkv lc lr)).
Proof.
  intros Hswo Ht Hbst.
  pose proof Ht as (Hctx & (Hx & _ & (Hla & Hll & Hlr)) & Hroot & Hnd)%tree_at_plug.
  destruct (isLeftBroken_runs _ _ _ _ _ _ _ Ht) as (ilb & Hilb).
  pose proof Hnd as (_ & Hndt0 & Hdisj0)%NoDup_around.
  simpl in Hnd, Hndt0, Hdisj0.
  assert (x ∉ ctx_addrs c ∧ la ∉ ctx_addrs c ∧ x ≠ la ∧ x ∉ addrs ll ∧ x ∉ addrs lr
          ∧ la ∉ addrs ll ∧ la ∉ addrs lr)
    as (Hxc & Hlac & Hxla & Hxll & Hxlr & Hlall & Hlalr)
    by (unfold ctx_addrs; split_and!; nd Hnd).
  assert (NoDup (ctx_addrs c)) as Hndc by (unfold ctx_addrs; nd Hnd).
  assert (∀ a, a ∈ addrs ll ++ addrs lr → a ∉ ctx_addrs c ∧ a ≠ x ∧ a ≠ la) as Hsub.
  { intros a Ha. pose proof Hndt0 as Hndt.
    split; [apply Hdisj0; set_solver|].
    apply NoDup_cons in Hndt as (Hx2 & Hndt).
    apply NoDup_app in Hndt as (_ & Hll2 & Hndt). apply NoDup_cons in Hndt as (Hla2 & _).
    split; intros ->; set_solver. }
  set (s' := mkState (<[la := detail.mkNode lkv lc (ctx_par c) (root ll) (root lr)]> (heap s))
                     (next s) (avail s) (this s)).
  assert (wf_ctx (heap s') c (Some x)) as Hctx'.
  { eapply wf_ctx_frame; [|exact Hctx]. intros a Ha. unfold s'. cbn [heap set_heap].
    rewrite lookup_insert_ne; [done|]. by intros ->. }
  assert (heap s' !! x = Some (detail.mkNode kv col (ctx_par c) None (Some la))) as Hx'.
  { unfold s'. cbn [heap set_heap]. by rewrite lookup_insert_ne. }
  pose proof (relink_same c (Some la) s') as (Hnext & Havail & Hcmp & Hsame).
  pose proof (relink_root c (Some la) s' (Bin Leaf x kv col (Bin ll la lkv lc lr)) Hroot) as Hroot1.
  pose proof (wf_ctx_relink s' c _ (Some la) Hndc Hctx') as Hctx1.
  pose proof Hx' as Hx1. rewrite <- Hsame in Hx1 by done.
  eexists _, ilb. split.
  { unfold eraseNode. cbn [is_null negb]. reads.
    rewrite (bind_Ret _ _ _ _ _ Hilb). reads. cbn [Nat.b2n Nat.add]. exec.
    change (mkState _ _ _ _) with s'.
    rewrite (bind_Ret _ _ _ _ _ (updateParentNode_spec s' c Leaf x kv col (Bin ll la lkv lc lr)
                                  (Some la) Hswo Hctx' Hx' Hbst)).
    reads. rewrite (bind_Ret _ _ _ _ _ (delete_node_Some _ _ _ Hx1)). reflexivity. }
  unfold removed. cbn [heap set_heap next avail this].
  split_and!; try done.
  - apply tree_at_plug. cbn [heap set_heap this root]. split_and!.
    + by apply wf_ctx_delete.
    + simpl. rewrite lookup_delete_ne, Hsame by done. unfold s'. cbn [heap set_heap].
      rewrite lookup_insert_eq. split_and!; [done|..].
      * apply wf_delete; [done|]. eapply wf_frame; [|exact Hll]. intros a Ha.
        destruct (Hsub a) as (? & ? & ?); [set_solver|].
        rewrite Hsame by done.
        unfold s'. cbn [heap set_heap]. by rewrite lookup_insert_ne.
      * apply wf_delete; [done|]. eapply wf_frame; [|exact Hlr]. intros a Ha.
        destruct (Hsub a) as (? & ? & ?); [set_solver|].
        rewrite Hsame by done.
        unfold s'. cbn [heap set_heap]. by rewrite lookup_insert_ne.
    + rewrite Hroot1, (root_plug c (Bin _ _ _ _ _)). by destruct c.
    + nd Hnd.
  - intros a. rewrite !addrs_plug. simpl. intros Ha. split; [set_solver|].
    intros ->. revert Ha. rewrite !elem_of_app, elem_of_cons.
    unfold ctx_addrs in Hxc. set_solver.
  - by rewrite lookup_delete_eq.
  - intros a Ha. rewrite addrs_plug in Ha. simpl in Ha.
    rewrite lookup_delete_ne by set_solver. rewrite Hsame by (unfold ctx_addrs; set_solver).
    unfold s'. cbn [heap set_heap]. rewrite lookup_insert_ne; [done|]. set_solver.
Qed.

End Surgery.

(** ** Removal of a node with two children *)

Section Successor.
Context {K T Compare : Type} `{!Comparator K Compare} `{!DefaultConstructible T}.
Implicit Types (s : State K T Compare) (t l r m : tree K T) (c : list (frame K T)).

Lemma plug_app c1 c2 t : plug (c1 ++ c2) t = plug c2 (plug c1 t).
Proof. revert t. induction c1 as [|f c1 IH]; intros t; simpl; [done|]. apply IH. Qed.

(** The minimum of a tree sits at the end of its left spine. *)
Lemma leftmost t :
  t ≠ Leaf →
  ∃ sp y ykv yc yr, t = plug sp (Bin Leaf y ykv yc yr) ∧ Forall is_InL sp.
Proof.
  induction t as [|l IHl a kv col r _]; intros Hne; [done|].
  destruct l as [|ll la lkv lc lr].
  - by exists [], a, kv, col, r.
  - destruct IHl as (sp & y & ykv & yc & yr & Hl & Hsp); [done|].
    exists (sp ++ [InL a kv col r]), y, ykv, yc, yr. split.
    + by rewrite plug_app, <- Hl.
    + apply Forall_app. split; [done|]. by apply Forall_singleton.
Qed.

Lemma ctx_before_InL (sp : list (frame K T)) : Forall is_InL sp → ctx_before sp = [].
Proof. induction 1 as [|[] sp Hf _ IH]; simpl; [done|done|done]. Qed.

Lemma ctx_entries_before_InL (sp : list (frame K T)) : Forall is_InL sp → ctx_entries_before sp = [].
Proof. induction 1 as [|[] sp Hf _ IH]; simpl; [done|done|done]. Qed.

(** The minimum, which has no left child, is unhooked from its parent:
    its right subtree takes its place.  Its own cell stays as it is. *)
Lemma splice_min_wf s py pkv pc pr C y ykv yc yr :
  tree_at s (plug (InL py pkv pc pr :: C) (Bin Leaf y ykv yc yr)) →
  let h1 := <[py := detail.mkNode pkv pc (ctx_par C) (root yr) (root pr)]> (heap s) in
  let h2 := match yr with
            | Leaf => h1
            | Bin yl ya akv ac yrr =>
                <[ya := detail.mkNode akv ac (Some py) (root yl) (root yrr)]> h1
            end in
  tree_at (mkState h2 (next s) (avail s) (this s)) (plug (InL py pkv pc pr :: C) yr)
  ∧ h2 !! y = heap s !! y
  ∧ (∀ a, a ∉ addrs (plug (InL py pkv pc pr :: C) (Bin Leaf y ykv yc yr)) →
          h2 !! a = heap s !! a).
Proof.
  intros Ht h1 h2.
  pose proof Ht as (Hctx & (Hy & _ & Hyr) & Hroot & Hnd)%tree_at_plug.
  destruct Hctx as (Hpy & Hpr & Hctx).
  pose proof Hnd as (Hndc & Hndt & Hdisj)%NoDup_around.
  simpl in Hnd, Hndt, Hdisj.
  assert (py ≠ y ∧ py ∉ addrs yr ∧ py ∉ addrs pr ∧ py ∉ ctx_addrs C ∧ y ∉ addrs yr)
    as (Hpyy & Hpyyr & Hpypr & HpyC & Hyyr) by (unfold ctx_addrs; split_and!; nd Hnd).
  assert (∀ a, a ∈ addrs pr ++ ctx_addrs C → a ≠ py ∧ a ∉ addrs yr ∧ a ≠ y) as Hout.
  { intros a Ha. unfold ctx_addrs in Ha. split_and!.
    - intros ->. set_solver.
    - intros Hc. apply (Hdisj a); set_solver.
    - intros ->. apply (Hdisj y); set_solver. }
  assert (h2 !! py = Some (detail.mkNode pkv pc (ctx_par C) (root yr) (root pr))) as Hpy2.
  { unfold h2, h1. destruct yr as [|yl ya akv ac yrr].
    - by rewrite lookup_insert_eq.
    - rewrite lookup_insert_ne, lookup_insert_eq; [done|]. intros ->. apply Hpyyr. simpl. set_solver. }
  assert (∀ a, a ≠ py → Some a ≠ root yr → h2 !! a = heap s !! a) as Hfr.
  { intros a Ha1 Ha2. unfold h2, h1. destruct yr as [|yl ya akv ac yrr].
    - by rewrite lookup_insert_ne.
    - rewrite !lookup_insert_ne; [done|done|]. intros ->. by apply Ha2. }
  assert (∀ a, a ∉ addrs yr → Some a ≠ root yr) as Hroot_ne.
  { intros a Ha Hc. symmetry in Hc. apply root_in in Hc. done. }
  split_and!.
  - apply tree_at_plug. cbn [heap this root]. split_and!.
    + cbn [wf_ctx]. split_and!; [exact Hpy2|..].
      * eapply wf_frame; [|exact Hpr]. intros a Ha.
        destruct (Hout a) as (? & ? & ?); [set_solver|]. apply Hfr; auto.
      * eapply wf_ctx_frame; [|exact Hctx]. intros a Ha.
        destruct (Hout a) as (? & ? & ?); [set_solver|]. apply Hfr; auto.
    + cbn [ctx_par frame_addr]. destruct yr as [|yl ya akv ac yrr]; [done|].
      destruct Hyr as (Hya & Hyl & Hyrr). simpl in Hndt.
      cbn [wf root]. unfold h2, h1. rewrite lookup_insert_eq. split_and!; [done|..].
      * eapply wf_frame; [|exact Hyl]. intros a Ha.
        rewrite !lookup_insert_ne; [done|..].
        -- intros ->. apply Hpyyr. simpl. set_solver.
        -- intros ->. revert Ha. nd Hndt.
      * eapply wf_frame; [|exact Hyrr]. intros a Ha.
        rewrite !lookup_insert_ne; [done|..].
        -- intros ->. apply Hpyyr. simpl. set_solver.
        -- intros ->. revert Ha. nd Hndt.
    + rewrite Hroot. rewrite (root_plug (_ :: C) (Bin _ _ _ _ _)), (root_plug (_ :: C) yr). done.
    + simpl. nd Hnd.
  - apply Hfr; [done|]. by apply Hroot_ne.
  - intros a Ha. rewrite addrs_plug in Ha. simpl in Ha. apply Hfr.
    + intros ->. apply Ha. set_solver.
    + intros Hc. symmetry in Hc. apply root_in in Hc. apply Ha. set_solver.
Qed.

(** A node with two children whose right child has no left child: the
    right child moves up. *)
Lemma erase_two_shallow s c ll la lkv lc lr x kv col y ykv yc yr fuel :
  StrictWeakOrder (call (compare_ (this s))) →
  let t := plug c (Bin (Bin ll la lkv lc lr) x kv col (Bin Leaf y ykv yc yr)) in
  tree_at s t → bst (call (compare_ (this s))) t → size t < fuel →
  ∃ s1,
    eraseNode fuel (Some x) s
    = (match yc with Black => eraseFixup fuel (Some y) false | Red => ret tt end) s1
    ∧ removed s t x s1 (plug c (Bin (Bin ll la lkv lc lr) y ykv col yr)).
Proof.
  intros Hswo t Ht Hbst Hfuel. unfold t in *. clear t.
  pose proof Ht as (Hctx & (Hx & (Hla & Hll & Hlr) & (Hy & _ & Hyr)) & Hroot & Hnd)%tree_at_plug.
  destruct (isLeftBroken_runs _ _ _ _ _ _ _ Ht) as (ilb & Hilb).
  pose proof Hnd as (Hndc & Hndt & Hdisj)%NoDup_around. fold (ctx_addrs c) in Hndc, Hdisj.
  simpl in Hnd, Hndt, Hdisj.
  assert (x ≠ la ∧ x ≠ y ∧ la ≠ y) as (Hxla & Hxy & Hlay) by (split_and!; nd Hnd).
  assert (∀ a, a ∈ ctx_addrs c → a ≠ x ∧ a ≠ la ∧ a ≠ y) as Hc.
  { intros a Ha. split_and!; intros ->; eapply Hdisj; try exact Ha; set_solver. }
  assert (∀ a, a ∈ addrs ll ++ addrs lr ++ addrs yr → a ∉ ctx_addrs c ∧ a ≠ x ∧ a ≠ la ∧ a ≠ y) as Hsub.
  { intros a Ha. split; [apply Hdisj; set_solver|].
    revert Ha. rewrite !elem_of_app. intros [Ha|[Ha|Ha]]; split_and!; intros ->; revert Ha; nd Hndt. }
  set (s' := mkState (<[y := detail.mkNode ykv col (ctx_par c) (Some la) (root yr)]>
                        (<[la := detail.mkNode lkv lc (Some y) (root ll) (root lr)]> (heap s)))
                     (next s) (avail s) (this s)).
  assert (wf_ctx (heap s') c (Some x)) as Hctx'.
  { eapply wf_ctx_frame; [|exact Hctx]. intros a Ha. destruct (Hc a Ha) as (? & ? & ?).
    unfold s'. cbn [heap]. by rewrite !lookup_insert_ne. }
  assert (heap s' !! x = Some (detail.mkNode kv col (ctx_par c) (Some la) (Some y))) as Hx'.
  { unfold s'. cbn [heap]. by rewrite !lookup_insert_ne. }
  pose proof (relink_same c (Some y) s') as (Hnext & Havail & Hcmp & Hsame).
  pose proof (relink_root c (Some y) s' _ Hroot) as Hroot1.
  pose proof (wf_ctx_relink s' c _ (Some y) Hndc Hctx') as Hctx1.
  pose proof Hx' as Hx1. rewrite <- Hsame in Hx1 by (intros Hin; by destruct (Hc x Hin)).
  eexists. split.
  { unfold eraseNode. cbn [is_null negb]. reads.
    rewrite (bind_Ret _ _ _ _ _ Hilb). reads. cbn [Nat.b2n Nat.add]. reads.
    change (Some y) with (root (Bin Leaf y ykv yc yr)) at 1.
    rewrite (bind_Ret _ _ _ _ _ (minNode_spec s (Some x) (Bin Leaf y ykv yc yr) fuel
               ltac:(by split_and!) ltac:(pose proof (size_plug c (Bin (Bin ll la lkv lc lr) x kv col (Bin Leaf y ykv yc yr))); simpl in *; lia))).
    cbn [addrs app head]. reads. rewrite ptr_eqb_refl. cbn [negb]. exec.
    change (mkState _ _ _ _) with s'.
    rewrite (bind_Ret _ _ _ _ _ (updateParentNode_spec s' c (Bin ll la lkv lc lr) x kv col
                                  (Bin Leaf y ykv yc yr) (Some y) Hswo Hctx' Hx' Hbst)).
    reads. rewrite (bind_Ret _ _ _ _ _ (delete_node_Some _ _ _ Hx1)). reflexivity. }
  unfold removed. cbn [heap set_heap next avail this].
  split_and!; try done.
  - apply tree_at_plug. cbn [heap set_heap this root]. split_and!.
    + apply wf_ctx_delete; [|done]. intros Hin. by destruct (Hc x Hin).
    + assert (∀ a, a ∉ ctx_addrs c → a ≠ x → a ≠ la → a ≠ y →
                   delete x (heap (relink c (Some y) s')) !! a = heap s !! a) as Hfr.
      { intros a ? ? ? ?. rewrite lookup_delete_ne, Hsame by done.
        unfold s'. cbn [heap]. by rewrite !lookup_insert_ne. }
      assert (y ∉ ctx_addrs c ∧ la ∉ ctx_addrs c) as (Hyc & Hlac).
      { split; intros Hin; destruct (Hc _ Hin) as (? & ? & ?); done. }
      cbn [wf root]. rewrite !lookup_delete_ne by done. rewrite !Hsame by done.
      unfold s'. cbn [heap]. rewrite lookup_insert_eq, lookup_insert_ne, lookup_insert_eq by done.
      split_and!; try done.
      all: eapply wf_frame; [|eassumption]; intros a Ha;
           destruct (Hsub a) as (? & ? & ? & ?); [set_solver|]; by apply Hfr.
    + rewrite Hroot1, (root_plug c (Bin _ _ _ _ _)). by destruct c.
    + simpl. nd Hnd.
  - intros a. rewrite !addrs_plug. simpl. intros Ha. split; [set_solver|].
    intros ->. revert Ha. nd Hnd.
  - by rewrite lookup_delete_eq.
  - intros a Ha. rewrite addrs_plug in Ha. simpl in Ha.
    rewrite lookup_delete_ne by set_solver. rewrite Hsame by (unfold ctx_addrs; set_solver).
    unfold s'. cbn [heap set_heap]. rewrite !lookup_insert_ne; [done|..]; set_solver.
Qed.

Lemma NoDup_replace (A B : list positive) x y :
  NoDup (A ++ x :: B) → y ∉ A ++ B → NoDup (A ++ y :: B).
Proof. rewrite <- !Permutation_middle, !NoDup_cons. set_solver. Qed.

Lemma root_plug_Bin c l a kv col r :
  ∃ ra, root (plug c (Bin l a kv col r)) = (Some ra : ptr) ∧ (c = [] → ra = a)
        ∧ ∀ t', c ≠ [] → root (plug c t') = Some ra.
Proof.
  destruct (root (plug c (Bin l a kv col r))) as [ra|] eqn:E.
  - exists ra. split; [done|]. split.
    + intros ->. simpl in E. by injection E.
    + intros t' Hc. rewrite (root_plug c t'). rewrite (root_plug c (Bin _ _ _ _ _)) in E.
      by destruct c.
  - exfalso. pose proof (plug_not_Leaf c l a kv col r). by destruct (plug c _).
Qed.

(** A node with two children whose successor lies deeper: the successor is
    unhooked and takes the place of the node. *)
Lemma erase_two_deep s c ll la lkv lc lr x kv col py pkv pc pr sp y ykv yc yr fuel :
  StrictWeakOrder (call (compare_ (this s))) →
  Forall is_InL sp →
  let L := Bin ll la lkv lc lr in
  let t := plug c (Bin L x kv col (plug (InL py pkv pc pr :: sp) (Bin Leaf y ykv yc yr))) in
  tree_at s t → bst (call (compare_ (this s))) t → size t < fuel →
  ∃ s1,
    eraseNode fuel (Some x) s
    = (match yc with Black => eraseFixup fuel (Some y) true | Red => ret tt end) s1
    ∧ removed s t x s1 (plug c (Bin L y ykv col (plug (InL py pkv pc pr :: sp) yr))).
Proof.
  intros Hswo Hsp L t Ht Hbst Hfuel.
  set (r := plug (InL py pkv pc pr :: sp) (Bin Leaf y ykv yc yr)) in *.
  set (C := InL py pkv pc pr :: sp ++ InR L x kv col :: c).
  assert (t = plug C (Bin Leaf y ykv yc yr)) as HtC.
  { unfold t, C, r. by rewrite (plug_app (InL py pkv pc pr :: sp) (InR L x kv col :: c)). }
  (* the two views of the tree: around the node, around its successor *)
  pose proof Ht as (Hctx & (Hx & (Hla & Hll & Hlr) & Hr) & Hroot & Hnd)%tree_at_plug.
  pose proof Ht as Ht2. rewrite HtC in Ht2.
  pose proof Ht2 as (HctxC & (Hy & _ & Hyr) & _ & HndC)%tree_at_plug.
  destruct HctxC as (Hpy & Hpr & HctxC).
  destruct (isLeftBroken_runs _ _ _ _ _ _ _ Ht) as (ilb & Hilb).
  destruct (root_plug_Bin (InL py pkv pc pr :: sp) Leaf y ykv yc yr) as (ra & Hra & _ & Hra').
  fold r in Hra.
  assert (NoDup (addrs t)) as Hndt by apply Ht.
  assert (addrs t = ctx_before c ++ (addrs ll ++ la :: addrs lr) ++ x :: addrs r ++ ctx_after c) as Hat.
  { unfold t. rewrite addrs_plug. simpl. by rewrite <- !app_assoc. }
  assert (ra ∈ addrs r) as Hrar by (by apply root_in).
  assert (y ∈ addrs r ∧ py ∈ addrs r) as (Hyr_in & Hpyr).
  { unfold r. rewrite addrs_plug. simpl. set_solver. }
  assert (size r ≤ fuel) as Hfr.
  { pose proof (size_plug c (Bin L x kv col r)). fold t in H. simpl in H. lia. }
  assert (head (addrs r) = Some y) as Hmin.
  { unfold r. rewrite addrs_plug. rewrite (ctx_before_InL (_ :: sp)); [done|].
    apply Forall_cons; split; [done|done]. }
  assert (ra ∈ ctx_before (InL py pkv pc pr :: sp) ++ ctx_after (InL py pkv pc pr :: sp)) as Hra_ctx.
  { specialize (Hra' Leaf ltac:(done)). apply root_in in Hra'.
    rewrite addrs_plug in Hra'. simpl in *. set_solver. }
  assert (NoDup (addrs r)) as Hndr by (rewrite Hat in Hndt; nd Hndt).
  assert (y ≠ ra ∧ ra ∉ addrs yr) as (Hyra & Hrayr).
  { unfold r in Hndr. rewrite addrs_plug in Hndr.
    apply NoDup_around in Hndr as (_ & Hn1 & Hn2). simpl in Hn2.
    split; [intros ->|intros Hin]; eapply Hn2; try exact Hra_ctx; set_solver. }
  assert (x ≠ la ∧ x ≠ y ∧ x ≠ py ∧ x ≠ ra ∧ la ≠ y ∧ la ≠ py ∧ la ≠ ra ∧ y ≠ py
          ∧ x ∉ addrs yr ∧ la ∉ addrs yr)
    as (Hxla & Hxy & Hxpy & Hxra & Hlay & Hlapy & Hlara & Hypy & Hxyr & Hlayr).
  { rewrite Hat in Hndt.
    assert (x ∉ addrs r ∧ la ∉ addrs r ∧ x ≠ la) as (Hxr & Hlar & ?) by (split_and!; nd Hndt).
    assert (addrs yr ⊆ addrs r) as Hsub.
    { unfold r. rewrite addrs_plug. simpl. set_solver. }
    split_and!; try done; try (intros ->; done); try (intros Hin; apply Hsub in Hin; done).
    simpl in HndC. nd HndC. }
  (* run up to the point where the successor is unhooked *)
  unfold eraseNode. cbn [is_null negb]. reads.
  rewrite (bind_Ret _ _ _ _ _ Hilb). reads.
  rewrite Hra. unfold L. cbn [root is_null negb Nat.b2n Nat.add]. reads. rewrite <- ?Hra.
  rewrite (bind_Ret _ _ _ _ _ (minNode_spec s (Some x) r fuel Hr Hfr)).
  rewrite Hmin. reads.
  assert (ptr_eqb (Some y) (root r) = false) as Hne.
  { rewrite Hra. unfold ptr_eqb. rewrite bool_decide_eq_false_2; [done|congruence]. }
  rewrite Hne. cbn [negb]. exec.
  unfold C. cbn [ctx_par frame_addr].
  destruct (splice_min_wf s py pkv pc pr _ y ykv yc yr Ht2) as (Ht3 & Hy3 & Hout3).
  cbv zeta in Ht3, Hy3, Hout3.
  match type of Hy3 with ?h !! _ = _ => set (h2 := h) in * end.
  match goal with |- ∃ s1, ?m s = _ ∧ _ =>
    eassert (m s = _ (mkState h2 (next s) (avail s) (this s))) as Hrun
  end.
  { unfold h2. rewrite Hra in Hx. clear Hrar Hra Hra' Hne Hmin Hfr Hndr Hr Hctx Hroot Hnd.
    unfold C in Hy. cbn [ctx_par frame_addr] in Hy.
    destruct yr as [|yl ya akv ac yrr]; cbn [root wf] in *.
    - exec. reflexivity.
    - destruct Hyr as (Hya & _ & _).
      assert (ya ≠ py) by (simpl in HndC; nd HndC).
      assert (x ≠ ya) by (simpl in Hxyr; set_solver).
      match goal with |- _ = ?rhs => set (tail := rhs) end.
      exec. subst tail. reflexivity. }
  rewrite Hrun. clear Hrun.
  pose proof Hy as Hy2. rewrite <- Hy3 in Hy2. clear Hy3.
  unfold C in Hy2. cbn [ctx_par frame_addr root] in Hy2.
  change (plug (InL py pkv pc pr :: sp ++ InR L x kv col :: c) (Bin Leaf y ykv yc yr))
    with (plug C (Bin Leaf y ykv yc yr)) in Hout3.
  rewrite <- HtC in Hout3. clearbody h2.
  (* the tree without the successor, seen again around the node *)
  assert (plug (InL py pkv pc pr :: sp ++ InR L x kv col :: c) yr
          = plug c (Bin L x kv col (plug (InL py pkv pc pr :: sp) yr))) as HtC2.
  { by rewrite (plug_app (InL py pkv pc pr :: sp) (InR L x kv col :: c)). }
  rewrite HtC2 in Ht3.
  assert (y ∉ addrs (plug c (Bin L x kv col (plug (InL py pkv pc pr :: sp) yr)))) as Hy_out.
  { rewrite <- HtC2, addrs_plug. fold C. simpl in HndC. nd HndC. }
  assert (∀ a, a ∈ addrs (plug c (Bin L x kv col (plug (InL py pkv pc pr :: sp) yr)))
               → a ∈ addrs t) as Hsub2.
  { intros a. rewrite <- HtC2, HtC, !addrs_plug. simpl. clear. set_solver. }
  destruct (plug (InL py pkv pc pr :: sp) yr) as [|Rl ra' rkv rc Rr] eqn:HR.
  { exfalso. simpl in HR. by apply plug_not_Leaf in HR. }
  assert (ra' = ra) as ->.
  { specialize (Hra' yr ltac:(done)). rewrite HR in Hra'. simpl in Hra'. congruence. }
  pose proof Ht3 as (Hctx2 & (Hx2 & (Hla2 & Hll2 & Hlr2) & (Hra2 & HRl & HRr)) & Hroot2 & Hnd2)%tree_at_plug.
  cbn [heap this root] in Hctx2, Hx2, Hla2, Hll2, Hlr2, Hra2, HRl, HRr, Hroot2.
  clear Hx Hla Hy Hpy.
  unfold L in Hx2. cbn [root] in Hx2. exec.
  match goal with |- context [bind (updateParentNode _ _) _ ?st] => set (s3 := st) end.
  pose proof Hnd2 as (Hndc & Hndt2 & Hdisj)%NoDup_around. fold (ctx_addrs c) in Hndc, Hdisj.
  rewrite addrs_plug in Hy_out.
  unfold L in Hnd2, Hndt2, Hdisj, Hy_out. simpl in Hnd2, Hndt2, Hdisj, Hy_out.
  assert (∀ a, a ∈ ctx_addrs c → a ≠ x ∧ a ≠ la ∧ a ≠ y ∧ a ≠ ra) as Hc.
  { intros a Ha. split_and!; intros ->.
    - eapply Hdisj; [|exact Ha]. clear. set_solver.
    - eapply Hdisj; [|exact Ha]. clear. set_solver.
    - apply Hy_out. unfold ctx_addrs in Ha. clear -Ha. set_solver.
    - eapply Hdisj; [|exact Ha]. clear. set_solver. }
  assert (∀ a, a ∈ addrs ll ++ addrs lr ++ addrs Rl ++ addrs Rr
               → a ∉ ctx_addrs c ∧ a ≠ x ∧ a ≠ la ∧ a ≠ y ∧ a ≠ ra) as Hsub.
  { intros a Ha. split; [apply Hdisj; clear -Ha; set_solver|].
    assert (a ≠ y) by (intros ->; apply Hy_out; clear -Ha; set_solver).
    revert Ha. rewrite !elem_of_app.
    intros [Ha|[Ha|[Ha|Ha]]]; split_and!; try done; intros ->; revert Ha; nd Hndt2. }
  assert (wf_ctx (heap s3) c (Some x)) as Hctx3.
  { eapply wf_ctx_frame; [|exact Hctx2]. intros a Ha. destruct (Hc a Ha) as (? & ? & ? & ?).
    unfold s3. cbn [heap]. by rewrite !lookup_insert_ne. }
  assert (heap s3 !! x = Some (detail.mkNode kv col (ctx_par c) (root L) (root r))) as Hx3.
  { unfold s3. cbn [heap]. rewrite !lookup_insert_ne by done. by rewrite Hra. }
  pose proof (relink_same c (Some y) s3) as (Hnext & Havail & Hcmp & Hsame).
  pose proof (relink_root c (Some y) s3 _ Hroot2) as Hroot1.
  pose proof (wf_ctx_relink s3 c _ (Some y) Hndc Hctx3) as Hctx1.
  pose proof Hx3 as Hx1. rewrite <- Hsame in Hx1 by (intros Hin; by destruct (Hc x Hin)).
  rewrite (bind_Ret _ _ _ _ _ (updateParentNode_spec s3 c L x kv col r (Some y) Hswo Hctx3 Hx3 Hbst)).
  reads. rewrite (bind_Ret _ _ _ _ _ (delete_node_Some _ _ _ Hx1)).
  eexists. split; [reflexivity|].
  assert (∀ a, a ∉ ctx_addrs c → a ≠ x → a ≠ la → a ≠ y → a ≠ ra →
               delete x (heap (relink c (Some y) s3)) !! a = h2 !! a) as Hfr3.
  { intros a ? ? ? ? ?. rewrite lookup_delete_ne, Hsame by done.
    unfold s3. cbn [heap]. by rewrite !lookup_insert_ne. }
  assert (y ∉ ctx_addrs c ∧ la ∉ ctx_addrs c ∧ ra ∉ ctx_addrs c ∧ x ∉ ctx_addrs c)
    as (Hyc & Hlac & Hrac & Hxc).
  { split_and!; intros Hin; destruct (Hc _ Hin) as (? & ? & ? & ?); done. }
  unfold removed. cbn [heap set_heap next avail this].
  split_and!; try done.
  - apply tree_at_plug. cbn [heap set_heap this root]. split_and!.
    + by apply wf_ctx_delete.
    + unfold L. cbn [wf root]. rewrite !lookup_delete_ne by done. rewrite !Hsame by done.
      unfold s3. cbn [heap].
      rewrite lookup_insert_eq.
      rewrite (lookup_insert_ne _ y la), lookup_insert_eq by done.
      rewrite !(lookup_insert_ne _ _ ra), lookup_insert_eq by done.
      split_and!; try done.
      all: eapply wf_frame; [|eassumption]; intros a Ha;
           destruct (Hsub a) as (? & ? & ? & ? & ?); [clear -Ha; set_solver|]; by apply Hfr3.
    + rewrite Hroot1, (root_plug c (Bin _ _ _ _ _)). by destruct c.
    + apply NoDup_around. fold (ctx_addrs c). split_and!; [done|..].
      * unfold L. simpl.
        apply (NoDup_replace (addrs ll ++ la :: addrs lr) (addrs Rl ++ ra :: addrs Rr) x y);
          [exact Hndt2|]. clear -Hy_out. set_solver.
      * intros a. unfold L. simpl. rewrite !elem_of_app, !elem_of_cons, !elem_of_app, !elem_of_cons.
        intros Ha Hin. destruct (Hc a Hin) as (? & ? & ? & ?).
        apply (Hdisj a); [|exact Hin]. clear -Ha H1. set_solver.
  - intros a Ha. rewrite addrs_plug in Ha. unfold L in Ha. simpl in Ha.
    assert (x ∉ addrs ll ++ la :: addrs lr ++ addrs Rl ++ ra :: addrs Rr) as Hx_out by nd Hndt2.
    split.
    + destruct (decide (a = y)) as [->|Hay].
      * rewrite HtC, addrs_plug. clear. set_solver.
      * apply Hsub2. rewrite addrs_plug. unfold L. simpl. clear -Ha Hay. set_solver.
    + intros ->. unfold ctx_addrs in Hxc. clear -Ha Hxc Hxy Hx_out. set_solver.
  - by rewrite lookup_delete_eq.
  - intros a Ha.
    assert (a ∉ ctx_addrs c ∧ a ≠ x ∧ a ≠ la ∧ a ≠ y ∧ a ≠ ra) as (? & ? & ? & ? & ?).
    { rewrite Hat in Ha. unfold ctx_addrs. clear -Ha Hyr_in Hrar. split_and!; set_solver. }
    rewrite Hfr3 by done. by apply Hout3.
Qed.

End Successor.

(** ** [erase] *)

Section Erase.
Context {K T Compare : Type} `{!Comparator K Compare} `{!DefaultConstructible T}.
Implicit Types (s : State K T Compare) (t l r m : tree K T) (c : list (frame K T)).

Lemma sorted_without (R : relation (K * T)) kv es es' :
  StronglySorted R es → without kv es es' → StronglySorted R es'.
Proof.
  intros Hs (pre & post & -> & ->).
  apply StronglySorted_app in Hs as (H12 & H1 & (_ & H2)%StronglySorted_cons).
  apply StronglySorted_app. split_and!; [|done|done].
  intros x1 x2 Hx1 Hx2. apply H12; [done|]. set_solver.
Qed.

Lemma absent_without (lt : K → K → bool) `{!StrictWeakOrder lt} key (kv : K * T) es es' :
  StronglySorted (key_lt lt) es → without kv es es' → equivb lt key kv.1 = true →
  ∀ e, e ∈ es' → equivb lt key e.1 = false.
Proof.
  intros Hs (pre & post & -> & ->) Heq e He.
  apply StronglySorted_app in Hs as (H12 & H1 & (H2 & _)%StronglySorted_cons).
  apply not_true_iff_false. intros Hc.
  apply elem_of_app in He as [He|He].
  - assert (lt e.1 kv.1 = true) as Hlt by (apply H12; [done|set_solver]).
    rewrite equivb_sym in Heq.
    pose proof (lt_equiv_r lt _ _ _ Hlt Heq) as Hlt'.
    apply equivb_true in Hc as [? ?]. congruence.
  - rewrite Forall_forall in H2. pose proof (H2 e He) as Hlt. unfold key_lt in Hlt.
    pose proof (lt_equiv_l lt _ _ _ Heq Hlt) as Hlt'.
    apply equivb_true in Hc as [? ?]. congruence.
Qed.

Lemma erase_finish s t x kv s1 t1 fuel q ilb col s' :
  StrictWeakOrder (call (compare_ (this s))) →
  bst (call (compare_ (this s))) t →
  removed s t x s1 t1 → without kv (entries t) (entries t1) → inT t1 q →
  (match col with Black => eraseFixup fuel q ilb | Red => ret tt end) s1 = Ret tt s' →
  ∃ t', erased s t x kv s' t'.
Proof.
  intros Hswo Hbst (Ht1 & Hsub & Hx & Hn & Hav & Hcmp & Hfr) Hw Hq Hrun.
  destruct col.
  { apply ret_inv in Hrun as [_ ->]. by exists t1. }
  assert (StrictWeakOrder (call (compare_ (this s1)))) as Hswo1 by (by rewrite Hcmp).
  assert (bst (call (compare_ (this s1))) t1) as Hbst1.
  { rewrite Hcmp. unfold bst. by eapply sorted_without. }
  destruct (eraseFixup_ok s1 t1 Hswo1 Hbst1 fuel q ilb s1 s') as (t' & Hr);
    [exists t1; by apply reach_refl|done|done|].
  destruct Hr as (Ht' & He & Ha & (Hn' & Hav' & Hcmp' & Hfr')).
  exists t'. unfold erased. rewrite He. split_and!; try done; try congruence.
  - intros a Hin. apply Hsub. by apply Ha.
  - rewrite Hfr'; [done|]. intros Hin. by destruct (Hsub _ Hin).
  - intros a Hin. rewrite Hfr'; [by apply Hfr|]. intros Hin1. by destruct (Hsub _ Hin1).
Qed.

Lemma eraseNode_ok s c l x kv col r fuel s' :
  StrictWeakOrder (call (compare_ (this s))) →
  tree_at s (plug c (Bin l x kv col r)) →
  bst (call (compare_ (this s))) (plug c (Bin l x kv col r)) →
  size (plug c (Bin l x kv col r)) < fuel →
  eraseNode fuel (Some x) s = Ret tt s' →
  ∃ t', erased s (plug c (Bin l x kv col r)) x kv s' t'.
Proof.
  intros Hswo Ht Hbst Hfuel Hrun.
  assert (∀ t1, inT t1 (ctx_par c) ∨ True) as _ by auto.
  assert (∀ t1, inT (plug c t1) (ctx_par c)) as Hpar.
  { intros t1. unfold inT. destruct (ctx_par c) as [a|] eqn:E; [|done]. by apply ctx_par_in. }
  destruct l as [|ll la lkv lc lr], r as [|rl ra rkv rc rr].
  - destruct (erase_leaf s c x kv col fuel Hswo Ht Hbst) as (s1 & ilb & Heq & Hrm).
    rewrite Heq in Hrun.
    refine (erase_finish s _ x kv s1 _ fuel _ _ _ s' Hswo Hbst Hrm _ _ Hrun); [|try done].
    { exists (ctx_entries_before c), (ctx_entries_after c). by rewrite !entries_plug. }
  - destruct (erase_one_right s c rl ra rkv rc rr x kv col fuel Hswo Ht Hbst) as (s1 & ilb & Heq & Hrm).
    rewrite Heq in Hrun.
    refine (erase_finish s _ x kv s1 _ fuel _ _ _ s' Hswo Hbst Hrm _ _ Hrun); [|try done].
    { exists (ctx_entries_before c), (entries (Bin rl ra rkv rc rr) ++ ctx_entries_after c).
      by rewrite !entries_plug. }
  - destruct (erase_one_left s c ll la lkv lc lr x kv col fuel Hswo Ht Hbst) as (s1 & ilb & Heq & Hrm).
    rewrite Heq in Hrun.
    refine (erase_finish s _ x kv s1 _ fuel _ _ _ s' Hswo Hbst Hrm _ _ Hrun); [|try done].
    { exists (ctx_entries_before c ++ entries (Bin ll la lkv lc lr)), (ctx_entries_after c).
      rewrite !entries_plug. simpl. by rewrite <- !app_assoc. }
  - destruct (leftmost (Bin rl ra rkv rc rr)) as (sp & y & ykv & yc & yr & Hr & Hsp); [done|].
    rewrite Hr in *. clear Hr rl ra rkv rc rr.
    destruct sp as [|f sp].
    + cbn [plug] in *.
      destruct (erase_two_shallow s c ll la lkv lc lr x kv col y ykv yc yr fuel Hswo Ht Hbst Hfuel)
        as (s1 & Heq & Hrm).
      rewrite Heq in Hrun.
      refine (erase_finish s _ x kv s1 _ fuel _ _ _ s' Hswo Hbst Hrm _ _ Hrun).
      * exists (ctx_entries_before c ++ entries (Bin ll la lkv lc lr)),
               (ykv :: entries yr ++ ctx_entries_after c).
        rewrite !entries_plug. simpl. by rewrite <- !app_assoc.
      * unfold inT. rewrite addrs_plug. simpl. set_solver.
    + apply Forall_cons in Hsp as [Hf Hsp]. destruct f as [py pkv pc pr|]; [|done].
      destruct (erase_two_deep s c ll la lkv lc lr x kv col py pkv pc pr sp y ykv yc yr fuel
                  Hswo Hsp Ht Hbst Hfuel) as (s1 & Heq & Hrm).
      rewrite Heq in Hrun.
      refine (erase_finish s _ x kv s1 _ fuel _ _ _ s' Hswo Hbst Hrm _ _ Hrun).
      * exists (ctx_entries_before c ++ entries (Bin ll la lkv lc lr)),
               (ykv :: entries yr ++ ctx_entries_after (InL py pkv pc pr :: sp) ++ ctx_entries_after c).
        rewrite !entries_plug. cbn [entries]. rewrite !entries_plug.
        rewrite (ctx_entries_before_InL (InL py pkv pc pr :: sp)) by (by apply Forall_cons).
        cbn [entries app]. rewrite <- !app_assoc. cbn [app]. by rewrite <- !app_assoc.
      * unfold inT. rewrite addrs_plug. simpl. set_solver.
Qed.

(** [erase]: when it returns, the key is gone and the rest of the entries
    are as they were. *)
Lemma erase_ok s t fuel key b s' :
  StrictWeakOrder (call (compare_ (this s))) →
  tree_at s t → bst (call (compare_ (this s))) t → size t < fuel →
  erase fuel key s = Ret b s' →
  (b = false ∧ s' = s ∧ ¬ present (call (compare_ (this s))) key t)
  ∨ (b = true ∧ ∃ x kv t', lookup (call (compare_ (this s))) key t = Some (x, kv)
                           ∧ erased s t x kv s' t').
Proof.
  intros Hswo Ht Hbst Hfuel Hrun. unfold erase in Hrun.
  rewrite (bind_Ret _ _ _ _ _ (findNode_wf s t fuel key Ht ltac:(lia))) in Hrun.
  destruct t as [|tl ta tkv tc tr].
  { left. cbn in Hrun. injection Hrun as <- <-. split_and!; [done|done|].
    intros (e & He & _). set_solver. }
  set (t := Bin tl ta tkv tc tr) in *.
  destruct (search_lookup (call (compare_ (this s))) key t None) as (x & kv & Hs & Hin & Hl); [done|].
  destruct (search_ctx (call (compare_ (this s))) key t None)
    as (c & l & x' & kv' & col & r & Heq & Hs' & _); [done|].
  assert (x' = x) as -> by congruence.
  rewrite Hs in Hrun. clearbody t. subst t.
  pose proof Ht as (Hctx & (Hx & _) & _)%tree_at_plug.
  assert (kv' = kv) as ->.
  { destruct Ht as (Hwf & _). destruct (wf_node _ _ _ _ _ Hwf Hin) as (n & Hn & <-).
    rewrite Hx in Hn. by injection Hn as <-. }
  cbn [is_null] in Hrun. revert Hrun. reads.
  destruct (equivb _ key kv.1) eqn:E; cbn [negb]; intros Hrun.
  - right. apply bind_Ret_inv in Hrun as ([] & s1 & Hrun & Hret).
    apply ret_inv in Hret as [-> ->].
    destruct (eraseNode_ok s c l x kv col r fuel s1 Hswo Ht Hbst Hfuel Hrun) as (t' & Ht').
    split; [done|]. by exists x, kv, t'.
  - left. apply ret_inv in Hrun as [-> ->]. split_and!; [done|done|].
    by apply lookup_None.
Qed.

End Erase.

(** ** [insert] and [at] together *)

Section InsertAndLookup.
Context {K T Compare : Type} `{!Comparator K Compare} `{!DefaultConstructible T}.
Implicit Types (s : State K T Compare) (t l r m : tree K T) (c : list (frame K T)).

(** In a sorted sequence two entries with equal keys are the same entry. *)
Lemma sorted_equiv_unique lt `{!StrictWeakOrder lt} (es : list (K * T)) e1 e2 :
  StronglySorted (key_lt lt) es → e1 ∈ es → e2 ∈ es →
  equivb lt e1.1 e2.1 = true → e1 = e2.
Proof.
  intros Hs. induction Hs as [|x es Hs IH Hx]; [set_solver|].
  rewrite Forall_forall in Hx. unfold key_lt in Hx.
  intros [->|H1]%elem_of_cons [->|H2]%elem_of_cons Heq; auto.
  - apply equivb_true in Heq as [? ?]. pose proof (Hx _ H2). congruence.
  - apply equivb_true in Heq as [? ?]. pose proof (Hx _ H1). congruence.
Qed.

Lemma read_mapped_Some s a n :
  heap s !! a = Some n → read_mapped a s = Ret (detail.value n).2 s.
Proof. intros Ha. unfold read_mapped. by rewrite (bind_Ret _ _ _ _ _ (get_value_Some _ _ _ Ha)). Qed.

(** [at] finds the entry that is stored under a key. *)
Lemma at_entry s t fuel key v :
  StrictWeakOrder (call (compare_ (this s))) →
  tree_at s t → bst (call (compare_ (this s))) t → size t ≤ fuel →
  (key, v) ∈ entries t →
  ∃ a, at_ fuel key s = Ret a s ∧ read_mapped a s = Ret v s.
Proof.
  intros Hswo Ht Hbst Hfuel Hin.
  assert (equivb (call (compare_ (this s))) key key = true) as Hrefl.
  { apply equivb_true. by rewrite swo_irrefl. }
  assert (present (call (compare_ (this s))) key t) as Hp by (by exists (key, v)).
  destruct (lookup_present _ key t Hbst Hp) as [[a kv] Hl].
  pose proof (lookup_Some _ _ _ _ _ Hl) as [Hn Heq].
  assert (kv = (key, v)) as ->.
  { symmetry. eapply (sorted_equiv_unique _ _ _ _ Hbst); [done| |done].
    rewrite entries_nodes. apply list_elem_of_fmap. by exists (a, kv). }
  exists a. rewrite (at_wf s t fuel key Ht Hfuel), Hl. split; [done|].
  destruct Ht as (Hwf & _). destruct (wf_node _ _ _ _ _ Hwf Hn) as (n & Hcell & Hv).
  rewrite (read_mapped_Some _ _ _ Hcell), Hv. done.
Qed.

Lemma inserted_size s t key v s' t' : inserted s t key v s' t' → size t' = S (size t).
Proof.
  intros (_ & _ & _ & _ & _ & _ & _ & Hp & _).
  rewrite !size_nodes, <- !(length_fmap snd), <- !entries_nodes, Hp. done.
Qed.

Lemma without_length kv (es es' : list (K * T)) : without kv es es' → length es = S (length es').
Proof. intros (pre & post & -> & ->). rewrite !length_app. simpl. lia. Qed.

Lemma size_entries t : size t = length (entries t).
Proof. by rewrite size_nodes, entries_nodes, length_fmap. Qed.

(** C3: [insert] returns false and leaves the state as it is when an equal
    key is stored; otherwise (the root being Black and a node being
    available) it returns true and stores the entry.  A second insertion of
    the key then returns false, changes nothing, and [at] still yields the
    first value. *)
Theorem insert_reports_duplicates s t fuel key v :
  StrictWeakOrder (call (compare_ (this s))) →
  tree_at s t → bst (call (compare_ (this s))) t → tree_color t = Black →
  alloc_ok s → avail s ≠ 0 → size t < fuel →
  (present (call (compare_ (this s))) key t → insert fuel key v s = Ret false s)
  ∧ (¬ present (call (compare_ (this s))) key t →
     ∃ s' t', insert fuel key v s = Ret true s' ∧ inserted s t key v s' t'
       ∧ ∀ v2, ∃ a, insert fuel key v2 s' = Ret false s'
                    ∧ at_ fuel key s' = Ret a s' ∧ read_mapped a s' = Ret v s').
Proof.
  intros Hswo Ht Hbst Hblack Hok Hav Hfuel. split.
  - intros Hp. apply (insert_present s t fuel key v); auto. lia.
  - intros Hnp.
    destruct (insert_absent s t fuel key v Hswo Ht Hbst Hblack Hok Hav Hfuel Hnp)
      as (s' & t' & Hins & Hi).
    exists s', t'. split; [done|]. split; [done|]. intros v2.
    pose proof (inserted_size _ _ _ _ _ _ Hi) as Hsz.
    pose proof Hi as (Ht' & Hbst' & _ & _ & _ & _ & Hcmp & Hperm & _).
    assert (StrictWeakOrder (call (compare_ (this s')))) as Hswo' by (by rewrite Hcmp).
    assert ((key, v) ∈ entries t') as Hin by (rewrite Hperm; set_solver).
    destruct (at_entry s' t' fuel key v Hswo' Ht' Hbst' ltac:(lia) Hin) as (a & Hat & Hread).
    exists a. split_and!; [|done|done].
    apply (insert_present s' t' fuel key v2); auto; [lia|].
    exists (key, v). split; [done|]. apply equivb_true. simpl. by rewrite swo_irrefl.
Qed.

(** C4: [at] returns a reference to the value stored under the key when
    the key is present and throws [std::out_of_range] when it is absent.
    After a successful [insert] of a key with a value it yields that value;
    after [erase] of a key has returned it throws. *)
Theorem at_checked_lookup s t fuel key :
  StrictWeakOrder (call (compare_ (this s))) →
  tree_at s t → bst (call (compare_ (this s))) t → size t < fuel →
  (present (call (compare_ (this s))) key t →
     ∃ a kv, at_ fuel key s = Ret a s ∧ (a, kv) ∈ nodes t
             ∧ equivb (call (compare_ (this s))) key kv.1 = true
             ∧ read_mapped a s = Ret kv.2 s)
  ∧ (¬ present (call (compare_ (this s))) key t → at_ fuel key s = Throw out_of_range s)
  ∧ (∀ v, tree_color t = Black → alloc_ok s → avail s ≠ 0 →
          ¬ present (call (compare_ (this s))) key t →
          ∃ s' a, insert fuel key v s = Ret true s'
                  ∧ at_ fuel key s' = Ret a s' ∧ read_mapped a s' = Ret v s')
  ∧ (∀ b s', erase fuel key s = Ret b s' → at_ fuel key s' = Throw out_of_range s').
Proof.
  intros Hswo Ht Hbst Hfuel. split_and!.
  - intros Hp. destruct (lookup_present _ key t Hbst Hp) as [[a kv] Hl].
    pose proof (lookup_Some _ _ _ _ _ Hl) as [Hn Heq].
    exists a, kv. rewrite (at_wf s t fuel key Ht ltac:(lia)), Hl. split_and!; try done.
    destruct Ht as (Hwf & _). destruct (wf_node _ _ _ _ _ Hwf Hn) as (n & Hcell & Hv).
    by rewrite (read_mapped_Some _ _ _ Hcell), Hv.
  - intros Hnp. rewrite (at_wf s t fuel key Ht ltac:(lia)).
    apply (lookup_None _ key t Hbst) in Hnp. by rewrite Hnp.
  - intros v Hblack Hok Hav Hnp.
    destruct (insert_absent s t fuel key v Hswo Ht Hbst Hblack Hok Hav Hfuel Hnp)
      as (s' & t' & Hins & Hi).
    pose proof (inserted_size _ _ _ _ _ _ Hi) as Hsz.
    pose proof Hi as (Ht' & Hbst' & _ & _ & _ & _ & Hcmp & Hperm & _).
    assert (StrictWeakOrder (call (compare_ (this s')))) as Hswo' by (by rewrite Hcmp).
    assert ((key, v) ∈ entries t') as Hin by (rewrite Hperm; set_solver).
    destruct (at_entry s' t' fuel key v Hswo' Ht' Hbst' ltac:(lia) Hin) as (a & Hat & Hread).
    by exists s', a.
  - intros b s' Hrun.
    destruct (erase_ok s t fuel key b s' Hswo Ht Hbst Hfuel Hrun)
      as [(-> & -> & Hnp)|(-> & x & kv & t' & Hl & Hers)].
    + rewrite (at_wf s t fuel key Ht ltac:(lia)).
      apply (lookup_None _ key t Hbst) in Hnp. by rewrite Hnp.
    + destruct Hers as (Ht' & Hw & _ & _ & _ & _ & Hcmp & _).
      pose proof (lookup_Some _ _ _ _ _ Hl) as [_ Heq].
      pose proof (without_length _ _ _ Hw) as Hlen.
      rewrite <- !size_entries in Hlen.
      rewrite (at_wf s' t' fuel key Ht' ltac:(lia)), Hcmp.
      assert (bst (call (compare_ (this s))) t') as Hbst' by (by eapply sorted_without).
      assert (¬ present (call (compare_ (this s))) key t') as Hnp.
      { intros (e & He & Hc).
        pose proof (absent_without _ key kv _ _ Hbst Hw Heq e He). congruence. }
      apply (lookup_None _ key t' Hbst') in Hnp. by rewrite Hnp.
Qed.

End InsertAndLookup.

(** ** The invariant checker *)

Section Checker.
Context {K T Compare : Type} `{!Comparator K Compare} `{!DefaultConstructible T}.
Implicit Types (s : State K T Compare) (t l r m : tree K T) (c : list (frame K T)).

Lemma isWeakRBTree_wf s par t fuel :
  wf (heap s) par t → size t < fuel →
  isWeakRBTree fuel (root t) s = Ret (weak_height t) s.
Proof.
  revert par fuel. induction t as [|l IHl a kv col r IHr]; intros par fuel Hwf Hfuel.
  { destruct fuel; [simpl in Hfuel; lia|]. done. }
  destruct fuel as [|fuel]; [simpl in Hfuel; lia|]. simpl in Hfuel.
  destruct Hwf as (Ha & Hl & Hr).
  cbn [isWeakRBTree weak_height root is_null]. reads.
  pose proof (IHr (Some a) fuel Hr ltac:(lia)) as Er.
  pose proof (IHl (Some a) fuel Hl ltac:(lia)) as El.
  destruct col; cbn [detail.Color_eqb andb negb].
  - reads. rewrite (bind_Ret _ _ _ _ _ (colorOf_root s (Some a) l Hl)).
    destruct (tree_color l); cbn [detail.Color_eqb orb]; [done|].
    reads. rewrite (bind_Ret _ _ _ _ _ (colorOf_root s (Some a) r Hr)).
    destruct (tree_color r); cbn [detail.Color_eqb]; rewrite ?bind_ret; [done|].
    reads. rewrite (bind_Ret _ _ _ _ _ Er).
    destruct (weak_height r =? 0)%Z; [done|]. reads. rewrite (bind_Ret _ _ _ _ _ El).
    by destruct (weak_height r =? weak_height l)%Z.
  - rewrite bind_ret. reads. rewrite (bind_Ret _ _ _ _ _ Er).
    destruct (weak_height r =? 0)%Z; [done|]. reads. rewrite (bind_Ret _ _ _ _ _ El).
    by destruct (weak_height r =? weak_height l)%Z.
Qed.

Lemma red_black_pos t n : red_black t n → 0 < n.
Proof. induction 1; lia. Qed.

Lemma red_black_weak_height t n : red_black t n → weak_height t = Z.of_nat n.
Proof.
  induction 1 as [|l a kv r n Hl IHl Hr IHr Hcl Hcr|l a kv r n Hl IHl Hr IHr]; [done|..].
  - pose proof (red_black_pos _ _ Hl). simpl. rewrite Hcl, Hcr, IHl, IHr. simpl.
    destruct (Z.of_nat n =? 0)%Z eqn:E; [lia|]. rewrite Z.eqb_refl. simpl. lia.
  - pose proof (red_black_pos _ _ Hl). simpl. rewrite IHl, IHr.
    destruct (Z.of_nat n =? 0)%Z eqn:E; [lia|]. rewrite Z.eqb_refl. simpl. lia.
Qed.

Lemma weak_height_red_black t :
  weak_height t ≠ 0%Z → ∃ n, red_black t n ∧ weak_height t = Z.of_nat n.
Proof.
  induction t as [|l IHl a kv col r IHr]; simpl.
  { intros _. exists 1. split; [constructor|done]. }
  destruct col; cbn [detail.Color_eqb andb negb Z.b2z].
  - destruct (tree_color l) eqn:Hcl; cbn [detail.Color_eqb orb]; [done|].
    destruct (tree_color r) eqn:Hcr; cbn [detail.Color_eqb]; [done|].
    destruct (weak_height r =? 0)%Z eqn:E0; [done|].
    destruct (weak_height r =? weak_height l)%Z eqn:E1; [|done]. simpl. intros _.
    apply Z.eqb_neq in E0. apply Z.eqb_eq in E1.
    destruct (IHr E0) as (n & Hr & Hn). destruct (IHl ltac:(congruence)) as (n' & Hl & Hn').
    assert (n' = n) as -> by lia.
    exists n. split; [by constructor|lia].
  - destruct (weak_height r =? 0)%Z eqn:E0; [done|].
    destruct (weak_height r =? weak_height l)%Z eqn:E1; [|done]. simpl. intros _.
    apply Z.eqb_neq in E0. apply Z.eqb_eq in E1.
    destruct (IHr E0) as (n & Hr & Hn). destruct (IHl ltac:(congruence)) as (n' & Hl & Hn').
    assert (n' = n) as -> by lia.
    exists (S n). split; [by constructor|lia].
Qed.

(** [isRBTree] on a tree that has a root: it answers whether the root is
    Black and the tree below it is red-black. *)
Lemma isRBTree_wf s t fuel :
  tree_at s t → t ≠ Leaf → size t < fuel →
  ∃ b, isRBTree fuel s = Ret b s
       ∧ (b = true ↔ tree_color t = Black ∧ ∃ n, red_black t n).
Proof.
  intros (Hwf & Hroot & _) Hne Hfuel. unfold isRBTree.
  rewrite (bind_Ret _ _ _ _ _ (eq_refl : get_root s = Ret (root_ (this s)) s)), Hroot.
  destruct t as [|l a kv col r]; [done|].
  pose proof Hwf as (Ha & _). cbn [root]. reads.
  destruct col; cbn [detail.Color_eqb negb].
  { exists false. split; [done|]. split; [done|]. by intros [? _]. }
  change (Some a) with (root (Bin l a kv Black r)).
  rewrite (bind_Ret _ _ _ _ _ (isWeakRBTree_wf s None _ fuel Hwf Hfuel)).
  eexists. split; [reflexivity|]. rewrite negb_true_iff, Z.eqb_neq. split.
  - intros Hh. split; [done|]. destruct (weak_height_red_black _ Hh) as (n & Hn & _). eauto.
  - intros (_ & n & Hn). rewrite (red_black_weak_height _ _ Hn).
    pose proof (red_black_pos _ _ Hn). lia.
Qed.

(** [isRBTree] on an empty tree reads the color of the null root. *)
Lemma isRBTree_empty s fuel :
  root_ (this s) = None → isRBTree fuel s = Abort NullDeref.
Proof. intros Hroot. unfold isRBTree, bind, get_root. by rewrite Hroot. Qed.

End Checker.

(** ** [count], [operator[]], [begin] and the assertions of the rotations *)

Section Reads.
Context {K T Compare : Type} `{!Comparator K Compare} `{!DefaultConstructible T}.
Implicit Types (s : State K T Compare) (t l r m : tree K T) (c : list (frame K T)).

(** Where [findNode] stops and what the equality test of its callers
    finds there. *)
Lemma findNode_cases s t fuel key :
  tree_at s t → size t ≤ fuel →
  ∃ q, findNode fuel key s = Ret q s
    ∧ match lookup (call (compare_ (this s))) key t with
      | Some (a, kv) => q = Some a ∧ ∃ n, heap s !! a = Some n ∧ detail.value n = kv
      | None => q = None ∧ t = Leaf
                ∨ ∃ a n, q = Some a ∧ heap s !! a = Some n
                         ∧ equivb (call (compare_ (this s))) key (detail.value n).1 = false
      end.
Proof.
  intros Ht Hfuel. eexists. split; [by apply findNode_wf|].
  destruct t as [|l a kv c r]; [by left|].
  destruct (search_lookup (call (compare_ (this s))) key (Bin l a kv c r) None)
    as (x & xkv & Hs & Hin & Hl); [done|].
  rewrite Hs, Hl. destruct Ht as (Hwf & _).
  destruct (wf_node _ _ _ _ _ Hwf Hin) as (n & Hn & <-).
  destruct (equivb _ _ _) eqn:E; [eauto|]. right. eauto.
Qed.

Lemma lookup_equiv lt key t a kv :
  lookup lt key t = Some (a, kv) → (a, kv) ∈ nodes t ∧ equivb lt key kv.1 = true.
Proof.
  induction t as [|l IHl x xkv c r IHr]; simpl; [done|].
  destruct (equivb lt key xkv.1) eqn:Heq.
  { intros [= -> ->]. split; [set_solver|done]. }
  destruct (lt key xkv.1); intros H.
  - destruct (IHl H). split; [set_solver|done].
  - destruct (IHr H). split; [set_solver|done].
Qed.

Lemma count_wf s t fuel key :
  tree_at s t → size t ≤ fuel →
  count fuel key s
  = Ret (if lookup (call (compare_ (this s))) key t then 1 else 0)%Z s.
Proof.
  intros Ht Hfuel. unfold count.
  destruct (findNode_cases s t fuel key Ht Hfuel) as (q & Hq & Hcase).
  rewrite (bind_Ret _ _ _ _ _ Hq).
  destruct (lookup _ key t) as [[a kv]|] eqn:Hl.
  - destruct Hcase as (-> & n & Hn & Hv). cbn [is_null]. reads.
    apply lookup_equiv in Hl as [_ Heq]. rewrite Hv, Heq. done.
  - destruct Hcase as [[-> _]|(a & n & -> & Hn & Heq)]; [done|].
    cbn [is_null]. reads. by rewrite Heq.
Qed.

Lemma erase_absent s t fuel key :
  StrictWeakOrder (call (compare_ (this s))) →
  tree_at s t → bst (call (compare_ (this s))) t → size t ≤ fuel →
  ¬ present (call (compare_ (this s))) key t →
  erase fuel key s = Ret false s.
Proof.
  intros Hswo Ht Hbst Hfuel Hnp. unfold erase.
  destruct (findNode_cases s t fuel key Ht Hfuel) as (q & Hq & Hcase).
  rewrite (bind_Ret _ _ _ _ _ Hq).
  apply (lookup_None _ key t Hbst) in Hnp. rewrite Hnp in Hcase.
  destruct Hcase as [[-> _]|(a & n & -> & Hn & Heq)]; [done|].
  cbn [is_null]. reads. by rewrite Heq.
Qed.

(** With no node left to allocate, [insert] of a new key throws before it
    has written anything. *)
Lemma insert_no_memory s t fuel key v :
  StrictWeakOrder (call (compare_ (this s))) →
  tree_at s t → bst (call (compare_ (this s))) t → size t ≤ fuel →
  ¬ present (call (compare_ (this s))) key t → avail s = 0 →
  insert fuel key v s = Throw bad_alloc s.
Proof.
  intros Hswo Ht Hbst Hfuel Hnp Hav. unfold insert.
  destruct (findNode_cases s t fuel key Ht Hfuel) as (q & Hq & Hcase).
  rewrite (bind_Ret _ _ _ _ _ Hq).
  apply (lookup_None _ key t Hbst) in Hnp. rewrite Hnp in Hcase.
  destruct Hcase as [[-> _]|(a & n & -> & Hn & Heq)].
  - unfold insertNode. cbn [is_null]. unfold bind, new_node. by rewrite Hav.
  - unfold insertNode. cbn [is_null]. reads. rewrite Heq.
    unfold bind, new_node. by rewrite Hav.
Qed.


(** [begin()] stands on the node of the smallest entry; on an empty tree it
    is [end()]. *)
Lemma begin_wf s t fuel :
  tree_at s t → size t ≤ fuel → begin_ fuel s = Ret (head (addrs t)) s.
Proof.
  intros (Hwf & Hroot & _) Hfuel. unfold begin_.
  rewrite (bind_Ret _ _ _ _ _ (eq_refl : get_root s = Ret (root_ (this s)) s)), Hroot.
  by apply (minNode_spec s None).
Qed.

(** The rotations refuse a node that lacks the child to be lifted. *)
Lemma rotateLeft_no_right s x n :
  heap s !! x = Some n → detail.right n = None →
  rotateLeft (Some x) s = Abort AssertionFailed.
Proof.
  intros Hx Hr. unfold rotateLeft.
  rewrite (bind_Ret _ _ _ _ _ (get_right_Some _ _ _ Hx)), Hr. done.
Qed.

Lemma rotateRight_no_left s x n :
  heap s !! x = Some n → detail.left n = None →
  rotateRight (Some x) s = Abort AssertionFailed.
Proof.
  intros Hx Hl. unfold rotateRight.
  rewrite (bind_Ret _ _ _ _ _ (get_left_Some _ _ _ Hx)), Hl. done.
Qed.

End Reads.

(** ** [clear] *)

Section ClearFacts.
Context {K T : Type}.
Implicit Types (c sp : list (frame K T)).

Lemma dead_before c a : a ∈ dead c → a ∈ ctx_before c.
Proof. induction c as [|[] c IH]; simpl; set_solver. Qed.

Lemma dead_app c1 c2 : dead (c1 ++ c2) = dead c1 ++ dead c2.
Proof. induction c1 as [|[] c1 IH]; simpl; [done|done|]. by rewrite IH, app_assoc. Qed.

Lemma dead_InL sp : Forall is_InL sp → dead sp = [].
Proof. induction 1 as [|[] sp Hf _ IH]; simpl; done. Qed.

Lemma ctx_rest_app c1 c2 : ctx_rest (c1 ++ c2) = ctx_rest c1 + ctx_rest c2.
Proof. induction c1 as [|[] c1 IH]; simpl; lia. Qed.

Lemma size_plug_InL sp (t : tree K T) :
  Forall is_InL sp → size (plug sp t) = size t + ctx_rest sp.
Proof.
  intros Hsp. revert t. induction Hsp as [|[] sp Hf _ IH]; intros t; simpl; [lia| |done].
  rewrite IH. simpl. lia.
Qed.

Lemma size_plug_rest c (t : tree K T) : size t + ctx_rest c ≤ size (plug c t).
Proof.
  revert t. induction c as [|[] c IH]; intros t; simpl; [lia|..].
  - pose proof (IH (Bin t a kv c0 r)). simpl in *. lia.
  - pose proof (IH (Bin l a kv c0 t)). simpl in *. lia.
Qed.

End ClearFacts.

Section Clear.
Context {K T Compare : Type} `{!Comparator K Compare} `{!DefaultConstructible T}.
Implicit Types (s : State K T Compare) (t l r m : tree K T) (c : list (frame K T)).

Lemma clear_descend_spec s par t fuel :
  wf (heap s) par t → t ≠ Leaf → size t ≤ fuel →
  clear_descend fuel (root t) s = Ret (head (addrs t)) s.
Proof.
  revert par fuel. induction t as [|l IHl a kv col r _]; intros par fuel Hwf Hne Hfuel; [done|].
  destruct Hwf as (Ha & Hl & Hr). simpl in Hfuel.
  destruct fuel as [|fuel]; [lia|]. cbn [clear_descend root].
  exec. destruct l as [|ll la lkv lc lr]; [done|].
  cbn [is_null root negb].
  change (Some la) with (root (Bin ll la lkv lc lr)).
  rewrite (IHl (Some a)); [|done|done|simpl in *; lia].
  simpl. by destruct (addrs ll).
Qed.

Lemma cleared_alive h0 D s a n :
  cleared h0 D s → a ∉ D → h0 !! a = Some n → heap s !! a = Some n.
Proof. intros Hc Ha Hn. by rewrite Hc, bool_decide_eq_false_2. Qed.

Lemma cleared_equiv h0 D D' s :
  (∀ a, a ∈ D ↔ a ∈ D') → cleared h0 D s → cleared h0 D' s.
Proof.
  intros Heq Hc a. rewrite Hc. by rewrite (bool_decide_ext _ _ (Heq a)).
Qed.

Lemma cleared_delete h0 D s x :
  cleared h0 D s → cleared h0 (x :: D) (set_heap (delete x (heap s)) s).
Proof.
  intros Hc a. cbn [heap set_heap]. destruct (decide (a = x)) as [->|Hne].
  - rewrite lookup_delete_eq, bool_decide_eq_true_2; [done|set_solver].
  - rewrite lookup_delete_ne, Hc by done.
    destruct (decide (a ∈ D)).
    + rewrite !bool_decide_eq_true_2; [done|set_solver|done].
    + rewrite !bool_decide_eq_false_2; [done|set_solver|done].
Qed.

Section Walk.
Context (h0 : gmap positive (Node K T)) (t0 : tree K T).
Context (Hwf0 : wf h0 None t0) (Hnd0 : NoDup (addrs t0)).

(** The inner [while] of [clear]: it goes up as long as it comes from the
    right, deleting what it leaves. *)
Lemma clear_ascend_spec fuel : ∀ c l x kv col r s,
  t0 = plug c (Bin l x kv col r) →
  cleared h0 (addrs l ++ addrs r ++ dead c) s →
  length c < fuel →
  ∃ c' l' x' kv' col' r' s',
    clear_ascend fuel (Some x) (ctx_par c) s = Ret (Some x', ctx_par c') s'
    ∧ t0 = plug c' (Bin l' x' kv' col' r')
    ∧ match c' with InR _ _ _ _ :: _ => False | _ => True end
    ∧ cleared h0 (addrs l' ++ addrs r' ++ dead c') s'
    ∧ ctx_rest c' = ctx_rest c
    ∧ next s' = next s ∧ avail s' = avail s ∧ this s' = this s.
Proof.
  induction fuel as [|fuel IH]; intros c l x kv col r s Ht0 Hcl Hfuel; [lia|].
  pose proof Hwf0 as Hwf. rewrite Ht0 in Hwf. apply wf_plug in Hwf as (Hctx & Hx & Hl & Hr).
  pose proof Hnd0 as Hnd. rewrite Ht0, addrs_plug in Hnd. simpl in Hnd.
  destruct c as [|[a akv acol ra|la a akv acol] c1].
  - exists [], l, x, kv, col, r, s. by split_and!.
  - exists (InL a akv acol ra :: c1), l, x, kv, col, r, s.
    destruct Hctx as (Ha & Hra & Hctx1). simpl in Hnd, Hcl.
    assert (a ∉ addrs l ++ addrs r ++ dead c1) as Hadead.
    { intros Hin. apply elem_of_app in Hin as [Hin|[Hin|Hin%dead_before]%elem_of_app];
        revert Hin; nd Hnd. }
    pose proof (cleared_alive _ _ _ _ _ Hcl Hadead Ha) as Ha'.
    assert (ptr_eqb (root ra) (Some x) = false) as Hne.
    { unfold ptr_eqb. apply bool_decide_eq_false_2. intros Heq. apply root_in in Heq.
      revert Heq. nd Hnd. }
    split_and!; try done.
    cbn [clear_ascend ctx_par frame_addr is_null]. reads. by rewrite Hne.
  - destruct Hctx as (Ha & Hla & Hctx1). simpl in Hnd, Hcl, Hfuel.
    assert (a ∉ addrs l ++ addrs r ++ addrs la ++ dead c1) as Hadead.
    { intros Hin.
      apply elem_of_app in Hin as [Hin|[Hin|[Hin|Hin%dead_before]%elem_of_app]%elem_of_app];
        revert Hin; nd Hnd. }
    assert (x ∉ addrs l ++ addrs r ++ addrs la ++ dead c1) as Hxdead.
    { intros Hin.
      apply elem_of_app in Hin as [Hin|[Hin|[Hin|Hin%dead_before]%elem_of_app]%elem_of_app];
        revert Hin; nd Hnd. }
    assert (a ≠ x) as Hax by nd Hnd.
    pose proof (cleared_alive _ _ _ _ _ Hcl Hadead Ha) as Ha'.
    pose proof (cleared_alive _ _ _ _ _ Hcl Hxdead Hx) as Hx'.
    destruct (IH c1 la a akv acol (Bin l x kv col r) (set_heap (delete x (heap s)) s))
      as (c' & l' & x' & kv' & col' & r' & s' & Hrun & Ht0' & Hc' & Hcl' & Hrest & Hn & Hav & Hth);
      [by rewrite Ht0| |lia|].
    { apply (cleared_equiv h0 (x :: addrs l ++ addrs r ++ addrs la ++ dead c1));
        [|by apply cleared_delete].
      intros b. simpl. clear. set_solver. }
    exists c', l', x', kv', col', r', s'. split_and!; try done.
    cbn [clear_ascend ctx_par frame_addr is_null]. reads. rewrite ptr_eqb_refl.
    rewrite (bind_Ret _ _ _ _ _ (delete_node_Some _ _ _ Hx')). reads.
    exact Hrun.
Qed.

(** The outer [while] of [clear], from a node whose left subtree is gone
    already. *)
Lemma clear_loop_spec fuel : ∀ c l x kv col r s,
  t0 = plug c (Bin l x kv col r) →
  cleared h0 (addrs l ++ dead c) s →
  size t0 + size r + ctx_rest c + 2 ≤ fuel →
  ∃ s', clear_loop fuel (Some x) s = Ret tt s'
        ∧ cleared h0 (addrs t0) s'
        ∧ next s' = next s ∧ avail s' = avail s ∧ this s' = this s.
Proof.
  induction fuel as [|fuel IH]; intros c l x kv col r s Ht0 Hcl Hfuel; [lia|].
  pose proof Hwf0 as Hwf. rewrite Ht0 in Hwf. apply wf_plug in Hwf as (Hctx & Hx & Hl & Hr).
  pose proof Hnd0 as Hnd. rewrite Ht0, addrs_plug in Hnd. simpl in Hnd.
  pose proof (size_plug c (Bin l x kv col r)) as Hsz. rewrite <- Ht0 in Hsz. simpl in Hsz.
  assert (x ∉ addrs l ++ dead c) as Hxdead.
  { intros Hin. apply elem_of_app in Hin as [Hin|Hin%dead_before]; revert Hin; nd Hnd. }
  pose proof (cleared_alive _ _ _ _ _ Hcl Hxdead Hx) as Hx'.
  cbn [clear_loop is_null]. reads.
  destruct r as [|rl ra rkv rc rr].
  - (* no right subtree: the node and the ancestors it closes are deleted *)
    cbn [root is_null negb]. reads.
    destruct (clear_ascend_spec fuel c l x kv col Leaf s Ht0)
      as (c' & l' & x' & kv' & col' & r' & s1 & Hrun & Ht0' & Hc' & Hcl' & Hrest & Hn & Hav & Hth);
      [by (eapply cleared_equiv; [|exact Hcl])|lia|].
    rewrite (bind_Ret _ _ _ _ _ Hrun).
    pose proof Hwf0 as Hwf'. rewrite Ht0' in Hwf'.
    apply wf_plug in Hwf' as (Hctx' & Hx1 & Hl' & Hr').
    pose proof Hnd0 as Hnd'. rewrite Ht0', addrs_plug in Hnd'. simpl in Hnd'.
    assert (x' ∉ addrs l' ++ addrs r' ++ dead c') as Hx1dead.
    { intros Hin. apply elem_of_app in Hin as [Hin|[Hin|Hin%dead_before]%elem_of_app];
        revert Hin; nd Hnd'. }
    pose proof (cleared_alive _ _ _ _ _ Hcl' Hx1dead Hx1) as Hx1'.
    rewrite (bind_Ret _ _ _ _ _ (delete_node_Some _ _ _ Hx1')).
    pose proof (cleared_delete _ _ _ x' Hcl') as Hcl2.
    destruct c' as [|[a akv acol ra|] c2]; [| |done].
    + destruct fuel as [|fuel]; [lia|]. eexists. split; [reflexivity|].
      split_and!; try done.
      eapply cleared_equiv; [|exact Hcl2]. intros b. rewrite Ht0'. simpl. clear. set_solver.
    + destruct (IH c2 (Bin l' x' kv' col' r') a akv acol ra (set_heap (delete x' (heap s1)) s1))
        as (s' & Hloop & Hfin & Hn' & Hav' & Hth'); [by rewrite Ht0'| |simpl in *; lia|].
      { eapply cleared_equiv; [|exact Hcl2]. intros b. simpl. clear. set_solver. }
      cbn [set_heap next avail this] in Hn', Hav', Hth'.
      exists s'. split; [exact Hloop|]. split_and!; try done; congruence.
  - (* a right subtree: on to its leftmost node *)
    destruct (leftmost (Bin rl ra rkv rc rr)) as (sp & y & ykv & yc & yr & Hrsp & Hsp); [done|].
    cbn [root is_null negb]. reads.
    assert (wf (heap s) (Some x) (Bin rl ra rkv rc rr)) as Hr'.
    { eapply wf_frame; [|exact Hr]. intros b Hb. rewrite Hcl, bool_decide_eq_false_2; [done|].
      intros Hin. apply elem_of_app in Hin as [Hin|Hin%dead_before]; revert Hb Hin.
      - intros Hb Hin. assert (NoDup (addrs l ++ addrs (Bin rl ra rkv rc rr))) as Hd by nd Hnd.
        apply NoDup_app in Hd as (_ & Hd & _). by apply (Hd b).
      - intros Hb Hin.
        assert (NoDup (ctx_before c ++ addrs (Bin rl ra rkv rc rr))) as Hd by nd Hnd.
        apply NoDup_app in Hd as (_ & Hd & _). by apply (Hd b). }
    change (Some ra) with (root (Bin rl ra rkv rc rr)).
    rewrite (bind_Ret _ _ _ _ _ (clear_descend_spec s (Some x) _ fuel Hr' ltac:(done)
                                  ltac:(simpl in *; lia))).
    assert (head (addrs (Bin rl ra rkv rc rr)) = Some y) as ->.
    { rewrite Hrsp, addrs_plug, (ctx_before_InL sp Hsp). done. }
    destruct (IH (sp ++ InR l x kv col :: c) Leaf y ykv yc yr s)
      as (s' & Hloop & Hfin); [| | |by exists s'].
    + rewrite Ht0, Hrsp. by rewrite plug_app.
    + rewrite dead_app, (dead_InL sp Hsp). exact Hcl.
    + rewrite ctx_rest_app. cbn [ctx_rest].
      pose proof (size_plug_InL sp (Bin Leaf y ykv yc yr) Hsp) as Hs. rewrite <- Hrsp in Hs.
      simpl in Hs. simpl in Hfuel. lia.
Qed.

End Walk.

(** [clear] deletes every node of the tree and nothing else, and leaves
    the root pointer null. *)
Lemma clear_spec s t fuel :
  tree_at s t → 2 * size t + 2 ≤ fuel →
  ∃ s', clear fuel s = Ret tt s'
        ∧ cleared (heap s) (addrs t) s'
        ∧ root_ (this s') = None
        ∧ compare_ (this s') = compare_ (this s)
        ∧ next s' = next s ∧ avail s' = avail s.
Proof.
  intros (Hwf & Hroot & Hnd) Hfuel. unfold clear.
  rewrite (bind_Ret _ _ _ _ _ (eq_refl : get_root s = Ret (root_ (this s)) s)), Hroot.
  rewrite (bind_Ret _ _ _ _ _ (minNode_spec s None t fuel Hwf ltac:(lia))).
  destruct t as [|tl ta tkv tc tr].
  { destruct fuel as [|fuel]; [lia|]. eexists. split; [reflexivity|].
    split_and!; done. }
  destruct (leftmost (Bin tl ta tkv tc tr)) as (sp & y & ykv & yc & yr & Ht & Hsp); [done|].
  assert (head (addrs (Bin tl ta tkv tc tr)) = Some y) as ->.
  { rewrite Ht, addrs_plug, (ctx_before_InL sp Hsp). done. }
  destruct (clear_loop_spec (heap s) (Bin tl ta tkv tc tr) Hwf Hnd fuel sp Leaf y ykv yc yr s)
    as (s' & Hloop & Hfin & Hn & Hav & Hth); [done| |..].
  - intros a. rewrite (dead_InL sp Hsp). by rewrite bool_decide_eq_false_2 by set_solver.
  - pose proof (size_plug_InL sp (Bin Leaf y ykv yc yr) Hsp) as Hs. rewrite <- Ht in Hs.
    cbn [size] in Hs, Hfuel |- *. lia.
  - rewrite (bind_Ret _ _ _ _ _ Hloop). eexists. split; [reflexivity|].
    unfold set_root, set_this. cbn [heap this root_ compare_ next avail].
    split_and!; try done. by rewrite Hth.
Qed.

End Clear.

(** ** [copyTree] and the copy constructor *)

Section CloneFacts.
Context {K T : Type}.
Implicit Types (t l r : tree K T) (c sp : list (frame K T)).

Lemma ctx_todo_app c1 c2 : ctx_todo (c1 ++ c2) = ctx_todo c1 + ctx_todo c2.
Proof. induction c1 as [|[] c1 IH]; simpl; lia. Qed.

Lemma ctx_rest_InL sp : Forall is_InL sp → ctx_rest sp = length sp + ctx_todo sp.
Proof. induction 1 as [|[] sp Hf _ IH]; simpl; [done| |done]. lia. Qed.

Lemma ctx_todo_le_rest c : ctx_todo c ≤ ctx_rest c.
Proof. induction c as [|[] c IH]; simpl; lia. Qed.

Lemma clone_at_entries top t t' : clone_at top t t' → entries t' = entries t.
Proof.
  revert top t'. induction t as [|l IHl a kv col r IHr]; intros top [|l' a' kv' col' r']; simpl; try done.
  intros (-> & _ & Hl & Hr). by rewrite (IHl _ _ Hl), (IHr _ _ Hr).
Qed.

Lemma clone_at_size top t t' : clone_at top t t' → size t' = size t.
Proof.
  revert top t'. induction t as [|l IHl a kv col r IHr]; intros top [|l' a' kv' col' r']; simpl; try done.
  intros (_ & _ & Hl & Hr). by rewrite (IHl _ _ Hl), (IHr _ _ Hr).
Qed.

Lemma clone_at_black t t' : tree_color t = Black → clone_at true t t' → clone_at false t t'.
Proof. destruct t, t'; simpl; try done. intros -> (? & ? & ? & ?). done. Qed.

End CloneFacts.

Section Copy.
Context {K T Compare : Type} `{!Comparator K Compare} `{!DefaultConstructible T}.
Implicit Types (s : State K T Compare) (t l r m : tree K T) (c : list (frame K T)).

Lemma attach_right_col s c l x kv col e ecol nx av :
  tree_at s (plug c (Bin l x kv col Leaf)) → heap s !! next s = None →
  tree_at
    (mkState (<[x := detail.mkNode kv col (ctx_par c) (root l) (Some (next s))]>
                (<[next s := detail.mkNode e ecol (Some x) None None]> (heap s)))
             nx av (this s))
    (plug c (Bin l x kv col (Bin Leaf (next s) e ecol Leaf))).
Proof.
  intros Ht Hfresh. pose proof Ht as (Hctx & Hwf & Hroot & Hnd)%tree_at_plug.
  destruct Hwf as (Hx & Hl & _).
  assert (∀ y, y ∈ addrs (plug c (Bin l x kv col Leaf)) → y ≠ next s) as Hn.
  { intros y Hy ->. destruct Ht as (Hwf & _).
    destruct (wf_allocated _ _ _ _ Hwf Hy) as [? ?]. congruence. }
  rewrite addrs_plug in Hn. simpl in Hn, Hnd.
  assert (x ∉ ctx_addrs c ∧ x ∉ addrs l) as (Hxc & Hxl).
  { unfold ctx_addrs. split; nd Hnd. }
  apply tree_at_plug. cbn [heap this root]. split_and!.
  - eapply wf_ctx_frame; [|done]. intros y Hy.
    rewrite !lookup_insert_ne; [done|..].
    + apply not_eq_sym, Hn. unfold ctx_addrs in Hy. set_solver.
    + by intros ->.
  - simpl. rewrite lookup_insert_eq, lookup_insert_ne, lookup_insert_eq.
    2:{ apply Hn. set_solver. }
    split_and!; try done.
    eapply wf_frame; [|done]. intros y Hy.
    rewrite !lookup_insert_ne; [done|..].
    + apply not_eq_sym, Hn. set_solver.
    + by intros ->.
  - rewrite Hroot, !(root_plug c (Bin _ _ _ _ _)). by destruct c.
  - simpl.
    assert (ctx_before c ++ (addrs l ++ [x; next s]) ++ ctx_after c
            ≡ₚ next s :: ctx_before c ++ (addrs l ++ [x]) ++ ctx_after c) as Hp
      by solve_Permutation.
    rewrite Hp. apply NoDup_cons. split; [|done].
    intros Hin. by apply (Hn _ Hin).
Qed.

Lemma attach_left_col s c r x kv col e ecol nx av :
  tree_at s (plug c (Bin Leaf x kv col r)) → heap s !! next s = None →
  tree_at
    (mkState (<[x := detail.mkNode kv col (ctx_par c) (Some (next s)) (root r)]>
                (<[next s := detail.mkNode e ecol (Some x) None None]> (heap s)))
             nx av (this s))
    (plug c (Bin (Bin Leaf (next s) e ecol Leaf) x kv col r)).
Proof.
  intros Ht Hfresh. pose proof Ht as (Hctx & Hwf & Hroot & Hnd)%tree_at_plug.
  destruct Hwf as (Hx & _ & Hr).
  assert (∀ y, y ∈ addrs (plug c (Bin Leaf x kv col r)) → y ≠ next s) as Hn.
  { intros y Hy ->. destruct Ht as (Hwf & _).
    destruct (wf_allocated _ _ _ _ Hwf Hy) as [? ?]. congruence. }
  rewrite addrs_plug in Hn. simpl in Hn, Hnd.
  assert (x ∉ ctx_addrs c ∧ x ∉ addrs r) as (Hxc & Hxl).
  { unfold ctx_addrs. split; nd Hnd. }
  apply tree_at_plug. cbn [heap this root]. split_and!.
  - eapply wf_ctx_frame; [|done]. intros y Hy.
    rewrite !lookup_insert_ne; [done|..].
    + apply not_eq_sym, Hn. unfold ctx_addrs in Hy. set_solver.
    + by intros ->.
  - simpl. rewrite lookup_insert_eq, lookup_insert_ne, lookup_insert_eq.
    2:{ apply Hn. set_solver. }
    split_and!; try done.
    eapply wf_frame; [|done]. intros y Hy.
    rewrite !lookup_insert_ne; [done|..].
    + apply not_eq_sym, Hn. set_solver.
    + by intros ->.
  - rewrite Hroot, !(root_plug c (Bin _ _ _ _ _)). by destruct c.
  - simpl.
    assert (ctx_before c ++ (next s :: x :: addrs r) ++ ctx_after c
            ≡ₚ next s :: ctx_before c ++ (x :: addrs r) ++ ctx_after c) as Hp
      by solve_Permutation.
    rewrite Hp. apply NoDup_cons. split; [|done].
    intros Hin. by apply (Hn _ Hin).
Qed.

Section Walk.
Context (h0 : gmap positive (Node K T)) (n0 : positive) (av0 : nat) (tsrc : tree K T).
Context (Hsrc : wf h0 None tsrc) (Hsrc_lt : ∀ a, a ∈ addrs tsrc → (a < n0)%positive).

Lemma copying_src s T' : copying h0 n0 av0 s T' → wf (heap s) None tsrc.
Proof using Hsrc Hsrc_lt.
  intros (_ & _ & Hlow & _). eapply wf_frame; [|exact Hsrc].
  intros a Ha. apply Hlow. by apply Hsrc_lt.
Qed.

Lemma copying_attach_left s c x kv col r e ecol k :
  copying h0 n0 av0 s (plug c (Bin Leaf x kv col r)) → avail s = S k →
  copying h0 n0 av0 (mkState (<[x := detail.mkNode kv col (ctx_par c) (Some (next s)) (root r)]>
                      (<[next s := detail.mkNode e ecol (Some x) None None]> (heap s)))
                   (Pos.succ (next s)) k (this s))
          (plug c (Bin (Bin Leaf (next s) e ecol Leaf) x kv col r)).
Proof.
  intros (Ht & Hrange & Hlow & Hhigh & Hsz) Hav.
  assert (n0 ≤ x < next s)%positive as Hx.
  { apply Hrange. rewrite addrs_plug. simpl. set_solver. }
  unfold copying. cbn [heap next avail]. split_and!.
  - apply attach_left_col; [done|]. apply Hhigh. lia.
  - intros a. rewrite addrs_plug. rewrite addrs_plug in Hrange. simpl in *.
    specialize (Hrange a).
    destruct (decide (a = next s)) as [->|Hne].
    + split; [lia|]. intros _. clear. set_solver.
    + transitivity (n0 ≤ a < next s)%positive; [|lia]. rewrite <- Hrange.
      clear -Hne. set_solver.
  - intros a Ha. rewrite !lookup_insert_ne by lia. by apply Hlow.
  - intros a Ha. rewrite !lookup_insert_ne by lia. apply Hhigh. lia.
  - pose proof (size_plug_rest c (Bin Leaf x kv col r)).
    assert (size (plug c (Bin (Bin Leaf (next s) e ecol Leaf) x kv col r))
            = S (size (plug c (Bin Leaf x kv col r)))) as ->; [|lia].
    rewrite !size_nodes, <- !(length_fmap fst), <- !addrs_nodes, !addrs_plug.
    simpl. rewrite ?length_app. simpl. rewrite ?length_app. simpl. lia.
Qed.

Lemma copying_attach_right s c l x kv col e ecol k :
  copying h0 n0 av0 s (plug c (Bin l x kv col Leaf)) → avail s = S k →
  copying h0 n0 av0 (mkState (<[x := detail.mkNode kv col (ctx_par c) (root l) (Some (next s))]>
                      (<[next s := detail.mkNode e ecol (Some x) None None]> (heap s)))
                   (Pos.succ (next s)) k (this s))
          (plug c (Bin l x kv col (Bin Leaf (next s) e ecol Leaf))).
Proof.
  intros (Ht & Hrange & Hlow & Hhigh & Hsz) Hav.
  assert (n0 ≤ x < next s)%positive as Hx.
  { apply Hrange. rewrite addrs_plug. simpl. set_solver. }
  unfold copying. cbn [heap next avail]. split_and!.
  - apply attach_right_col; [done|]. apply Hhigh. lia.
  - intros a. rewrite addrs_plug. rewrite addrs_plug in Hrange. simpl in *.
    specialize (Hrange a).
    destruct (decide (a = next s)) as [->|Hne].
    + split; [lia|]. intros _. clear. set_solver.
    + transitivity (n0 ≤ a < next s)%positive; [|lia]. rewrite <- Hrange.
      clear -Hne. set_solver.
  - intros a Ha. rewrite !lookup_insert_ne by lia. by apply Hlow.
  - intros a Ha. rewrite !lookup_insert_ne by lia. apply Hhigh. lia.
  - assert (size (plug c (Bin l x kv col (Bin Leaf (next s) e ecol Leaf)))
            = S (size (plug c (Bin l x kv col Leaf)))) as ->; [|lia].
    rewrite !size_nodes, <- !(length_fmap fst), <- !addrs_nodes, !addrs_plug.
    simpl. rewrite ?length_app. simpl. rewrite ?length_app. simpl. lia.
Qed.

(** The cells of the source and of the copy at the two places of the
    walk. *)
Lemma copying_cells s c l x kv col r c' l' x' kv' col' r' :
  tsrc = plug c (Bin l x kv col r) →
  copying h0 n0 av0 s (plug c' (Bin l' x' kv' col' r')) →
  heap s !! x = Some (detail.mkNode kv col (ctx_par c) (root l) (root r))
  ∧ heap s !! x' = Some (detail.mkNode kv' col' (ctx_par c') (root l') (root r'))
  ∧ x ≠ x' ∧ x ≠ next s ∧ x' ≠ next s
  ∧ wf (heap s) (Some x) l ∧ wf (heap s) (Some x) r
  ∧ wf_ctx (heap s) c (Some x)
  ∧ ∀ a, a ∈ addrs tsrc → a ≠ x' ∧ a ≠ next s.
Proof using Hsrc Hsrc_lt.
  intros Ht Hc. pose proof (copying_src _ _ Hc) as Hwf. rewrite Ht in Hwf.
  apply wf_plug in Hwf as (Hctx & Hx & Hl & Hr).
  destruct Hc as (Htc & Hrange & _ & Hhigh & _).
  pose proof Htc as (_ & (Hx' & _) & _)%tree_at_plug.
  assert (x < n0)%positive.
  { apply Hsrc_lt. rewrite Ht, addrs_plug. simpl. set_solver. }
  assert (n0 ≤ x' < next s)%positive.
  { apply Hrange. rewrite addrs_plug. simpl. set_solver. }
  split_and!; try done; try lia.
  intros a Ha%Hsrc_lt. lia.
Qed.

(** The lambda [gotoMinCopying]: it copies the left spine below the node
    it starts from, as far as there are nodes to allocate. *)
Lemma gotoMinCopying_spec : ∀ yl fuel cy y ykv yc yr cy' y' s,
  tsrc = plug cy (Bin yl y ykv yc yr) →
  copying h0 n0 av0 s (plug cy' (Bin Leaf y' ykv (copy_color cy yc) Leaf)) →
  clone_ctx cy cy' →
  size yl < fuel →
  match gotoMinCopying fuel (Some y) (Some y') s with
  | Ret ft s' =>
      ∃ sp z zkv zc zr sp' z',
        ft = (Some z, Some z') ∧ Forall is_InL sp
        ∧ Bin yl y ykv yc yr = plug sp (Bin Leaf z zkv zc zr)
        ∧ copying h0 n0 av0 s' (plug (sp' ++ cy') (Bin Leaf z' zkv (copy_color (sp ++ cy) zc) Leaf))
        ∧ clone_ctx (sp ++ cy) (sp' ++ cy')
        ∧ avail s' + length sp = avail s ∧ this s' = this s
  | Throw e s' =>
      e = bad_alloc ∧ avail s < size yl ∧ ∃ T', copying h0 n0 av0 s' T' ∧ this s' = this s
  | _ => False
  end.
Proof using Hsrc Hsrc_lt.
  induction yl as [|yll IH yla ylkv ylc ylr _];
    intros fuel cy y ykv yc yr cy' y' s Ht Hc Hctx Hfuel;
    (destruct fuel as [|fuel]; [simpl in Hfuel; lia|]);
    destruct (copying_cells _ _ _ _ _ _ _ _ _ _ _ _ _ Ht Hc)
      as (Hy & Hy' & Hyy' & Hyn & Hy'n & Hwl & _ & _ & Hsrc_ne);
    cbn [gotoMinCopying root] in *.
  - reads. exists [], y, ykv, yc, yr, [], y'. by split_and!.
  - destruct Hwl as (Hyla & _). simpl in Hfuel.
    assert (yla ≠ y' ∧ yla ≠ next s) as (Hla1 & Hla2).
    { apply Hsrc_ne. rewrite Ht, addrs_plug. simpl. set_solver. }
    reads.
    destruct (avail s) as [|k] eqn:Hav.
    { unfold bind at 1, new_node. rewrite Hav. split_and!; [done|simpl; lia|].
      eexists. split; [exact Hc|done]. }
    rewrite (bind_Ret _ _ _ _ _ (new_node_eq s _ _ _ k Hav)). exec.
    pose proof (copying_attach_left s cy' y' ykv _ Leaf ylkv ylc k Hc Hav) as Hc2.
    cbn [root] in Hc2.
    specialize (IH fuel (InL y ykv yc yr :: cy) yla ylkv ylc ylr
                  (InL y' ykv (copy_color cy yc) Leaf :: cy') (next s) _
                  ltac:(by rewrite Ht) Hc2 ltac:(by split_and!) ltac:(lia)).
    cbn [heap next avail this] in IH.
    match goal with |- match ?m with _ => _ end => destruct m as [[from to] s'|e s'| |] end;
      [| |done..].
    + destruct IH as (sp & z & zkv & zc & zr & sp' & z' & Hft & Hsp & Hpl & Hc' & Hctx' & Hav' & Hth).
      exists (sp ++ [InL y ykv yc yr]), z, zkv, zc, zr,
             (sp' ++ [InL y' ykv (copy_color cy yc) Leaf]), z'.
      rewrite <- !app_assoc. cbn [app]. split_and!; try done.
      * apply Forall_app. split; [done|]. by apply Forall_singleton.
      * rewrite plug_app. cbn [plug fill]. by rewrite Hpl.
      * rewrite length_app. simpl. lia.
    + destruct IH as (-> & Hlt & T' & HT' & Hth). split_and!; [done|simpl; lia|]. by exists T'.
Qed.

Context (Hsrc_nd : NoDup (addrs tsrc)).

(** The inner [while] of [copyTree]: both walks go up as long as the
    source walk comes from the right; nothing is written. *)
Lemma copyTree_ascend_spec fuel : ∀ c l x kv col r c' l' x' r' s,
  tsrc = plug c (Bin l x kv col r) →
  copying h0 n0 av0 s (plug c' (Bin l' x' kv (copy_color c col) r')) →
  clone_ctx c c' → clone_at false l l' → clone_at false r r' →
  length c < fuel →
  ∃ ck lk xk kvk colk rk ck' lk' xk' rk',
    copyTree_ascend fuel (Some x) (Some x') (ctx_par c) s
    = Ret (Some xk, Some xk', ctx_par ck) s
    ∧ tsrc = plug ck (Bin lk xk kvk colk rk)
    ∧ plug c' (Bin l' x' kv (copy_color c col) r')
      = plug ck' (Bin lk' xk' kvk (copy_color ck colk) rk')
    ∧ clone_ctx ck ck' ∧ clone_at false lk lk' ∧ clone_at false rk rk'
    ∧ match ck with InR _ _ _ _ :: _ => False | _ => True end
    ∧ ctx_todo ck = ctx_todo c ∧ ctx_rest ck = ctx_rest c.
Proof using Hsrc Hsrc_lt Hsrc_nd.
  induction fuel as [|fuel IH]; intros c l x kv col r c' l' x' r' s Ht Hc Hctx Hl Hr Hfuel; [lia|].
  destruct (copying_cells _ _ _ _ _ _ _ _ _ _ _ _ _ Ht Hc)
    as (Hx & Hx' & Hxx' & Hxn & Hx'n & _ & _ & Hwc & Hsrc_ne).
  pose proof Hsrc_nd as Hnd. rewrite Ht, addrs_plug in Hnd. simpl in Hnd.
  destruct c as [|[a akv acol ra|la a akv acol] c1].
  - destruct c' as [|? ?]; [|done].
    exists [], l, x, kv, col, r, [], l', x', r'. by split_and!.
  - destruct c' as [|[a' akv' acol' ra'|] c1']; [done| |done].
    exists (InL a akv acol ra :: c1), l, x, kv, col, r, (InL a' akv' acol' ra' :: c1'), l', x', r'.
    destruct Hwc as (Ha & _ & _).
    assert (ptr_eqb (root ra) (Some x) = false) as Hne.
    { unfold ptr_eqb. apply bool_decide_eq_false_2. intros Heq. apply root_in in Heq.
      revert Heq. nd Hnd. }
    split_and!; try done.
    cbn [copyTree_ascend ctx_par frame_addr is_null]. reads. by rewrite Hne.
  - destruct c' as [|[|la' a' akv' acol'] c1']; [done|done|].
    destruct Hwc as (Ha & _ & _). destruct Hctx as (-> & -> & Hla & Hctx1).
    simpl in Hfuel.
    destruct (IH c1 la a akv acol (Bin l x kv col r) c1' la' a' (Bin l' x' kv col r') s)
      as (ck & lk & xk & kvk & colk & rk & ck' & lk' & xk' & rk'
          & Hrun & Htk & Hpk & Hck & Hlk & Hrk & Hsh & Htodo & Hrest);
      [by rewrite Ht|exact Hc|done|done|by split_and!|lia|].
    exists ck, lk, xk, kvk, colk, rk, ck', lk', xk', rk'. split_and!; try done.
    cbn [copyTree_ascend ctx_par frame_addr is_null]. reads. rewrite ptr_eqb_refl.
    reads. exact Hrun.
Qed.

(** The outer [while] of [copyTree], from a node whose left subtree is
    copied and whose right subtree is not. *)
Lemma copyTree_loop_spec fuel : ∀ c l x kv col r c' l' x' s,
  tsrc = plug c (Bin l x kv col r) →
  copying h0 n0 av0 s (plug c' (Bin l' x' kv (copy_color c col) Leaf)) →
  clone_ctx c c' → clone_at false l l' →
  size tsrc + size r + ctx_rest c + 2 ≤ fuel →
  match copyTree_loop fuel (Some x) (Some x') s with
  | Ret _ s' =>
      avail s' + (size r + ctx_todo c) = avail s
      ∧ ∃ T', copying h0 n0 av0 s' T' ∧ clone_at true tsrc T' ∧ this s' = this s
  | Throw e s' =>
      e = bad_alloc ∧ avail s < size r + ctx_todo c
      ∧ ∃ T', copying h0 n0 av0 s' T' ∧ this s' = this s
  | _ => False
  end.
Proof using Hsrc Hsrc_lt Hsrc_nd.
  induction fuel as [|fuel IH]; intros c l x kv col r c' l' x' s Ht Hc Hctx Hl Hfuel; [lia|].
  destruct (copying_cells _ _ _ _ _ _ _ _ _ _ _ _ _ Ht Hc)
    as (Hx & Hx' & Hxx' & Hxn & Hx'n & _ & Hwr & Hwc & Hsrc_ne).
  pose proof (size_plug c (Bin l x kv col r)) as Hsz. rewrite <- Ht in Hsz. simpl in Hsz.
  cbn [copyTree_loop is_null]. reads.
  destruct r as [|rl ra rkv rc rr].
  - (* no right subtree: up to the next node in order *)
    cbn [root is_null negb]. reads.
    destruct (copyTree_ascend_spec fuel c l x kv col Leaf c' l' x' Leaf s Ht Hc Hctx Hl I
                ltac:(lia))
      as (ck & lk & xk & kvk & colk & rk & ck' & lk' & xk' & rk'
          & Hrun & Htk & Hpk & Hck & Hlk & Hrk & Hsh & Htodo & Hrest).
    rewrite (bind_Ret _ _ _ _ _ Hrun). rewrite Hpk in Hc.
    destruct (copying_cells _ _ _ _ _ _ _ _ _ _ _ _ _ Htk Hc) as (_ & Hxk' & _).
    reads.
    destruct ck as [|[a akv acol ra|] c2]; [| |done].
    + destruct ck' as [|? ?]; [|done]. destruct fuel as [|fuel]; [lia|].
      cbn [ctx_par copyTree_loop is_null]. unfold ret. simpl in Htodo. split; [simpl; lia|].
      eexists. split; [exact Hc|]. split; [|done]. rewrite Htk. by split_and!.
    + destruct ck' as [|[a' akv' acol' ra'|] c2']; [done| |done].
      destruct Hck as (-> & -> & -> & Hc2).
      specialize (IH c2 (Bin lk xk kvk colk rk) a akv acol ra c2'
                    (Bin lk' xk' kvk colk rk') a' s
                    ltac:(by rewrite Htk) Hc Hc2 ltac:(by split_and!)
                    ltac:(simpl in *; lia)).
      cbn [ctx_par frame_addr].
      match goal with |- match ?m with _ => _ end => destruct m as [[] s'|e s'| |] end;
        [| |done..].
      * destruct IH as (Hav' & T' & HT' & Hcl & Hth). simpl in Htodo.
        split; [simpl; lia|]. by exists T'.
      * destruct IH as (-> & Hlt & T' & HT' & Hth). simpl in Htodo.
        split_and!; [done|simpl; lia|]. by exists T'.
  - (* a right subtree: its root is copied, then its left spine *)
    destruct Hwr as (Hra & _).
    assert (ra ≠ x' ∧ ra ≠ next s) as (Hra1 & Hra2).
    { apply Hsrc_ne. rewrite Ht, addrs_plug. simpl. set_solver. }
    cbn [root is_null negb]. reads.
    destruct (avail s) as [|k] eqn:Hav.
    { unfold bind at 1, new_node. rewrite Hav. split_and!; [done|simpl; lia|].
      eexists. split; [exact Hc|done]. }
    rewrite (bind_Ret _ _ _ _ _ (new_node_eq s _ _ _ k Hav)). exec.
    pose proof (copying_attach_right s c' l' x' kv _ rkv rc k Hc Hav) as Hc2.
    pose proof (gotoMinCopying_spec rl fuel (InR l x kv col :: c) ra rkv rc rr
                  (InR l' x' kv (copy_color c col) :: c') (next s) _
                  ltac:(by rewrite Ht) Hc2 ltac:(by split_and!) ltac:(simpl in *; lia)) as Hgo.
    cbn [heap next avail this] in Hgo.
    match goal with |- match bind ?m _ ?st with _ => _ end =>
      change st with st in Hgo; destruct (m st) as [ft s1|e s1| |] eqn:Egoto end;
      [| |done..].
    + destruct Hgo as (sp & z & zkv & zc & zr & sp' & z' & -> & Hsp & Hpl & Hc3 & Hctx3 & Hav3 & Hth3).
      rewrite (bind_Ret _ _ _ _ _ Egoto). cbn [fst snd].
      specialize (IH (sp ++ InR l x kv col :: c) Leaf z zkv zc zr
                    (sp' ++ InR l' x' kv (copy_color c col) :: c') Leaf z' s1).
      pose proof (size_plug_InL sp (Bin Leaf z zkv zc zr) Hsp) as Hs. rewrite <- Hpl in Hs.
      pose proof (ctx_rest_InL sp Hsp) as Hrs.
      cbn [size] in Hs, Hfuel.
      specialize (IH ltac:(by rewrite Ht, Hpl, plug_app) Hc3 Hctx3 I
                    ltac:(rewrite ctx_rest_app; cbn [ctx_rest]; lia)).
      rewrite ctx_todo_app in IH. cbn [ctx_todo] in IH.
      match goal with |- match ?m with _ => _ end => destruct m as [[] s'|e s'| |] end;
        [| |done..].
      * destruct IH as (Hav' & T' & HT' & Hcl & Hth). cbn [size].
        split; [lia|]. exists T'. split_and!; [done|done|congruence].
      * destruct IH as (-> & Hlt & T' & HT' & Hth). cbn [size].
        split_and!; [done|lia|]. exists T'. split; [done|congruence].
    + destruct Hgo as (-> & Hlt & T' & HT' & Hth).
      unfold bind at 1. rewrite Egoto. cbn [size].
      split_and!; [done|lia|]. by exists T'.
Qed.

End Walk.

(** The body of the [try] block of the copy constructor. *)
Lemma copy_body_spec s src l x kv col r fuel :
  let t := Bin l x kv col r in
  wf (heap s) None t → root_ src = root t → NoDup (addrs t) → alloc_ok s →
  2 * size t + 1 ≤ fuel →
  match (let* v := get_value (root_ src) in
         let* r := new_node v Black None in
         put_root r ;;;
         let* r := get_root in
         copyTree fuel (root_ src) r) (set_this (mkRBTree None (compare_ src)) s) with
  | Ret _ s' =>
      avail s' + size t = avail s
      ∧ ∃ T', copying (heap s) (next s) (avail s) s' T' ∧ clone_at true t T'
              ∧ compare_ (this s') = compare_ src
  | Throw e s' =>
      e = bad_alloc ∧ avail s < size t
      ∧ ∃ T', copying (heap s) (next s) (avail s) s' T'
              ∧ compare_ (this s') = compare_ src
  | _ => False
  end.
Proof.
  intros t Hwf Hroot Hnd Hok Hfuel. rewrite Hroot. cbn [root t].
  assert (∀ a, a ∈ addrs t → (a < next s)%positive) as Hlt.
  { intros a Ha. destruct (wf_allocated _ _ _ _ Hwf Ha) as [n Hn].
    destruct (decide (next s ≤ a)%positive) as [Hle|]; [|lia]. rewrite (Hok a Hle) in Hn. done. }
  pose proof Hwf as (Hx & Hl & Hr).
  assert (x ≠ next s) as Hxn.
  { assert (x < next s)%positive; [|lia]. apply Hlt. simpl. set_solver. }
  unfold set_this. reads.
  destruct (avail s) as [|k] eqn:Hav.
  { unfold bind at 1, new_node. cbn [avail]. split_and!; [done|simpl; lia|].
    exists Leaf. split; [|done]. unfold copying. cbn [heap next avail this root_ addrs size].
    split_and!; try done.
    - by split_and!; [|  |apply NoDup_nil].
    - intros a. split; [set_solver|lia]. }
  rewrite (bind_Ret _ _ _ _ _ (new_node_eq (mkState (heap s) (next s) (S k)
              (mkRBTree None (compare_ src))) kv Black None k eq_refl)).
  cbn [heap next this]. exec. unfold copyTree.
  set (s1 := mkState _ _ _ _).
  assert (copying (heap s) (next s) (S k) s1 (Bin Leaf (next s) kv Black Leaf)) as Hc1.
  { unfold copying, s1. cbn [heap next avail this root_ plug copy_color is_nil addrs app size root].
    split_and!.
    - split_and!; [|done|apply NoDup_singleton]. simpl. by rewrite lookup_insert_eq.
    - intros a. rewrite list_elem_of_singleton. lia.
    - intros a Ha. by rewrite lookup_insert_ne by lia.
    - intros a Ha. rewrite lookup_insert_ne by lia. apply Hok. lia.
    - lia. }
  pose proof (gotoMinCopying_spec (heap s) (next s) (S k) t Hwf Hlt l fuel [] x kv col r []
                (next s) s1 eq_refl Hc1 I ltac:(simpl in Hfuel; lia)) as Hgo.
  destruct (gotoMinCopying fuel (Some x) (Some (next s)) s1) as [ft s2|e s2| |] eqn:Egoto;
    [| |done..].
  - destruct Hgo as (sp & z & zkv & zc & zr & sp' & z' & -> & Hsp & Hpl & Hc3 & Hctx3 & Hav3 & Hth3).
    rewrite (bind_Ret _ _ _ _ _ Egoto). cbn [fst snd].
    rewrite !app_nil_r in Hc3, Hctx3.
    pose proof (size_plug_InL sp (Bin Leaf z zkv zc zr) Hsp) as Hs. rewrite <- Hpl in Hs.
    pose proof (ctx_rest_InL sp Hsp) as Hrs.
    pose proof (copyTree_loop_spec (heap s) (next s) (S k) t Hwf Hlt Hnd fuel sp Leaf z zkv zc zr
                  sp' Leaf z' s2 Hpl Hc3 Hctx3 I
                  ltac:(fold t in Hs; cbn [size] in Hs; simpl in Hfuel; unfold t in *; simpl in *; lia))
      as Hloop.
    destruct (copyTree_loop fuel (Some z) (Some z') s2) as [[] s'|e s'| |]; [| |done..].
    + destruct Hloop as (Hav' & T' & HT' & Hcl & Hth). fold t in Hs. cbn [size] in Hs.
      unfold s1 in Hav3. cbn [avail] in Hav3.
      split; [unfold t in *; simpl in *; lia|]. exists T'. split_and!; [done|done|].
      rewrite Hth, Hth3. done.
    + destruct Hloop as (-> & Hlt' & T' & HT' & Hth). fold t in Hs. cbn [size] in Hs.
      unfold s1 in Hav3. cbn [avail] in Hav3.
      split_and!; [done|unfold t in *; simpl in *; lia|]. exists T'. split; [done|].
      rewrite Hth, Hth3. done.
  - destruct Hgo as (-> & Hlt' & T' & HT' & Hth).
    unfold bind at 1. rewrite Egoto. unfold s1 in Hlt'. cbn [avail] in Hlt'.
    split_and!; [done|simpl; lia|]. exists T'. split; [done|]. by rewrite Hth.
Qed.

(** The copy constructor when there are nodes enough: the new tree is a
    clone of the source at fresh addresses, and everything that was
    allocated before is untouched. *)
Lemma copy_construct_clone s src t fuel :
  wf (heap s) None t → root_ src = root t → NoDup (addrs t) → alloc_ok s →
  2 * size t + 2 ≤ fuel → size t ≤ avail s →
  ∃ s' t',
    copy_construct fuel src s = Ret tt s'
    ∧ tree_at s' t' ∧ clone_at true t t'
    ∧ compare_ (this s') = compare_ src
    ∧ (∀ a, a ∈ addrs t' ↔ (next s ≤ a < next s')%positive)
    ∧ (∀ a, (a < next s)%positive → heap s' !! a = heap s !! a)
    ∧ alloc_ok s'
    ∧ avail s' + size t = avail s.
Proof.
  intros Hwf Hroot Hnd Hok Hfuel Hav. unfold copy_construct.
  rewrite (bind_Ret _ _ _ _ _ (eq_refl : _ s = Ret tt (set_this (mkRBTree None (compare_ src)) s))).
  destruct t as [|l x kv col r].
  { rewrite Hroot. cbn [root is_null negb]. eexists _, Leaf. split; [reflexivity|].
    unfold set_this. cbn [heap next avail this root_ compare_ addrs size].
    split_and!; try done.
    intros a. rewrite elem_of_nil. lia. }
  pose proof (copy_body_spec s src l x kv col r fuel Hwf Hroot Hnd Hok ltac:(lia)) as Hbody.
  assert (negb (is_null (root_ src)) = true) as -> by (by rewrite Hroot).
  unfold try_catch.
  match goal with |- context [match ?m with _ => _ end] =>
    match type of Hbody with match ?m' with _ => _ end => change m with m' end end.
  destruct (bind _ _ _) as [[] s'|e s'| |]; [| |done..].
  - destruct Hbody as (Hav' & T' & (Ht' & Hrange & Hlow & Hhigh & Hsz) & Hcl & Hcmp).
    exists s', T'. split_and!; try done.
  - destruct Hbody as (_ & Hlt & _). lia.
Qed.

(** The copy constructor when the nodes run out: what was built is freed
    again, the new tree is empty, and the heap is as it was before. *)
Lemma copy_construct_rollback s src t fuel :
  wf (heap s) None t → root_ src = root t → NoDup (addrs t) → alloc_ok s →
  2 * size t + 2 ≤ fuel → avail s < size t →
  ∃ s',
    copy_construct fuel src s = Ret tt s'
    ∧ root_ (this s') = None
    ∧ compare_ (this s') = compare_ src
    ∧ heap s' = heap s.
Proof.
  intros Hwf Hroot Hnd Hok Hfuel Hav. unfold copy_construct.
  rewrite (bind_Ret _ _ _ _ _ (eq_refl : _ s = Ret tt (set_this (mkRBTree None (compare_ src)) s))).
  destruct t as [|l x kv col r]; [simpl in Hav; lia|].
  pose proof (copy_body_spec s src l x kv col r fuel Hwf Hroot Hnd Hok ltac:(lia)) as Hbody.
  assert (negb (is_null (root_ src)) = true) as -> by (by rewrite Hroot).
  unfold try_catch.
  match goal with |- context [match ?m with _ => _ end] =>
    match type of Hbody with match ?m' with _ => _ end => change m with m' end end.
  destruct (bind _ _ _) as [[] s1|e s1| |]; [| |done..].
  - destruct Hbody as (Hav' & _). lia.
  - destruct Hbody as (-> & _ & T' & (Ht' & Hrange & Hlow & Hhigh & Hsz) & Hcmp).
    destruct (clear_spec s1 T' fuel Ht' ltac:(lia))
      as (s' & Hrun & Hcl & Hr & Hc & _).
    exists s'. split_and!; [done|done|congruence|].
    apply map_eq. intros a. rewrite Hcl.
    destruct (decide (a ∈ addrs T')) as [Hin|Hout].
    + rewrite bool_decide_eq_true_2 by done. symmetry. apply Hok. apply Hrange in Hin. lia.
    + rewrite bool_decide_eq_false_2 by done.
      destruct (decide (a < next s)%positive) as [Hlt|Hge]; [by apply Hlow|].
      rewrite (Hok a) by lia. apply Hhigh.
      destruct (decide (next s1 ≤ a)%positive) as [|Hlt]; [done|].
      destruct Hout. apply Hrange. lia.
Qed.

End Copy.

(** ** Other trees in the heap, and copy assignment *)

Section Frames.
Context {K T Compare : Type} `{!Comparator K Compare} `{!DefaultConstructible T}.
Implicit Types (s : State K T Compare) (t l r m : tree K T) (c : list (frame K T)).

(** A second tree in the same heap, sharing no node with the tree a call
    works on, is left as it is by [insert] and by [erase]. *)
Lemma insert_frame s t fuel key v par t2 :
  StrictWeakOrder (call (compare_ (this s))) →
  tree_at s t → bst (call (compare_ (this s))) t → tree_color t = Black →
  alloc_ok s → avail s ≠ 0 → size t < fuel →
  wf (heap s) par t2 → (∀ a, a ∈ addrs t2 → a ∉ addrs t) →
  ∃ b s', insert fuel key v s = Ret b s' ∧ wf (heap s') par t2.
Proof.
  intros Hswo Ht Hbst Hblack Hok Hav Hfuel Hwf2 Hdisj.
  destruct (lookup (call (compare_ (this s))) key t) as [[a kv]|] eqn:Hl.
  - exists false, s. split; [|done]. apply (insert_present s t); [done..|lia|].
    apply lookup_equiv in Hl as [Hin Heq]. exists kv. split; [|done].
    rewrite entries_nodes. apply list_elem_of_fmap. by exists (a, kv).
  - apply (lookup_None _ key t Hbst) in Hl.
    destruct (insert_absent s t fuel key v Hswo Ht Hbst Hblack Hok Hav Hfuel Hl)
      as (s' & t' & Hrun & Hi).
    exists true, s'. split; [done|].
    destruct Hi as (_ & _ & _ & _ & _ & _ & _ & _ & _ & Hfr).
    eapply wf_frame; [|exact Hwf2]. intros a Ha. apply Hfr; [by apply Hdisj|].
    intros ->. destruct (wf_allocated _ _ _ _ Hwf2 Ha) as [n Hn].
    rewrite Hok in Hn; [done|lia].
Qed.

Lemma erase_frame s t fuel key b s' par t2 :
  StrictWeakOrder (call (compare_ (this s))) →
  tree_at s t → bst (call (compare_ (this s))) t → size t < fuel →
  wf (heap s) par t2 → (∀ a, a ∈ addrs t2 → a ∉ addrs t) →
  erase fuel key s = Ret b s' → wf (heap s') par t2.
Proof.
  intros Hswo Ht Hbst Hfuel Hwf2 Hdisj Hrun.
  destruct (erase_ok s t fuel key b s' Hswo Ht Hbst Hfuel Hrun)
    as [(_ & -> & _)|(_ & x & kv & t' & _ & Hers)]; [done|].
  destruct Hers as (_ & _ & _ & _ & _ & _ & _ & Hfr).
  eapply wf_frame; [|exact Hwf2]. intros a Ha. apply Hfr. by apply Hdisj.
Qed.

Lemma on_object_Ret {A} (o : RBTree Compare) (m : M K T Compare A) s a s' :
  m (set_this o s) = Ret a s' →
  on_object o m s = Ret (a, this s') (set_this (this s) s').
Proof. unfold on_object. by intros ->. Qed.

(** Copy assignment with nodes enough: the object ends up with a clone of
    the source, and the nodes it held before are freed. *)
Lemma copy_assign_clone s told src t fuel :
  tree_at s told → wf (heap s) None t → root_ src = root t → NoDup (addrs t) →
  alloc_ok s → 2 * size t + 2 ≤ fuel → 2 * size told + 2 ≤ fuel → size t ≤ avail s →
  ∃ s' t',
    copy_assign fuel src s = Ret tt s'
    ∧ tree_at s' t' ∧ clone_at true t t'
    ∧ compare_ (this s') = compare_ src
    ∧ (∀ a, a ∈ addrs t' → (next s ≤ a)%positive)
    ∧ (∀ a, a ∈ addrs told → heap s' !! a = None)
    ∧ (∀ a, (a < next s)%positive → a ∉ addrs told → heap s' !! a = heap s !! a).
Proof.
  intros Hold Hwf Hroot Hnd Hok Hfuel Hfuel2 Hav. unfold copy_assign.
  set (tmp := mkRBTree None default_compare).
  assert (alloc_ok (set_this tmp s)) as Hok1 by done.
  destruct (copy_construct_clone (set_this tmp s) src t fuel Hwf Hroot Hnd Hok1 Hfuel Hav)
    as (s1 & t' & Hrun & Ht' & Hcl & Hcmp & Hrange & Hlow & Hok' & Hav').
  rewrite (bind_Ret _ _ _ _ _ (on_object_Ret _ _ _ _ _ Hrun)).
  cbv zeta. cbn [snd].
  rewrite (bind_Ret (λ s0, Ret (this s0) s0) _ (set_this (this s) s1) _ _ eq_refl).
  rewrite (bind_Ret (λ s0, Ret tt (set_this (this s1) s0)) _ (set_this (this s) s1) _ _ eq_refl).
  unfold set_this in *. cbn [heap next avail this] in *.
  set (s2 := mkState (heap s1) (next s1) (avail s1) (this s)).
  assert (∀ a, a ∈ addrs told → (a < next s)%positive) as Holdlt.
  { intros a Ha. destruct Hold as (Hw & _). destruct (wf_allocated _ _ _ _ Hw Ha) as [n Hn].
    destruct (decide (next s ≤ a)%positive) as [Hle|]; [|lia]. by rewrite (Hok a Hle) in Hn. }
  assert (tree_at s2 told) as Hold2.
  { destruct Hold as (Hw & Hr & Hn). split_and!; [|done|done].
    eapply wf_frame; [|exact Hw]. intros a Ha. unfold s2. cbn [heap]. apply Hlow. by apply Holdlt. }
  destruct (clear_spec s2 told fuel Hold2 Hfuel2) as (s3 & Hclear & Hcl3 & Hr3 & Hc3 & Hn3 & Hav3).
  assert (on_object (this s) (destroy fuel) (mkState (heap s1) (next s1) (avail s1) (this s1))
          = Ret (tt, this s3) (set_this (this s1) s3)) as Hdes.
  { unfold on_object, destroy, set_this. cbn [heap next avail this]. fold s2. by rewrite Hclear. }
  rewrite (bind_Ret _ _ _ _ _ Hdes).
  exists (set_this (this s1) s3), t'. unfold set_this. cbn [heap this].
  assert (∀ a, a ∈ addrs t' → a ∉ addrs told) as Hdisj.
  { intros a Ha Hin. apply Hrange in Ha. apply Holdlt in Hin. lia. }
  split_and!; try done.
  - destruct Ht' as (Hw & Hr & Hn). split_and!; [|done|done]. cbn [heap].
    eapply wf_frame; [|exact Hw]. intros a Ha. rewrite Hcl3.
    rewrite bool_decide_eq_false_2 by (by apply Hdisj). done.
  - intros a Ha. apply Hrange in Ha. lia.
  - intros a Ha. rewrite Hcl3. by rewrite bool_decide_eq_true_2.
  - intros a Ha Hout. rewrite Hcl3. rewrite bool_decide_eq_false_2 by done.
    unfold s2. cbn [heap]. by apply Hlow.
Qed.

(** Copy assignment when the nodes run out: no exception leaves the call,
    the nodes the object held are freed, and the object ends up empty. *)
Lemma copy_assign_no_memory s told src t fuel :
  tree_at s told → wf (heap s) None t → root_ src = root t → NoDup (addrs t) →
  alloc_ok s → 2 * size t + 2 ≤ fuel → 2 * size told + 2 ≤ fuel → avail s < size t →
  ∃ s',
    copy_assign fuel src s = Ret tt s'
    ∧ root_ (this s') = None
    ∧ compare_ (this s') = compare_ src
    ∧ cleared (heap s) (addrs told) s'.
Proof.
  intros Hold Hwf Hroot Hnd Hok Hfuel Hfuel2 Hav. unfold copy_assign.
  set (tmp := mkRBTree None default_compare).
  assert (alloc_ok (set_this tmp s)) as Hok1 by done.
  destruct (copy_construct_rollback (set_this tmp s) src t fuel Hwf Hroot Hnd Hok1 Hfuel Hav)
    as (s1 & Hrun & Hr1 & Hcmp & Hheap).
  rewrite (bind_Ret _ _ _ _ _ (on_object_Ret _ _ _ _ _ Hrun)).
  cbv zeta. cbn [snd].
  rewrite (bind_Ret (λ s0, Ret (this s0) s0) _ (set_this (this s) s1) _ _ eq_refl).
  rewrite (bind_Ret (λ s0, Ret tt (set_this (this s1) s0)) _ (set_this (this s) s1) _ _ eq_refl).
  unfold set_this in *. cbn [heap next avail this] in *.
  set (s2 := mkState (heap s1) (next s1) (avail s1) (this s)).
  assert (tree_at s2 told) as Hold2.
  { destruct Hold as (Hw & Hr & Hn). split_and!; [|done|done]. unfold s2. cbn [heap].
    by rewrite Hheap. }
  destruct (clear_spec s2 told fuel Hold2 Hfuel2) as (s3 & Hclear & Hcl3 & Hr3 & Hc3 & Hn3 & Hav3).
  assert (on_object (this s) (destroy fuel) (mkState (heap s1) (next s1) (avail s1) (this s1))
          = Ret (tt, this s3) (set_this (this s1) s3)) as Hdes.
  { unfold on_object, destroy, set_this. cbn [heap next avail this]. fold s2. by rewrite Hclear. }
  rewrite (bind_Ret _ _ _ _ _ Hdes).
  exists (set_this (this s1) s3). unfold set_this. cbn [heap this].
  split_and!; try done.
  intros a. rewrite Hcl3. unfold s2. cbn [heap]. by rewrite Hheap.
Qed.

End Frames.

(** ** The member functions, one by one *)

Section Members.
Context {K T Compare : Type} `{!Comparator K Compare} `{!DefaultConstructible T}.
Implicit Types (s : State K T Compare) (t l r m : tree K T) (c : list (frame K T)).

(** X1: [findNode] reads only.  On an empty tree it returns null; when a
    key comparing equal is stored it returns the node that holds it;
    otherwise it returns a node of the tree whose key is not equal, the last
    one of the search path. *)
Theorem findNode_finds s t fuel key :
  StrictWeakOrder (call (compare_ (this s))) →
  tree_at s t → bst (call (compare_ (this s))) t → size t ≤ fuel →
  ∃ q, findNode fuel key s = Ret q s
    ∧ (t = Leaf → q = None)
    ∧ (present (call (compare_ (this s))) key t →
         ∃ a kv, q = Some a ∧ (a, kv) ∈ nodes t
                 ∧ equivb (call (compare_ (this s))) key kv.1 = true)
    ∧ (t ≠ Leaf → ¬ present (call (compare_ (this s))) key t →
         ∃ a kv, q = Some a ∧ (a, kv) ∈ nodes t
                 ∧ equivb (call (compare_ (this s))) key kv.1 = false).
Proof.
  intros Hswo Ht Hbst Hfuel. eexists. split; [by apply findNode_wf|].
  destruct t as [|l a kv c r].
  { split_and!; [done| |done]. intros (e & He & _). set_solver. }
  destruct (search_lookup (call (compare_ (this s))) key (Bin l a kv c r) None)
    as (x & xkv & Hs & Hin & Hl); [done|].
  rewrite Hs. split_and!; [done|..].
  - intros Hp. destruct (lookup_present _ key _ Hbst Hp) as [[a' kv'] Hl'].
    rewrite Hl' in Hl. destruct (equivb _ key xkv.1) eqn:E; [|done]. eauto.
  - intros _ Hnp. apply (lookup_None _ key _ Hbst) in Hnp. rewrite Hnp in Hl.
    destruct (equivb _ key xkv.1) eqn:E; [done|]. eauto.
Qed.

(** X2: [count] returns 1 when a key comparing equal is stored and 0 when
    none is, and changes nothing. *)
Theorem count_presence s t fuel key :
  StrictWeakOrder (call (compare_ (this s))) →
  tree_at s t → bst (call (compare_ (this s))) t → size t ≤ fuel →
  (present (call (compare_ (this s))) key t → count fuel key s = Ret 1%Z s)
  ∧ (¬ present (call (compare_ (this s))) key t → count fuel key s = Ret 0%Z s).
Proof.
  intros Hswo Ht Hbst Hfuel. rewrite (count_wf s t fuel key Ht Hfuel). split.
  - intros Hp. by destruct (lookup_present _ key t Hbst Hp) as [? ->].
  - intros Hnp. apply (lookup_None _ key t Hbst) in Hnp. by rewrite Hnp.
Qed.

(** X3: [erase] of a key that is not stored returns false and leaves the
    state as it is. *)
Theorem erase_absent_key s t fuel key :
  StrictWeakOrder (call (compare_ (this s))) →
  tree_at s t → bst (call (compare_ (this s))) t → size t ≤ fuel →
  ¬ present (call (compare_ (this s))) key t →
  erase fuel key s = Ret false s.
Proof. apply erase_absent. Qed.

(** X4: when [erase] returns, either it returns false, the key was not
    stored and nothing has changed; or it returns true, the entry with the
    equal key is gone from the sorted sequence and all others are kept in
    their order, the node that held it is deleted, and no cell outside the
    tree has been touched. *)
Theorem erase_removes_entry s t fuel key b s' :
  StrictWeakOrder (call (compare_ (this s))) →
  tree_at s t → bst (call (compare_ (this s))) t → size t < fuel →
  erase fuel key s = Ret b s' →
  (b = false ∧ s' = s ∧ ¬ present (call (compare_ (this s))) key t)
  ∨ (b = true ∧ ∃ x kv t',
       lookup (call (compare_ (this s))) key t = Some (x, kv)
       ∧ tree_at s' t'
       ∧ (∃ pre post, entries t = pre ++ kv :: post ∧ entries t' = pre ++ post)
       ∧ bst (call (compare_ (this s'))) t'
       ∧ ¬ present (call (compare_ (this s'))) key t'
       ∧ heap s' !! x = None
       ∧ (∀ a, a ∈ addrs t' → a ∈ addrs t ∧ a ≠ x)
       ∧ (∀ a, a ∉ addrs t → heap s' !! a = heap s !! a)).
Proof.
  intros Hswo Ht Hbst Hfuel Hrun.
  destruct (erase_ok s t fuel key b s' Hswo Ht Hbst Hfuel Hrun)
    as [?|(-> & x & kv & t' & Hl & Hers)]; [by left|right].
  split; [done|]. exists x, kv, t'.
  destruct Hers as (Ht' & Hw & Hsub & Hx & _ & _ & Hcmp & Hfr).
  pose proof (lookup_equiv _ _ _ _ _ Hl) as [_ Heq].
  split_and!; try done.
  - rewrite Hcmp. by eapply sorted_without.
  - rewrite Hcmp. intros (e & He & Hc).
    pose proof (absent_without _ key kv _ _ Hbst Hw Heq e He). congruence.
Qed.

(** X5: when no node can be allocated, [insert] of a key that is not
    stored throws [std::bad_alloc] and leaves the state as it is. *)
Theorem insert_out_of_memory s t fuel key v :
  StrictWeakOrder (call (compare_ (this s))) →
  tree_at s t → bst (call (compare_ (this s))) t → size t ≤ fuel →
  ¬ present (call (compare_ (this s))) key t → avail s = 0 →
  insert fuel key v s = Throw bad_alloc s.
Proof. apply insert_no_memory. Qed.


(** X7: [minNode] returns the first node of a subtree in sorted order,
    null for a null argument; [begin()] is that node for the whole tree,
    which on an empty tree is what [end()] holds. *)
Theorem begin_leftmost s t fuel :
  tree_at s t → size t ≤ fuel →
  begin_ fuel s = Ret (head (addrs t)) s
  ∧ minNode fuel (root t) s = Ret (head (addrs t)) s
  ∧ (t = Leaf → begin_ fuel s = end_ s).
Proof.
  intros Ht Hfuel. pose proof (begin_wf s t fuel Ht Hfuel) as Hb. split_and!; [done| |].
  - destruct Ht as (Hwf & _). by apply (minNode_spec s None).
  - intros ->. by rewrite Hb.
Qed.

(** X8: a rotation keeps the tree a well-linked tree with the same nodes
    and the same sorted sequence of entries; only the two nodes turned,
    their parent and the subtree passed between them are relinked, nothing
    outside the tree is written. *)
Theorem rotations_keep_order s c l a akv ac m b bkv bc r :
  StrictWeakOrder (call (compare_ (this s))) →
  (tree_at s (plug c (Bin l a akv ac (Bin m b bkv bc r))) →
   bst (call (compare_ (this s))) (plug c (Bin l a akv ac (Bin m b bkv bc r))) →
   ∃ s', rotateLeft (Some a) s = Ret tt s'
         ∧ tree_at s' (plug c (Bin (Bin l a akv ac m) b bkv bc r))
         ∧ entries (plug c (Bin (Bin l a akv ac m) b bkv bc r))
           = entries (plug c (Bin l a akv ac (Bin m b bkv bc r)))
         ∧ same_outside (addrs (plug c (Bin l a akv ac (Bin m b bkv bc r)))) s s')
  ∧ (tree_at s (plug c (Bin (Bin l b bkv bc m) a akv ac r)) →
     bst (call (compare_ (this s))) (plug c (Bin (Bin l b bkv bc m) a akv ac r)) →
     ∃ s', rotateRight (Some a) s = Ret tt s'
           ∧ tree_at s' (plug c (Bin l b bkv bc (Bin m a akv ac r)))
           ∧ entries (plug c (Bin l b bkv bc (Bin m a akv ac r)))
             = entries (plug c (Bin (Bin l b bkv bc m) a akv ac r))
           ∧ same_outside (addrs (plug c (Bin (Bin l b bkv bc m) a akv ac r))) s s').
Proof.
  intros Hswo. split; intros Ht Hbst.
  - destruct (rotateLeft_spec s c l a akv ac m b bkv bc r Hswo Ht Hbst) as (s' & ? & ? & ?).
    exists s'. split_and!; try done. apply entries_rotate.
  - destruct (rotateRight_spec s c l a akv ac m b bkv bc r Hswo Ht Hbst) as (s' & ? & ? & ?).
    exists s'. split_and!; try done. symmetry. apply entries_rotate.
Qed.

(** X9: on a tree that has a root, [isRBTree] returns true exactly when
    the root is Black, no Red node has a Red child and all paths from the
    root down to an absent child pass the same number of Black nodes; it
    changes nothing. *)
Theorem isRBTree_decides_red_black s t fuel :
  tree_at s t → t ≠ Leaf → size t < fuel →
  ∃ b, isRBTree fuel s = Ret b s
       ∧ (b = true ↔ tree_color t = Black ∧ ∃ n, red_black t n).
Proof. apply isRBTree_wf. Qed.

(** X10: on an empty tree [isRBTree] reads the color of the null root
    pointer. *)
Theorem isRBTree_empty_tree s fuel :
  root_ (this s) = None → isRBTree fuel s = Abort NullDeref.
Proof. apply isRBTree_empty. Qed.

(** X11: [clear] deletes every node of the tree, leaves every other cell
    of the heap as it is, and sets the root pointer to null. *)
Theorem clear_frees_all s t fuel :
  tree_at s t → 2 * size t + 2 ≤ fuel →
  ∃ s', clear fuel s = Ret tt s'
        ∧ (∀ a, a ∈ addrs t → heap s' !! a = None)
        ∧ (∀ a, a ∉ addrs t → heap s' !! a = heap s !! a)
        ∧ root_ (this s') = None
        ∧ compare_ (this s') = compare_ (this s).
Proof.
  intros Ht Hfuel.
  destruct (clear_spec s t fuel Ht Hfuel) as (s' & Hrun & Hcl & Hr & Hc & _).
  exists s'. split_and!; try done.
  - intros a Ha. by rewrite Hcl, bool_decide_eq_true_2.
  - intros a Ha. by rewrite Hcl, bool_decide_eq_false_2.
Qed.

(** X12: with nodes enough, copy assignment leaves the object with a clone
    of the source in new nodes and with the comparator of the source, and
    deletes the nodes the object held before. *)
Theorem copy_assign_clones s told src t fuel :
  tree_at s told → wf (heap s) None t → root_ src = root t → NoDup (addrs t) →
  alloc_ok s → 2 * size t + 2 ≤ fuel → 2 * size told + 2 ≤ fuel → size t ≤ avail s →
  ∃ s' t',
    copy_assign fuel src s = Ret tt s'
    ∧ tree_at s' t' ∧ clone_at true t t'
    ∧ compare_ (this s') = compare_ src
    ∧ (∀ a, a ∈ addrs t' → (next s ≤ a)%positive)
    ∧ (∀ a, a ∈ addrs told → heap s' !! a = None)
    ∧ (∀ a, (a < next s)%positive → a ∉ addrs told → heap s' !! a = heap s !! a).
Proof. apply copy_assign_clone. Qed.

(** X13: when the nodes run out during copy assignment, no exception
    leaves it, and the object loses what it held: its nodes are deleted
    and it ends up empty. *)
Theorem copy_assign_out_of_memory s told src t fuel :
  tree_at s told → wf (heap s) None t → root_ src = root t → NoDup (addrs t) →
  alloc_ok s → 2 * size t + 2 ≤ fuel → 2 * size told + 2 ≤ fuel → avail s < size t →
  ∃ s',
    copy_assign fuel src s = Ret tt s'
    ∧ root_ (this s') = None
    ∧ compare_ (this s') = compare_ src
    ∧ (∀ a, a ∈ addrs told → heap s' !! a = None)
    ∧ (∀ a, a ∉ addrs told → heap s' !! a = heap s !! a).
Proof.
  intros Hold Hwf Hroot Hnd Hok Hfuel Hfuel2 Hav.
  destruct (copy_assign_no_memory s told src t fuel Hold Hwf Hroot Hnd Hok Hfuel Hfuel2 Hav)
    as (s' & Hrun & Hr & Hc & Hcl).
  exists s'. split_and!; try done.
  - intros a Ha. by rewrite Hcl, bool_decide_eq_true_2.
  - intros a Ha. by rewrite Hcl, bool_decide_eq_false_2.
Qed.

(** X14: [insert] writes only to nodes of the tree it is called on and to
    the node it allocates: a second tree in the same heap that shares no
    node with it is still there afterwards, link for link. *)
Theorem insert_leaves_other_trees s t fuel key v par t2 :
  StrictWeakOrder (call (compare_ (this s))) →
  tree_at s t → bst (call (compare_ (this s))) t → tree_color t = Black →
  alloc_ok s → avail s ≠ 0 → size t < fuel →
  wf (heap s) par t2 → (∀ a, a ∈ addrs t2 → a ∉ addrs t) →
  ∃ b s', insert fuel key v s = Ret b s' ∧ wf (heap s') par t2.
Proof. apply insert_frame. Qed.

(** X15: [erase], when it returns, has written only to nodes of the tree
    it was called on: a second tree in the same heap that shares no node
    with it is still there, link for link. *)
Theorem erase_leaves_other_trees s t fuel key b s' par t2 :
  StrictWeakOrder (call (compare_ (this s))) →
  tree_at s t → bst (call (compare_ (this s))) t → size t < fuel →
  wf (heap s) par t2 → (∀ a, a ∈ addrs t2 → a ∉ addrs t) →
  erase fuel key s = Ret b s' → wf (heap s') par t2.
Proof. apply erase_frame. Qed.

(** X16: [eraseFixup], when it returns, has only recolored and rotated:
    the heap holds a well-linked tree with the nodes and the sorted
    sequence of entries it had before, and nothing outside the tree has
    been written. *)
Theorem eraseFixup_keeps_entries s t fuel target b s' :
  StrictWeakOrder (call (compare_ (this s))) →
  tree_at s t → bst (call (compare_ (this s))) t →
  match target with Some a => a ∈ addrs t | None => True end →
  eraseFixup fuel target b s = Ret tt s' →
  ∃ t', tree_at s' t' ∧ entries t' = entries t
        ∧ (∀ a, a ∈ addrs t' ↔ a ∈ addrs t)
        ∧ same_outside (addrs t) s s'.
Proof.
  intros Hswo Ht Hbst Hin Hrun.
  destruct (eraseFixup_ok s t Hswo Hbst fuel target b s s') as (t' & Hr);
    [exists t; by apply reach_refl|done|done|].
  exists t'. exact Hr.
Qed.

(** X17: [insertFixup], called on a node of a search tree whose root is
    Black, returns with the root Black; the heap holds a well-linked tree
    with the same nodes and the same sorted sequence of entries. *)
Theorem insertFixup_blackens_root fuel c l x kv col r s :
  StrictWeakOrder (call (compare_ (this s))) →
  tree_at s (plug c (Bin l x kv col r)) →
  bst (call (compare_ (this s))) (plug c (Bin l x kv col r)) →
  ctx_root_black c → length c < fuel →
  ∃ s' t', insertFixup fuel (Some x) s = Ret tt s'
           ∧ tree_at s' t' ∧ tree_color t' = Black
           ∧ entries t' = entries (plug c (Bin l x kv col r))
           ∧ (∀ a, a ∈ addrs t' ↔ a ∈ addrs (plug c (Bin l x kv col r)))
           ∧ same_outside (addrs (plug c (Bin l x kv col r))) s s'.
Proof.
  intros Hswo Ht Hbst Hrb Hfuel.
  destruct (insertFixup_spec fuel c l x kv col r s Hswo Ht Hbst Hrb Hfuel)
    as (s' & t' & Hrun & (? & ? & ? & ?) & Hb & _).
  exists s', t'. by split_and!.
Qed.

(** X18: in a search tree [updateParentNode] finds by the comparison of
    the keys the side on which the old node hangs: it writes the new
    pointer into that child slot of the parent, or into the root pointer
    when the old node has no parent. *)
Theorem updateParentNode_relinks s c l a kv col r q :
  StrictWeakOrder (call (compare_ (this s))) →
  wf_ctx (heap s) c (Some a) →
  heap s !! a = Some (detail.mkNode kv col (ctx_par c) (root l) (root r)) →
  bst (call (compare_ (this s))) (plug c (Bin l a kv col r)) →
  updateParentNode (Some a) q s
  = Ret tt match c with
           | [] => set_root q s
           | InL pa pkv pc pr :: c' =>
               set_heap (<[pa := detail.mkNode pkv pc (ctx_par c') q (root pr)]> (heap s)) s
           | InR pl pa pkv pc :: c' =>
               set_heap (<[pa := detail.mkNode pkv pc (ctx_par c') (root pl) q]> (heap s)) s
           end.
Proof. apply updateParentNode_spec. Qed.

(** X19: [count] follows [insert] and [erase]: after an insertion of a
    new key it is 1 for that key, and after an [erase] of a key that has
    returned it is 0 for that key. *)
Theorem count_follows_insert_erase s t fuel key v :
  StrictWeakOrder (call (compare_ (this s))) →
  tree_at s t → bst (call (compare_ (this s))) t → size t < fuel →
  (tree_color t = Black → alloc_ok s → avail s ≠ 0 →
   ¬ present (call (compare_ (this s))) key t →
   ∃ s', insert fuel key v s = Ret true s' ∧ count fuel key s' = Ret 1%Z s')
  ∧ (∀ b s', erase fuel key s = Ret b s' → count fuel key s' = Ret 0%Z s').
Proof.
  intros Hswo Ht Hbst Hfuel. split.
  - intros Hblack Hok Hav Hnp.
    destruct (insert_absent s t fuel key v Hswo Ht Hbst Hblack Hok Hav Hfuel Hnp)
      as (s' & t' & Hins & Hi).
    pose proof (inserted_size _ _ _ _ _ _ Hi) as Hsz.
    pose proof Hi as (Ht' & Hbst' & _ & _ & _ & _ & Hcmp & Hperm & _).
    assert (StrictWeakOrder (call (compare_ (this s')))) as Hswo' by (by rewrite Hcmp).
    exists s'. split; [done|].
    rewrite (count_wf s' t' fuel key Ht' ltac:(lia)).
    destruct (lookup_present _ key t' Hbst') as [? ->]; [|done].
    exists (key, v). split; [rewrite Hperm; set_solver|].
    apply equivb_true. simpl. by rewrite swo_irrefl.
  - intros b s' Hrun.
    destruct (erase_ok s t fuel key b s' Hswo Ht Hbst Hfuel Hrun)
      as [(-> & -> & Hnp)|(-> & x & kv & t' & Hl & Hers)].
    + rewrite (count_wf s t fuel key Ht ltac:(lia)).
      apply (lookup_None _ key t Hbst) in Hnp. by rewrite Hnp.
    + destruct Hers as (Ht' & Hw & _ & _ & _ & _ & Hcmp & _).
      pose proof (lookup_Some _ _ _ _ _ Hl) as [_ Heq].
      pose proof (without_length _ _ _ Hw) as Hlen.
      rewrite <- !size_entries in Hlen.
      rewrite (count_wf s' t' fuel key Ht' ltac:(lia)), Hcmp.
      assert (bst (call (compare_ (this s))) t') as Hbst' by (by eapply sorted_without).
      assert (¬ present (call (compare_ (this s))) key t') as Hnp.
      { intros (e & He & Hc).
        pose proof (absent_without _ key kv _ _ Hbst Hw Heq e He). congruence. }
      apply (lookup_None _ key t' Hbst') in Hnp. by rewrite Hnp.
Qed.

End Members.

(** ** Copies and moves *)

Section Copies.
Context {K T Compare : Type} `{!Comparator K Compare} `{!DefaultConstructible T}.
Implicit Types (s : State K T Compare) (t l r m : tree K T) (c : list (frame K T)).

(** What the callers of [findNode] do with a node that holds an equal key,
    and with one that does not. *)
Lemma insert_found s t fuel key v a kv :
  tree_at s t → size t ≤ fuel →
  lookup (call (compare_ (this s))) key t = Some (a, kv) →
  insert fuel key v s = Ret false s.
Proof.
  intros Ht Hfuel Hl. unfold insert.
  destruct (findNode_cases s t fuel key Ht Hfuel) as (q & Hq & Hcase).
  rewrite (bind_Ret _ _ _ _ _ Hq). rewrite Hl in Hcase.
  destruct Hcase as (-> & n & Hn & Hv).
  apply lookup_equiv in Hl as [_ Heq].
  unfold insertNode. cbn [is_null]. reads. rewrite Hv, Heq. by reads.
Qed.

Lemma erase_unfound s t fuel key :
  tree_at s t → size t ≤ fuel →
  lookup (call (compare_ (this s))) key t = None →
  erase fuel key s = Ret false s.
Proof.
  intros Ht Hfuel Hl. unfold erase.
  destruct (findNode_cases s t fuel key Ht Hfuel) as (q & Hq & Hcase).
  rewrite (bind_Ret _ _ _ _ _ Hq). rewrite Hl in Hcase.
  destruct Hcase as [[-> _]|(a & n & -> & Hn & Heq)]; [done|].
  cbn [is_null]. reads. by rewrite Heq.
Qed.

Lemma erase_found s t fuel key a kv :
  tree_at s t → size t ≤ fuel →
  lookup (call (compare_ (this s))) key t = Some (a, kv) →
  erase fuel key s = (eraseNode fuel (Some a) ;;; ret true) s.
Proof.
  intros Ht Hfuel Hl. unfold erase.
  destruct (findNode_cases s t fuel key Ht Hfuel) as (q & Hq & Hcase).
  rewrite (bind_Ret _ _ _ _ _ Hq). rewrite Hl in Hcase.
  destruct Hcase as (-> & n & Hn & Hv).
  apply lookup_equiv in Hl as [_ Heq].
  cbn [is_null]. reads. by rewrite Hv, Heq.
Qed.

(** [insert] and [erase], when they return, have left a second tree of the
    heap alone. *)
Lemma insert_frame_ret s t fuel key v par t2 b s' :
  StrictWeakOrder (call (compare_ (this s))) →
  tree_at s t → bst (call (compare_ (this s))) t → tree_color t = Black →
  alloc_ok s → size t < fuel →
  wf (heap s) par t2 → (∀ a, a ∈ addrs t2 → a ∉ addrs t) →
  insert fuel key v s = Ret b s' → wf (heap s') par t2.
Proof.
  intros Hswo Ht Hbst Hblack Hok Hfuel Hwf2 Hdisj Hrun.
  destruct (lookup (call (compare_ (this s))) key t) as [[a kv]|] eqn:Hl.
  { rewrite (insert_found s t fuel key v a kv Ht ltac:(lia) Hl) in Hrun. by injection Hrun as _ <-. }
  apply (lookup_None _ key t Hbst) in Hl.
  destruct (decide (avail s = 0)) as [Hav|Hav].
  { by rewrite (insert_no_memory s t fuel key v Hswo Ht Hbst ltac:(lia) Hl Hav) in Hrun. }
  destruct (insert_frame s t fuel key v par t2 Hswo Ht Hbst Hblack Hok Hav Hfuel Hwf2 Hdisj)
    as (b0 & s0 & Hrun0 & Hwf0).
  rewrite Hrun0 in Hrun. by injection Hrun as _ <-.
Qed.

Lemma apply_op_frame s t fuel o par t2 b s' :
  StrictWeakOrder (call (compare_ (this s))) →
  tree_at s t → bst (call (compare_ (this s))) t → tree_color t = Black →
  alloc_ok s → size t < fuel →
  wf (heap s) par t2 → (∀ a, a ∈ addrs t2 → a ∉ addrs t) →
  apply_op fuel o s = Ret b s' → wf (heap s') par t2.
Proof.
  intros Hswo Ht Hbst Hblack Hok Hfuel Hwf2 Hdisj Hrun. destruct o as [key v|key]; simpl in Hrun.
  - by apply (insert_frame_ret s t fuel key v par t2 b s').
  - by apply (erase_frame s t fuel key b s' par t2).
Qed.

Lemma on_object_inv {A} (o : RBTree Compare) (m : M K T Compare A) s
    (res : A * RBTree Compare) s' :
  on_object o m s = Ret res s' →
  ∃ s1, m (set_this o s) = Ret res.1 s1 ∧ res.2 = this s1 ∧ s' = set_this (this s) s1.
Proof.
  unfold on_object. destruct (m (set_this o s)) as [a s1| | |] eqn:Hm; try done.
  intros [= <- <-]. by exists s1.
Qed.

Lemma clone_at_root_black t t' : clone_at true t t' → tree_color t' = Black.
Proof. destruct t, t'; simpl; try done. by intros (_ & -> & _). Qed.

(** C7: the copy constructor builds, in nodes of its own, a tree with the
    shape, the entries and the colors of the source (the root it makes
    Black, as the root of a valid tree is), and leaves the source as it
    is.  From then on the two are independent: whatever [insert] or
    [erase] does to one of them, the other is still in the heap node for
    node, with the same in-order sequence. *)
Theorem copy_construct_independent s src t fuel :
  wf (heap s) None t → root_ src = root t → NoDup (addrs t) → alloc_ok s →
  2 * size t + 2 ≤ fuel → size t ≤ avail s →
  ∃ s' t',
    copy_construct fuel src s = Ret tt s'
    ∧ tree_at s' t'
    ∧ clone_at true t t'
    ∧ (tree_color t = Black → clone_at false t t')
    ∧ entries t' = entries t
    ∧ compare_ (this s') = compare_ src
    ∧ (∀ a, a ∈ addrs t' → a ∉ addrs t)
    ∧ wf (heap s') None t
    ∧ (StrictWeakOrder (call (compare_ src)) → bst (call (compare_ src)) t →
       (∀ o b s'', apply_op fuel o s' = Ret b s'' → wf (heap s'') None t)
       ∧ (tree_color t = Black →
          ∀ o res s'', on_object src (apply_op fuel o) s' = Ret res s'' → tree_at s'' t')).
Proof.
  intros Hwf Hroot Hnd Hok Hfuel Hav.
  destruct (copy_construct_clone s src t fuel Hwf Hroot Hnd Hok Hfuel Hav)
    as (s' & t' & Hrun & Ht' & Hcl & Hc & Hfresh & Hold & Hok' & Hav').
  assert (∀ a, a ∈ addrs t → (a < next s)%positive) as Hlt.
  { intros a Ha. destruct (wf_allocated _ _ _ _ Hwf Ha) as [n Hn].
    destruct (decide (a < next s)%positive) as [|Hge]; [done|].
    rewrite Hok in Hn by lia. done. }
  assert (∀ a, a ∈ addrs t' → a ∉ addrs t) as Hdisj.
  { intros a Ha Hb. apply Hfresh in Ha. apply Hlt in Hb. lia. }
  assert (wf (heap s') None t) as Hwf'.
  { eapply wf_frame; [|exact Hwf]. intros a Ha. apply Hold. by apply Hlt. }
  pose proof (clone_at_entries _ _ _ Hcl) as Hent.
  pose proof (clone_at_size _ _ _ Hcl) as Hsz.
  exists s', t'. split_and!; try done.
  { intros Hb. by apply clone_at_black. }
  intros Hswo Hbst. split.
  - intros o b s'' Hop.
    apply (apply_op_frame s' t' fuel o None t b s''); try done.
    + by rewrite Hc.
    + rewrite Hc. unfold bst. by rewrite Hent.
    + by apply (clone_at_root_black t).
    + lia.
    + intros a Ha Hb. by apply (Hdisj a).
  - intros Hblack o res s'' Hop.
    apply on_object_inv in Hop as (s1 & Hop & _ & ->).
    destruct Ht' as (Hwt' & Hrt' & Hndt').
    assert (wf (heap s1) None t') as Hw1.
    { apply (apply_op_frame (set_this src s') t fuel o None t' res.1 s1); try done.
      lia. }
    by split_and!.
Qed.

(** C8: when the nodes run out before the copy is complete, the copy
    constructor catches the exception and deletes the nodes it has made:
    it returns with an empty tree, and the heap is what it was before the
    call, the source tree included. *)
Theorem copy_construct_rolls_back s src t fuel :
  wf (heap s) None t → root_ src = root t → NoDup (addrs t) → alloc_ok s →
  2 * size t + 2 ≤ fuel → avail s < size t →
  ∃ s',
    copy_construct fuel src s = Ret tt s'
    ∧ root_ (this s') = None
    ∧ compare_ (this s') = compare_ src
    ∧ heap s' = heap s
    ∧ wf (heap s') None t.
Proof.
  intros Hwf Hroot Hnd Hok Hfuel Hav.
  destruct (copy_construct_rollback s src t fuel Hwf Hroot Hnd Hok Hfuel Hav)
    as (s' & Hrun & Hr & Hc & Hh).
  exists s'. split_and!; try done. by rewrite Hh.
Qed.

(** C10: the move constructor takes the nodes of the source and leaves
    [compare_] to the default constructor of [Compare], whatever comparator
    the source carries.  In the new tree every decision is taken by that
    comparator: [findNode] walks down by it, [insert] refuses a key it
    finds equal by it and otherwise adds the entry where it orders it,
    [erase] removes the entry it finds equal by it and returns false when
    it finds none, and [lowerBound] starts from the node [findNode] reaches
    by it.  Move assignment gives the object the comparator of the source
    and the source the one the object had; there [findNode] walks down by
    the comparator of the source. *)
Theorem move_construct_default_compare (src : RBTree Compare) s t fuel key v :
  wf (heap s) None t → root_ src = root t → NoDup (addrs t) → size t < fuel →
  (∃ src' s',
      move_construct src s = Ret src' s'
      ∧ compare_ (this s') = default_init
      ∧ tree_at s' t
      ∧ findNode fuel key s' = Ret (search (call default_init) key t None) s'
      ∧ (is_Some (lookup (call default_init) key t) → insert fuel key v s' = Ret false s')
      ∧ (lookup (call default_init) key t = None → erase fuel key s' = Ret false s')
      ∧ (∀ x kv, lookup (call default_init) key t = Some (x, kv) →
           erase fuel key s' = (eraseNode fuel (Some x) ;;; ret true) s')
      ∧ lowerBound fuel key s'
        = match search (call default_init) key t None with
          | None => Ret None s'
          | Some _ => Abort IllTyped
          end
      ∧ (StrictWeakOrder (call default_init) → bst (call default_init) t →
         (tree_color t = Black → alloc_ok s → avail s ≠ 0 →
          lookup (call default_init) key t = None →
          ∃ s'' t'', insert fuel key v s' = Ret true s''
                     ∧ tree_at s'' t'' ∧ bst (call default_init) t''
                     ∧ entries t'' ≡ₚ (key, v) :: entries t)
         ∧ (∀ b s'', erase fuel key s' = Ret b s'' →
              ∃ t'', tree_at s'' t'' ∧ bst (call default_init) t''
                     ∧ ¬ present (call default_init) key t''
                     ∧ (b = true ↔ present (call default_init) key t))))
  ∧ (∃ src' s',
      move_assign src s = Ret src' s'
      ∧ compare_ (this s') = compare_ src
      ∧ compare_ src' = compare_ (this s)
      ∧ tree_at s' t
      ∧ findNode fuel key s' = Ret (search (call (compare_ src)) key t None) s').
Proof.
  intros Hwf Hroot Hnd Hfuel. split.
  - eexists _, _. split; [reflexivity|].
    set (s' := set_this (mkRBTree (root_ src) default_init) s).
    assert (tree_at s' t) as Ht by done.
    change (call default_init) with (call (compare_ (this s'))).
    split_and!; try done.
    + apply (findNode_wf s' t); [done|lia].
    + intros [[a kv] Hl]. apply (insert_found s' t fuel key v a kv); [done|lia|done].
    + intros Hl. apply (erase_unfound s' t); [done|lia|done].
    + intros x kv Hl. apply (erase_found s' t fuel key x kv); [done|lia|done].
    + apply (lowerBound_wf s' t); [done|lia].
    + intros Hswo Hbst. split.
      * intros Hblack Hok Hav Hl. apply (lookup_None _ key t Hbst) in Hl.
        destruct (insert_absent s' t fuel key v Hswo Ht Hbst Hblack Hok Hav Hfuel Hl)
          as (s'' & t'' & Hrun & Ht'' & Hbst'' & _ & _ & _ & _ & Hc & Hperm & _).
        exists s'', t''. split_and!; try done. by rewrite <- Hc.
      * intros b s'' Hrun.
        destruct (erase_ok s' t fuel key b s'' Hswo Ht Hbst Hfuel Hrun)
          as [(-> & -> & Hnp)|(-> & x & kv & t'' & Hl & Hers)].
        { exists t. by split_and!. }
        destruct Hers as (Ht'' & Hw & _ & _ & _ & _ & Hc & _).
        pose proof (lookup_Some _ _ _ _ _ Hl) as [Hin Heq].
        exists t''. split_and!; [done|by eapply sorted_without| |].
        -- intros (e & He & Hc'). 
           pose proof (absent_without _ key kv _ _ Hbst Hw Heq e He). congruence.
        -- split; [|done]. intros _. exists kv. split; [|done].
           rewrite entries_nodes. apply list_elem_of_fmap. by exists (x, kv).
  - eexists _, _. split; [reflexivity|].
    set (s' := set_this src s).
    assert (tree_at s' t) as Ht by done.
    split_and!; try done.
    apply (findNode_wf s' t); [done|lia].
Qed.

End Copies.

(** ** [walkByLevels] *)

Section Levels.
Context {K T Compare : Type} `{!Comparator K Compare} `{!DefaultConstructible T}.
Implicit Types (s : State K T Compare) (t l r m : tree K T) (c : list (frame K T)).
Implicit Types (ts A B : list (tree K T)).

Lemma subtrees_live h par t :
  wf h par t → Forall (λ t, t ≠ Leaf ∧ ∃ par, wf h par t) (subtrees t).
Proof.
  destruct t as [|l a kv col r]; intros Hwf; [apply Forall_nil_2|].
  apply Forall_singleton. split; [done|]. by exists par.
Qed.

Lemma subtrees_root t : root <$> subtrees t = match root t with None => [] | Some a => [Some a] end.
Proof. by destruct t. Qed.

(** One level of the walk: the nodes [A] at the head of the queue are
    written out in order and their children are queued behind what the
    queue held. *)
Lemma walkByLevels_level s A : ∀ B out fuel,
  Forall (λ t, t ≠ Leaf ∧ ∃ par, wf (heap s) par t) A →
  walkByLevels_loop (length A + fuel) ((root <$> A) ++ (root <$> B)) out s
  = walkByLevels_loop fuel (root <$> (B ++ children A)) (out ++ root_keys A) s.
Proof.
  induction A as [|t A IH]; intros B out fuel HA.
  { simpl. by rewrite !app_nil_r. }
  apply Forall_cons in HA as [[Hne [par Hwf]] HA].
  destruct t as [|l a kv col r]; [done|]. destruct Hwf as (Ha & Hl & Hr).
  cbn [length Nat.add fmap list_fmap app root walkByLevels_loop].
  reads.
  assert (∀ q (ch : tree K T) (k : list ptr → M K T Compare (list K)) (get : M K T Compare ptr),
             get s = Ret (root ch) s →
             (let* queue := (if negb (is_null (root ch)) then
                               let* x := get in ret (q ++ [x])
                             else ret q) in k queue) s
             = k (q ++ (root <$> subtrees ch)) s) as Hpush.
  { intros q ch k get Hget. destruct ch as [|cl ca ckv cc cr]; simpl.
    - by rewrite app_nil_r.
    - unfold bind at 1. unfold bind at 1. simpl in Hget. by rewrite Hget. }
  rewrite (Hpush _ l _ (get_left (Some a)) (get_left_Some _ _ _ Ha)).
  reads.
  rewrite (Hpush _ r _ (get_right (Some a)) (get_right_Some _ _ _ Ha)).
  rewrite <- !app_assoc, <- !fmap_app. rewrite (fmap_app root A).
  rewrite (IH (B ++ subtrees l ++ subtrees r) (out ++ [kv.1]) fuel HA).
  cbn [root_keys children flat_map]. rewrite <- !app_assoc. done.
Qed.

Lemma children_live h ts :
  Forall (λ t, t ≠ Leaf ∧ ∃ par, wf h par t) ts →
  Forall (λ t, t ≠ Leaf ∧ ∃ par, wf h par t) (children ts).
Proof.
  induction 1 as [|t ts [Hne [par Hwf]] _ IH]; [apply Forall_nil_2|].
  destruct t as [|l a kv col r]; [done|]. destruct Hwf as (_ & Hl & Hr).
  cbn [children flat_map]. rewrite <- app_assoc.
  repeat (apply Forall_app; split); [by eapply subtrees_live..|done].
Qed.

Lemma children_smaller n ts :
  Forall (λ t, size t ≤ S n) ts → Forall (λ t, size t ≤ n) (children ts).
Proof.
  induction 1 as [|t ts Hsz _ IH]; [apply Forall_nil_2|].
  destruct t as [|l a kv col r]; [done|]. simpl in Hsz.
  cbn [children flat_map]. rewrite <- app_assoc.
  repeat (apply Forall_app; split); [| |done].
  - destruct l; [apply Forall_nil_2|apply Forall_singleton; simpl in *; lia].
  - destruct r; [apply Forall_nil_2|apply Forall_singleton; simpl in *; lia].
Qed.

Lemma forest_size_app A B : forest_size (A ++ B) = forest_size A + forest_size B.
Proof. induction A as [|t A IH]; simpl; lia. Qed.

Lemma subtrees_size t : forest_size (subtrees t) = size t.
Proof. destruct t; simpl; lia. Qed.

Lemma children_size ts :
  Forall (λ t, t ≠ Leaf) ts → forest_size (children ts) + length ts = forest_size ts.
Proof.
  induction 1 as [|t ts Hne _ IH]; [done|].
  destruct t as [|l a kv col r]; [done|].
  cbn [children flat_map length]. rewrite <- app_assoc, !forest_size_app, !subtrees_size.
  change (forest_size (Bin l a kv col r :: ts)) with (S (size l + size r) + forest_size ts).
  fold (children ts). lia.
Qed.

(** The loop writes the queued subtrees level by level. *)
Lemma walkByLevels_loop_spec s n : ∀ ts out fuel,
  Forall (λ t, t ≠ Leaf ∧ ∃ par, wf (heap s) par t) ts →
  Forall (λ t, size t ≤ n) ts →
  forest_size ts < fuel →
  walkByLevels_loop fuel (root <$> ts) out s = Ret (out ++ by_level n ts) s.
Proof.
  induction n as [|n IH]; intros ts out fuel Hlive Hsz Hfuel.
  - destruct ts as [|t ts].
    + destruct fuel; [lia|]. simpl. by rewrite app_nil_r.
    + apply Forall_cons in Hlive as [[Hne _] _]. apply Forall_cons in Hsz as [Hsz _].
      destruct t; [done|simpl in Hsz; lia].
  - assert (Forall (λ t, t ≠ Leaf) ts) as Hne by (eapply Forall_impl; [exact Hlive|]; by intros ? [? _]).
    pose proof (children_size ts Hne) as Hcs.
    replace fuel with (length ts + (fuel - length ts)) by lia.
    pose proof (walkByLevels_level s ts [] out (fuel - length ts) Hlive) as Hlev.
    rewrite fmap_nil, app_nil_r, app_nil_l in Hlev. rewrite Hlev.
    rewrite (IH (children ts) (out ++ root_keys ts) (fuel - length ts));
      [|by apply children_live|by apply children_smaller|lia].
    cbn [by_level]. by rewrite <- app_assoc.
Qed.

Lemma walkByLevels_wf s t fuel out :
  tree_at s t → size t < fuel →
  walkByLevels fuel out s = Ret (out ++ by_level (size t) [t]) s.
Proof.
  intros (Hwf & Hroot & _) Hfuel. unfold walkByLevels.
  assert (get_root s = Ret (root t) s) as Hr by (unfold get_root; by rewrite Hroot).
  rewrite (bind_Ret _ _ _ _ _ Hr).
  destruct t as [|l a kv col r].
  { simpl. by rewrite app_nil_r. }
  cbn [root is_null]. rewrite (bind_Ret _ _ _ _ _ Hr).
  apply (walkByLevels_loop_spec s (size (Bin l a kv col r)) [Bin l a kv col r]).
  - apply Forall_singleton. split; [done|]. by exists None.
  - by apply Forall_singleton.
  - simpl in *. lia.
Qed.

Lemma root_keys_entries ts :
  Forall (λ t, t ≠ Leaf) ts → length (root_keys ts) = length ts.
Proof.
  induction 1 as [|t ts Hne _ IH]; [done|]. destruct t; [done|].
  cbn [root_keys flat_map app length]. f_equal. exact IH.
Qed.

Lemma subtrees_entries (f : tree K T → list K) t :
  f Leaf = [] → flat_map f (subtrees t) = f t.
Proof. intros Hf. destruct t; simpl; [done|by rewrite app_nil_r]. Qed.

(** Level order is a rearrangement of the in-order sequence. *)
Lemma by_level_perm n : ∀ ts,
  Forall (λ t, size t ≤ n) ts →
  by_level n ts ≡ₚ flat_map (λ t, (entries t).*1) ts.
Proof.
  induction n as [|n IH]; intros ts Hsz.
  - simpl. induction Hsz as [|t ts Ht _ IHts]; [done|].
    destruct t; [exact IHts|simpl in Ht; lia].
  - cbn [by_level]. rewrite (IH (children ts)) by (by apply children_smaller).
    clear. induction ts as [|t ts IHts]; [done|].
    destruct t as [|l a kv col r]; [exact IHts|].
    cbn [root_keys children flat_map entries]. fold (children ts). fold (root_keys ts).
    rewrite <- (app_assoc (subtrees l)), !flat_map_app.
    rewrite !(subtrees_entries (λ t, (entries t).*1)) by done.
    set (X := flat_map (λ t, (entries t).*1) (children ts)) in *.
    set (Y := flat_map (λ t, (entries t).*1) ts) in *.
    rewrite fmap_app, fmap_cons, <- IHts. cbn [app].
    rewrite <- !app_assoc. cbn [app]. rewrite <- Permutation_middle.
    apply Permutation_skip.
    etrans; [apply Permutation_app_comm|]. rewrite <- !app_assoc.
    do 2 apply Permutation_app_head. apply Permutation_app_comm.
Qed.

(** X20: [walkByLevels] changes nothing and appends the keys of the tree
    to the stream level by level: the key of the root, then the keys of its
    children from left to right, then those of their children, and so on.
    Every key of the tree is written once; for an empty tree nothing is
    written. *)
Theorem walkByLevels_level_order s t fuel out :
  tree_at s t → size t < fuel →
  walkByLevels fuel out s = Ret (out ++ by_level (size t) [t]) s
  ∧ by_level (size t) [t] ≡ₚ (entries t).*1.
Proof.
  intros Ht Hfuel. split; [by apply walkByLevels_wf|].
  rewrite (by_level_perm (size t) [t]) by (by apply Forall_singleton).
  simpl. by rewrite app_nil_r.
Qed.

End Levels.

(** ** Valid trees: what [insert] keeps, and the root that [erase] cannot remove *)

Section Validity.
Context {K T Compare : Type} `{!Comparator K Compare} `{!DefaultConstructible T}.
Implicit Types (s : State K T Compare) (t l r : tree K T) (c : list (frame K T)).

(** What a valid tree is, for the code that follows: the data model's
    invariants 2 to 5 and the freshness of the allocator. *)
Lemma insert_valid_step s t fuel key v n :
  StrictWeakOrder (call (compare_ (this s))) →
  tree_at s t → bst (call (compare_ (this s))) t →
  tree_color t = Black → red_black t n →
  alloc_ok s → avail s ≠ 0 → S (size t) < fuel →
  ∃ b s' t' h,
    insert fuel key v s = Ret b s'
    ∧ isRBTree fuel s' = Ret true s'
    ∧ tree_at s' t' ∧ bst (call (compare_ (this s'))) t'
    ∧ tree_color t' = Black ∧ red_black t' h
    ∧ alloc_ok s' ∧ compare_ (this s') = compare_ (this s)
    ∧ avail s ≤ S (avail s') ∧ size t' ≤ S (size t)
    ∧ (b = false ↔ present (call (compare_ (this s))) key t).
Proof.
  intros Hswo Ht Hbst Hblack Hrb Hok Hav Hfuel.
  destruct (lookup (call (compare_ (this s))) key t) as [[a kv]|] eqn:Hl.
  - assert (present (call (compare_ (this s))) key t) as Hp.
    { apply lookup_equiv in Hl as [Hin Heq]. exists kv. split; [|done].
      rewrite entries_nodes. apply list_elem_of_fmap. by exists (a, kv). }
    assert (t ≠ Leaf) as Hne by (intros ->; done).
    destruct (isRBTree_wf s t fuel Ht Hne ltac:(lia)) as (b & Hchk & Hb).
    assert (b = true) as -> by (apply Hb; eauto).
    exists false, s, t, n.
    rewrite (insert_present s t fuel key v Hswo Ht Hbst ltac:(lia) Hp).
    split_and!; try done; try lia.
  - apply (lookup_None _ key t Hbst) in Hl.
    destruct (insert_absent_rb s t fuel key v Hswo Ht Hbst Hblack Hok Hav ltac:(lia) Hl)
      as (s' & t' & Hrun & Hi & Hrb').
    destruct (Hrb' n Hrb) as (h & Hh).
    pose proof (inserted_size _ _ _ _ _ _ Hi) as Hsz.
    destruct Hi as (Ht' & Hbst' & Hblack' & Hok' & Hav' & _ & Hc & _).
    assert (t' ≠ Leaf) as Hne by (intros ->; done).
    destruct (isRBTree_wf s' t' fuel Ht' Hne ltac:(lia)) as (b & Hchk & Hb).
    assert (b = true) as -> by (apply Hb; eauto).
    exists true, s', t', h. split_and!; try done; try lia.
Qed.

(** X21: [insert] keeps a valid tree valid.  Called on a search tree with
    a Black root in which no Red node has a Red child and all paths count
    the same number of Black nodes, with a node to allocate, it returns, and
    the tree it leaves is again such a tree; [isRBTree] confirms it. *)
Theorem insert_keeps_red_black s t fuel key v n :
  StrictWeakOrder (call (compare_ (this s))) →
  tree_at s t → bst (call (compare_ (this s))) t →
  tree_color t = Black → red_black t n →
  alloc_ok s → avail s ≠ 0 → S (size t) < fuel →
  ∃ b s' t' h,
    insert fuel key v s = Ret b s'
    ∧ tree_at s' t' ∧ bst (call (compare_ (this s'))) t'
    ∧ tree_color t' = Black ∧ red_black t' h
    ∧ isRBTree fuel s' = Ret true s'.
Proof.
  intros Hswo Ht Hbst Hblack Hrb Hok Hav Hfuel.
  destruct (insert_valid_step s t fuel key v n Hswo Ht Hbst Hblack Hrb Hok Hav Hfuel)
    as (b & s' & t' & h & Hrun & Hchk & Ht' & Hbst' & Hblack' & Hrb' & _).
  by exists b, s', t', h.
Qed.

Lemma inserts_valid kvs : ∀ s t fuel n,
  StrictWeakOrder (call (compare_ (this s))) →
  tree_at s t → bst (call (compare_ (this s))) t →
  tree_color t = Black → red_black t n →
  alloc_ok s → length kvs ≤ avail s → S (size t + length kvs) < fuel →
  ∃ res s', run_ops fuel (map (λ kv, OpInsert kv.1 kv.2) kvs) s = Ret res s'
            ∧ length res = length kvs
            ∧ Forall (λ bv : bool * bool, bv.2 = true) res.
Proof.
  induction kvs as [|[key v] kvs IH]; intros s t fuel n Hswo Ht Hbst Hblack Hrb Hok Hav Hfuel.
  { exists [], s. by split_and!. }
  simpl in Hav, Hfuel.
  destruct (insert_valid_step s t fuel key v n Hswo Ht Hbst Hblack Hrb Hok ltac:(lia) ltac:(lia))
    as (b & s' & t' & h & Hrun & Hchk & Ht' & Hbst' & Hblack' & Hrb' & Hok' & Hc & Hav' & Hsz & _).
  destruct (IH s' t' fuel h) as (res & s'' & Hrest & Hlen & Hall);
    [by rewrite Hc|done|done|done|done|done|lia|lia|].
  exists ((b, true) :: res), s''. split_and!.
  - cbn [map run_ops apply_op fst snd].
    rewrite (bind_Ret _ _ _ _ _ Hrun), (bind_Ret _ _ _ _ _ Hchk), (bind_Ret _ _ _ _ _ Hrest).
    done.
  - simpl. by rewrite Hlen.
  - by apply Forall_cons.
Qed.

(** X22: any sequence of insertions into an empty tree keeps the tree
    valid: every call returns, and [isRBTree] returns true after each of
    them, as long as there are nodes to allocate. *)
Theorem inserts_keep_red_black (kvs : list (K * T)) s fuel :
  StrictWeakOrder (call (compare_ (this s))) →
  root_ (this s) = None → alloc_ok s →
  length kvs ≤ avail s → S (length kvs) < fuel →
  ∃ res s', run_ops fuel (map (λ kv, OpInsert kv.1 kv.2) kvs) s = Ret res s'
            ∧ length res = length kvs
            ∧ Forall (λ bv : bool * bool, bv.2 = true) res.
Proof.
  intros Hswo Hroot Hok Hav Hfuel.
  apply (inserts_valid kvs s Leaf fuel 1); try done.
  - split_and!; [done|done|apply NoDup_nil_2].
  - apply SSorted_nil.
  - constructor.
Qed.

(** X23: [erase] cannot remove the root of a tree while the root is Black
    and has at most one child, which in a valid tree is the case whenever
    the tree holds one or two entries and the key is that of the root:
    [eraseNode] hands the null parent of the root to [eraseFixup], which
    stops on its first assertion. *)
Theorem erase_root_aborts s l x kv r fuel key :
  StrictWeakOrder (call (compare_ (this s))) →
  tree_at s (Bin l x kv Black r) →
  bst (call (compare_ (this s))) (Bin l x kv Black r) →
  l = Leaf ∨ r = Leaf → size (Bin l x kv Black r) ≤ fuel →
  equivb (call (compare_ (this s))) key kv.1 = true →
  erase fuel key s = Abort AssertionFailed.
Proof.
  intros Hswo Ht Hbst Hone Hfuel Heq.
  rewrite (erase_found s (Bin l x kv Black r) fuel key x kv Ht Hfuel)
    by (simpl; by rewrite Heq).
  assert (∃ s1 ilb, eraseNode fuel (Some x) s = eraseFixup fuel None ilb s1)
    as (s1 & ilb & Hrun).
  { destruct l as [|ll la lkv lc lr], r as [|rl ra rkv rc rr].
    - destruct (erase_leaf s [] x kv Black fuel Hswo Ht Hbst) as (s1 & ilb & Hrun & _).
      by exists s1, ilb.
    - destruct (erase_one_right s [] rl ra rkv rc rr x kv Black fuel Hswo Ht Hbst)
        as (s1 & ilb & Hrun & _).
      by exists s1, ilb.
    - destruct (erase_one_left s [] ll la lkv lc lr x kv Black fuel Hswo Ht Hbst)
        as (s1 & ilb & Hrun & _).
      by exists s1, ilb.
    - by destruct Hone. }
  unfold bind at 1. by rewrite Hrun.
Qed.

End Validity.

(** ** The theorems at work on integer keys *)

Lemma alloc_ok_bounded {K T Compare} (s : State K T Compare) :
  map_Forall (λ a _, (a < next s)%positive) (heap s) → alloc_ok s.
Proof.
  intros Hall a Ha. destruct (heap s !! a) as [n|] eqn:E; [|done].
  apply Hall in E. simpl in E. lia.
Qed.

Module Examples.
Import IntTree Samples.

#[global] Instance Order_swo (o : Order) : StrictWeakOrder (call o).
Proof.
  destruct o as [[]]; split; simpl; intros *;
    rewrite ?Z.ltb_lt, ?Z.ltb_ge; lia.
Qed.

(** C5: on the tree built from 1, 3, 5, 7, [lowerBound] for the key 4, for
    the key 7 and for the key 8 gets as far as the call of the comparator
    on the entry of the node [findNode] has reached; no iterator comes
    back. *)
Theorem lowerBound_compares_entry :
  lowerBound 64 4%Z (state_of [1; 3; 5; 7]%Z) = Abort IllTyped
  ∧ lowerBound 64 7%Z (state_of [1; 3; 5; 7]%Z) = Abort IllTyped
  ∧ lowerBound 64 8%Z (state_of [1; 3; 5; 7]%Z) = Abort IllTyped.
Proof. split_and!; vm_compute; reflexivity. Qed.

(** *** The tree of 1, 3, 5, 7 *)

Lemma tree_1357_at : tree_at (state_of [1; 3; 5; 7]%Z) tree_1357.
Proof.
  unfold tree_at, tree_1357. cbn [wf root addrs app].
  split_and!; try (vm_compute; reflexivity); try exact I.
  apply (bool_decide_unpack _). vm_compute. exact I.
Defined.

Lemma tree_1357_wf : wf (heap (state_of [1; 3; 5; 7]%Z)) None tree_1357.
Proof. exact (proj1 tree_1357_at). Defined.

Lemma tree_1357_root : root_ (this (state_of [1; 3; 5; 7]%Z)) = root tree_1357.
Proof. exact (proj1 (proj2 tree_1357_at)). Defined.

Lemma tree_1357_nodup : NoDup (addrs tree_1357).
Proof. exact (proj2 (proj2 tree_1357_at)). Defined.

Lemma tree_1357_bst : bst (call (compare_ (this (state_of [1; 3; 5; 7]%Z)))) tree_1357.
Proof.
  unfold bst, tree_1357. cbn [entries app].
  repeat (first [apply SSorted_nil | apply SSorted_cons | apply Forall_nil_2 | apply Forall_cons_2 ]);
    vm_compute; reflexivity.
Defined.

Lemma state_1357_alloc_ok : alloc_ok (state_of [1; 3; 5; 7]%Z).
Proof. apply alloc_ok_bounded. apply (bool_decide_unpack _). vm_compute. exact I. Defined.

Lemma tree_1357_present k :
  k ∈ [1; 3; 5; 7]%Z → present (call (compare_ (this (state_of [1; 3; 5; 7]%Z)))) k tree_1357.
Proof.
  intros Hk. exists (k, 10 * k)%Z. split; [|by (apply equivb_true; simpl; rewrite Z.ltb_irrefl)].
  unfold tree_1357. cbn [entries app].
  repeat (apply elem_of_cons in Hk as [->|Hk]; [set_solver|]). set_solver.
Defined.

Lemma tree_1357_absent k :
  k ∉ [1; 3; 5; 7]%Z → ¬ present (call (compare_ (this (state_of [1; 3; 5; 7]%Z)))) k tree_1357.
Proof.
  intros Hk (e & He & Heq). apply equivb_true in Heq as [H1 H2].
  change (call (compare_ (this (state_of [1; 3; 5; 7]%Z)))) with Z.ltb in H1, H2.
  apply Z.ltb_ge in H1, H2. assert (k = e.1) as -> by lia.
  apply Hk. unfold tree_1357 in He. cbn [entries app] in He.
  repeat (apply elem_of_cons in He as [->|He]; [set_solver|]). set_solver.
Defined.

Lemma tree_1357_node3 kv : (3%positive, kv) ∈ nodes tree_1357 → kv = (5, 50)%Z.
Proof.
  unfold tree_1357. cbn [nodes app]. intros Hin.
  repeat (apply elem_of_cons in Hin as [Hin|Hin]; [by simplify_eq|]).
  by apply elem_of_nil in Hin.
Defined.

Lemma key_3_stored : 3%Z ∈ [1; 3; 5; 7]%Z.
Proof. set_solver. Defined.

Lemma key_5_stored : 5%Z ∈ [1; 3; 5; 7]%Z.
Proof. set_solver. Defined.

Lemma key_7_stored : 7%Z ∈ [1; 3; 5; 7]%Z.
Proof. set_solver. Defined.

Lemma key_4_not_stored : 4%Z ∉ [1; 3; 5; 7]%Z.
Proof. set_solver. Defined.

Lemma tree_1357_has a : a ∈ [1; 2; 3; 4]%positive → a ∈ addrs tree_1357.
Proof. intros Ha. exact Ha. Defined.

Lemma node_2_of_4 : 2%positive ∈ [1; 2; 3; 4]%positive.
Proof. set_solver. Defined.

Lemma node_3_of_4 : 3%positive ∈ [1; 2; 3; 4]%positive.
Proof. set_solver. Defined.

(** *** The same tree with two nodes left to allocate *)

Lemma low_state_at : tree_at low_state tree_1357.
Proof.
  unfold tree_at, tree_1357. cbn [wf root addrs app].
  split_and!; try (vm_compute; reflexivity); try exact I.
  apply (bool_decide_unpack _). vm_compute. exact I.
Defined.

Lemma low_state_alloc_ok : alloc_ok low_state.
Proof. apply alloc_ok_bounded. apply (bool_decide_unpack _). vm_compute. exact I. Defined.

(** *** The tree and its copy *)

Lemma two_trees_at : tree_at two_trees tree_1357_copy.
Proof.
  unfold tree_at, tree_1357_copy. cbn [wf root addrs app].
  split_and!; try (vm_compute; reflexivity); try exact I.
  apply (bool_decide_unpack _). vm_compute. exact I.
Defined.

Lemma two_trees_bst : bst (call (compare_ (this two_trees))) tree_1357_copy.
Proof.
  unfold bst, tree_1357_copy. cbn [entries app].
  repeat (first [apply SSorted_nil | apply SSorted_cons | apply Forall_nil_2 | apply Forall_cons_2 ]);
    vm_compute; reflexivity.
Defined.

Lemma two_trees_alloc_ok : alloc_ok two_trees.
Proof. apply alloc_ok_bounded. apply (bool_decide_unpack _). vm_compute. exact I. Defined.

Lemma two_trees_source : wf (heap two_trees) None tree_1357.
Proof.
  unfold tree_1357. cbn [wf root]. split_and!; try (vm_compute; reflexivity); exact I.
Defined.

Lemma two_trees_disjoint a : a ∈ addrs tree_1357 → a ∉ addrs tree_1357_copy.
Proof.
  unfold tree_1357, tree_1357_copy. cbn [addrs app]. intros Ha Hb.
  assert (a < 5)%positive.
  { repeat (apply elem_of_cons in Ha as [->|Ha]; [lia|]). by apply elem_of_nil in Ha. }
  repeat (apply elem_of_cons in Hb as [->|Hb]; [lia|]). by apply elem_of_nil in Hb.
Defined.

(** *** The tree of the descending order *)

Lemma tree_7531_wf : wf (heap desc_state) None tree_7531.
Proof.
  unfold tree_7531. cbn [wf root]. split_and!; try (vm_compute; reflexivity); exact I.
Defined.

Lemma tree_7531_root : root_ (this desc_state) = root tree_7531.
Proof. vm_compute. reflexivity. Defined.

Lemma tree_7531_nodup : NoDup (addrs tree_7531).
Proof. apply (bool_decide_unpack _). vm_compute. exact I. Defined.

(** *** Insertion, lookup, copies and moves *)

Lemma insert_reports_duplicates_witness :
  insert 64 3%Z 0%Z (state_of [1; 3; 5; 7]%Z) = Ret false (state_of [1; 3; 5; 7]%Z)
  ∧ ∃ s', insert 64 4%Z 40%Z (state_of [1; 3; 5; 7]%Z) = Ret true s'
          ∧ insert 64 4%Z 41%Z s' = Ret false s'
          ∧ ∃ a, at_ 64 4%Z s' = Ret a s' ∧ read_mapped a s' = Ret 40%Z s'.
Proof.
  split.
  - apply (insert_reports_duplicates (state_of [1; 3; 5; 7]%Z) tree_1357 64 3%Z 0%Z);
      [apply _|apply tree_1357_at|apply tree_1357_bst|reflexivity|apply state_1357_alloc_ok
      |vm_compute; lia|vm_compute; lia|].
    apply tree_1357_present, key_3_stored.
  - destruct (insert_reports_duplicates (state_of [1; 3; 5; 7]%Z) tree_1357 64 4%Z 40%Z)
      as (_ & Hnew);
      [apply _|apply tree_1357_at|apply tree_1357_bst|reflexivity|apply state_1357_alloc_ok
      |vm_compute; lia|vm_compute; lia|].
    destruct (Hnew (tree_1357_absent 4%Z key_4_not_stored)) as (s' & t' & Hins & _ & Hagain).
    destruct (Hagain 41%Z) as (a & H1 & H2 & H3).
    exists s'. split; [exact Hins|]. split; [exact H1|]. exists a. split; [exact H2|exact H3].
Defined.

Lemma at_checked_lookup_witness :
  (∃ a kv, at_ 64 5%Z (state_of [1; 3; 5; 7]%Z) = Ret a (state_of [1; 3; 5; 7]%Z)
           ∧ (a, kv) ∈ nodes tree_1357
           ∧ read_mapped a (state_of [1; 3; 5; 7]%Z) = Ret kv.2 (state_of [1; 3; 5; 7]%Z))
  ∧ at_ 64 4%Z (state_of [1; 3; 5; 7]%Z) = Throw out_of_range (state_of [1; 3; 5; 7]%Z)
  ∧ ∃ s', erase 64 7%Z (state_of [1; 3; 5; 7]%Z) = Ret true s'
          ∧ at_ 64 7%Z s' = Throw out_of_range s'.
Proof.
  destruct (at_checked_lookup (state_of [1; 3; 5; 7]%Z) tree_1357 64 5%Z
              (Order_swo _) tree_1357_at tree_1357_bst ltac:(vm_compute; lia)) as (Hp & _).
  destruct (at_checked_lookup (state_of [1; 3; 5; 7]%Z) tree_1357 64 4%Z
              (Order_swo _) tree_1357_at tree_1357_bst ltac:(vm_compute; lia)) as (_ & Ha & _).
  destruct (at_checked_lookup (state_of [1; 3; 5; 7]%Z) tree_1357 64 7%Z
              (Order_swo _) tree_1357_at tree_1357_bst ltac:(vm_compute; lia))
    as (_ & _ & _ & He).
  split; [|split].
  - destruct (Hp (tree_1357_present 5%Z key_5_stored)) as (a & kv & Hat & Hin & _ & Hread).
    exists a, kv. split; [exact Hat|]. split; [exact Hin|exact Hread].
  - exact (Ha (tree_1357_absent 4%Z key_4_not_stored)).
  - eexists. split; [vm_compute; reflexivity|].
    apply (He true). vm_compute. reflexivity.
Defined.

Lemma copy_construct_independent_witness :
  ∃ s' t', copy_construct 64 (this (state_of [1; 3; 5; 7]%Z)) (state_of [1; 3; 5; 7]%Z) = Ret tt s'
           ∧ tree_at s' t' ∧ clone_at true tree_1357 t'
           ∧ wf (heap s') None tree_1357.
Proof.
  destruct (copy_construct_independent (state_of [1; 3; 5; 7]%Z) (this (state_of [1; 3; 5; 7]%Z))
              tree_1357 64 tree_1357_wf tree_1357_root tree_1357_nodup state_1357_alloc_ok
              ltac:(vm_compute; lia) ltac:(vm_compute; lia))
    as (s' & t' & Hrun & Ht' & Hcl & _ & _ & _ & _ & Hsrc & _).
  exists s', t'. split; [exact Hrun|]. split; [exact Ht'|]. split; [exact Hcl|exact Hsrc].
Defined.

Lemma copy_construct_rolls_back_witness :
  ∃ s', copy_construct 64 (this low_state) low_state = Ret tt s'
        ∧ root_ (this s') = None ∧ heap s' = heap low_state.
Proof.
  destruct (copy_construct_rolls_back low_state (this low_state) tree_1357 64
              (proj1 low_state_at) (proj1 (proj2 low_state_at)) tree_1357_nodup
              low_state_alloc_ok ltac:(vm_compute; lia) ltac:(vm_compute; lia))
    as (s' & Hrun & Hr & _ & Hh & _).
  exists s'. split; [exact Hrun|]. split; [exact Hr|exact Hh].
Defined.

Lemma move_construct_default_compare_witness :
  ∃ src' s', move_construct (this desc_state) desc_state = Ret src' s'
             ∧ compare_ (this s') = mkOrder false
             ∧ findNode 64 7%Z s' = Ret (Some 1%positive) s'
             ∧ erase 64 7%Z s' = Ret false s'.
Proof.
  destruct (move_construct_default_compare (this desc_state) desc_state tree_7531 64 7%Z 0%Z
              tree_7531_wf tree_7531_root tree_7531_nodup ltac:(vm_compute; lia))
    as ((src' & s' & Hrun & Hc & _ & Hfind & _ & Herase & _) & _).
  exists src', s'. split; [exact Hrun|]. split; [exact Hc|]. split; [exact Hfind|].
  apply Herase. vm_compute. reflexivity.
Defined.

(** *** Further properties *)

Lemma findNode_finds_witness :
  ∃ q, findNode 64 5%Z (state_of [1; 3; 5; 7]%Z) = Ret q (state_of [1; 3; 5; 7]%Z)
       ∧ ∃ a kv, q = Some a ∧ (a, kv) ∈ nodes tree_1357.
Proof.
  destruct (findNode_finds (state_of [1; 3; 5; 7]%Z) tree_1357 64 5%Z (Order_swo _)
              tree_1357_at tree_1357_bst ltac:(vm_compute; lia)) as (q & Hq & _ & Hp & _).
  exists q. split; [exact Hq|].
  destruct (Hp (tree_1357_present 5%Z key_5_stored)) as (a & kv & Ha & Hin & _).
  exists a, kv. split; [exact Ha|exact Hin].
Defined.

Lemma count_presence_witness :
  count 64 5%Z (state_of [1; 3; 5; 7]%Z) = Ret 1%Z (state_of [1; 3; 5; 7]%Z)
  ∧ count 64 4%Z (state_of [1; 3; 5; 7]%Z) = Ret 0%Z (state_of [1; 3; 5; 7]%Z).
Proof.
  destruct (count_presence (state_of [1; 3; 5; 7]%Z) tree_1357 64 5%Z (Order_swo _)
              tree_1357_at tree_1357_bst ltac:(vm_compute; lia)) as (H5 & _).
  destruct (count_presence (state_of [1; 3; 5; 7]%Z) tree_1357 64 4%Z (Order_swo _)
              tree_1357_at tree_1357_bst ltac:(vm_compute; lia)) as (_ & H4).
  split; [exact (H5 (tree_1357_present 5%Z key_5_stored))
         |exact (H4 (tree_1357_absent 4%Z key_4_not_stored))].
Defined.

Lemma erase_absent_key_witness :
  erase 64 4%Z (state_of [1; 3; 5; 7]%Z) = Ret false (state_of [1; 3; 5; 7]%Z).
Proof.
  exact (erase_absent_key (state_of [1; 3; 5; 7]%Z) tree_1357 64 4%Z (Order_swo _)
           tree_1357_at tree_1357_bst ltac:(vm_compute; lia)
           (tree_1357_absent 4%Z key_4_not_stored)).
Defined.

Lemma erase_removes_entry_witness :
  ∃ s' t', erase 64 7%Z (state_of [1; 3; 5; 7]%Z) = Ret true s'
           ∧ tree_at s' t'
           ∧ without (7, 70)%Z (entries tree_1357) (entries t')
           ∧ heap s' !! 4%positive = None.
Proof.
  eassert (erase 64 7%Z (state_of [1; 3; 5; 7]%Z) = Ret true _) as Hrun
    by (vm_compute; reflexivity).
  destruct (erase_removes_entry (state_of [1; 3; 5; 7]%Z) tree_1357 64 7%Z _ _ (Order_swo _)
              tree_1357_at tree_1357_bst ltac:(vm_compute; lia) Hrun)
    as [(Hb & _)|(_ & x & kv & t' & Hl & Ht' & Hw & _ & _ & Hx & _)];
    [discriminate Hb|].
  vm_compute in Hl. injection Hl as <- <-.
  eexists _, t'. split; [exact Hrun|]. split; [exact Ht'|]. split; [exact Hw|exact Hx].
Defined.

Lemma insert_out_of_memory_witness :
  insert 64 1%Z 10%Z (empty_state 0) = Throw bad_alloc (empty_state 0).
Proof.
  apply (insert_out_of_memory (empty_state 0) Leaf 64 1%Z 10%Z (Order_swo _)).
  - split; [exact I|]. split; [reflexivity|apply NoDup_nil_2].
  - apply SSorted_nil.
  - simpl. lia.
  - intros (e & He & _). by apply elem_of_nil in He.
  - reflexivity.
Defined.


Lemma begin_leftmost_witness :
  begin_ 64 (state_of [1; 3; 5; 7]%Z) = Ret (Some 1%positive) (state_of [1; 3; 5; 7]%Z).
Proof.
  exact (proj1 (begin_leftmost (state_of [1; 3; 5; 7]%Z) tree_1357 64 tree_1357_at
                  ltac:(vm_compute; lia))).
Defined.

Lemma rotations_keep_order_witness :
  (∃ s', rotateLeft (Some 2%positive) (state_of [1; 3; 5; 7]%Z) = Ret tt s'
         ∧ root_ (this s') = Some 3%positive)
  ∧ (∃ s', rotateRight (Some 2%positive) (state_of [1; 3; 5; 7]%Z) = Ret tt s'
           ∧ root_ (this s') = Some 1%positive).
Proof.
  destruct (rotations_keep_order (state_of [1; 3; 5; 7]%Z) []
              (Bin Leaf 1%positive (1, 10)%Z Black Leaf)
              2%positive (3, 30)%Z Black Leaf 3%positive (5, 50)%Z Black
              (Bin Leaf 4%positive (7, 70)%Z Red Leaf) (Order_swo _)) as (HL & _).
  destruct (rotations_keep_order (state_of [1; 3; 5; 7]%Z) [] Leaf
              2%positive (3, 30)%Z Black Leaf 1%positive (1, 10)%Z Black
              (Bin Leaf 3%positive (5, 50)%Z Black (Bin Leaf 4%positive (7, 70)%Z Red Leaf))
              (Order_swo _)) as (_ & HR).
  split.
  - destruct (HL tree_1357_at tree_1357_bst) as (s' & Hrun & (_ & Hroot & _) & _).
    exists s'. split; [exact Hrun|exact Hroot].
  - destruct (HR tree_1357_at tree_1357_bst) as (s' & Hrun & (_ & Hroot & _) & _).
    exists s'. split; [exact Hrun|exact Hroot].
Defined.

Lemma isRBTree_decides_red_black_witness :
  isRBTree 64 (state_of [1; 3; 5; 7]%Z) = Ret true (state_of [1; 3; 5; 7]%Z).
Proof.
  destruct (isRBTree_decides_red_black (state_of [1; 3; 5; 7]%Z) tree_1357 64 tree_1357_at
              ltac:(discriminate) ltac:(vm_compute; lia)) as (b & Hrun & _ & Hb).
  rewrite Hb in Hrun; [exact Hrun|].
  split; [reflexivity|]. exists 3. unfold tree_1357. repeat constructor.
Defined.

Lemma isRBTree_empty_tree_witness : isRBTree 64 (empty_state 64) = Abort NullDeref.
Proof. exact (isRBTree_empty_tree (empty_state 64) 64 eq_refl). Defined.

Lemma clear_frees_all_witness :
  ∃ s', clear 64 (state_of [1; 3; 5; 7]%Z) = Ret tt s'
        ∧ heap s' !! 2%positive = None ∧ root_ (this s') = None.
Proof.
  destruct (clear_frees_all (state_of [1; 3; 5; 7]%Z) tree_1357 64 tree_1357_at
              ltac:(vm_compute; lia)) as (s' & Hrun & Hin & _ & Hr & _).
  exists s'. split; [exact Hrun|]. split; [|exact Hr].
  exact (Hin 2%positive (tree_1357_has _ node_2_of_4)).
Defined.

Lemma copy_assign_clones_witness :
  ∃ s' t', copy_assign 64 (this (state_of [1; 3; 5; 7]%Z)) (state_of [1; 3; 5; 7]%Z) = Ret tt s'
           ∧ tree_at s' t' ∧ clone_at true tree_1357 t'
           ∧ heap s' !! 2%positive = None.
Proof.
  destruct (copy_assign_clones (state_of [1; 3; 5; 7]%Z) tree_1357 (this (state_of [1; 3; 5; 7]%Z))
              tree_1357 64 tree_1357_at tree_1357_wf tree_1357_root tree_1357_nodup
              state_1357_alloc_ok
              ltac:(vm_compute; lia) ltac:(vm_compute; lia) ltac:(vm_compute; lia))
    as (s' & t' & Hrun & Ht' & Hcl & _ & _ & Hold & _).
  exists s', t'. split; [exact Hrun|]. split; [exact Ht'|]. split; [exact Hcl|].
  exact (Hold 2%positive (tree_1357_has _ node_2_of_4)).
Defined.

Lemma copy_assign_out_of_memory_witness :
  ∃ s', copy_assign 64 (this low_state) low_state = Ret tt s'
        ∧ root_ (this s') = None ∧ heap s' !! 2%positive = None.
Proof.
  destruct (copy_assign_out_of_memory low_state tree_1357 (this low_state) tree_1357 64
              low_state_at (proj1 low_state_at) (proj1 (proj2 low_state_at)) tree_1357_nodup
              low_state_alloc_ok
              ltac:(vm_compute; lia) ltac:(vm_compute; lia) ltac:(vm_compute; lia))
    as (s' & Hrun & Hr & _ & Hold & _).
  exists s'. split; [exact Hrun|]. split; [exact Hr|].
  exact (Hold 2%positive (tree_1357_has _ node_2_of_4)).
Defined.

Lemma insert_leaves_other_trees_witness :
  ∃ b s', insert 64 4%Z 40%Z two_trees = Ret b s' ∧ wf (heap s') None tree_1357.
Proof.
  exact (insert_leaves_other_trees two_trees tree_1357_copy 64 4%Z 40%Z None tree_1357
           (Order_swo _) two_trees_at two_trees_bst eq_refl two_trees_alloc_ok
           ltac:(vm_compute; lia) ltac:(vm_compute; lia) two_trees_source two_trees_disjoint).
Defined.

Lemma erase_leaves_other_trees_witness :
  ∃ s', erase 64 7%Z two_trees = Ret true s' ∧ wf (heap s') None tree_1357.
Proof.
  eassert (erase 64 7%Z two_trees = Ret true _) as Hrun by (vm_compute; reflexivity).
  eexists. split; [exact Hrun|].
  exact (erase_leaves_other_trees two_trees tree_1357_copy 64 7%Z true _ None tree_1357
           (Order_swo _) two_trees_at two_trees_bst ltac:(vm_compute; lia)
           two_trees_source two_trees_disjoint Hrun).
Defined.

Lemma eraseFixup_keeps_entries_witness :
  ∃ s' t', eraseFixup 64 (Some 3%positive) false (state_of [1; 3; 5; 7]%Z) = Ret tt s'
           ∧ tree_at s' t' ∧ entries t' = entries tree_1357.
Proof.
  eassert (eraseFixup 64 (Some 3%positive) false (state_of [1; 3; 5; 7]%Z) = Ret tt _) as Hrun
    by (vm_compute; reflexivity).
  destruct (eraseFixup_keeps_entries (state_of [1; 3; 5; 7]%Z) tree_1357 64 (Some 3%positive)
              false _ (Order_swo _) tree_1357_at tree_1357_bst
              (tree_1357_has _ node_3_of_4) Hrun)
    as (t' & Ht' & He & _).
  eexists _, t'. split; [exact Hrun|]. split; [exact Ht'|exact He].
Defined.

Lemma insertFixup_blackens_root_witness :
  ∃ s' t', insertFixup 64 (Some 4%positive) (state_of [1; 3; 5; 7]%Z) = Ret tt s'
           ∧ tree_at s' t' ∧ tree_color t' = Black.
Proof.
  destruct (insertFixup_blackens_root 64
              [InR Leaf 3%positive (5, 50)%Z Black;
               InR (Bin Leaf 1%positive (1, 10)%Z Black Leaf) 2%positive (3, 30)%Z Black]
              Leaf 4%positive (7, 70)%Z Red Leaf (state_of [1; 3; 5; 7]%Z) (Order_swo _)
              tree_1357_at tree_1357_bst eq_refl ltac:(simpl; lia))
    as (s' & t' & Hrun & Ht' & Hb & _).
  exists s', t'. split; [exact Hrun|]. split; [exact Ht'|exact Hb].
Defined.

Lemma updateParentNode_relinks_witness :
  ∃ s', updateParentNode (Some 4%positive) None (state_of [1; 3; 5; 7]%Z) = Ret tt s'
        ∧ heap s' !! 3%positive
          = Some (detail.mkNode (5, 50)%Z Black (Some 2%positive) None None).
Proof.
  eexists. split.
  - apply (updateParentNode_relinks (state_of [1; 3; 5; 7]%Z)
             [InR Leaf 3%positive (5, 50)%Z Black;
              InR (Bin Leaf 1%positive (1, 10)%Z Black Leaf) 2%positive (3, 30)%Z Black]
             Leaf 4%positive (7, 70)%Z Red Leaf None (Order_swo _)).
    + cbn [wf_ctx wf ctx_par frame_addr root].
      split_and!; try (vm_compute; reflexivity); exact I.
    + vm_compute. reflexivity.
    + exact tree_1357_bst.
  - cbn [heap set_heap]. apply lookup_insert_eq.
Defined.

Lemma count_follows_insert_erase_witness :
  (∃ s', insert 64 4%Z 40%Z (state_of [1; 3; 5; 7]%Z) = Ret true s'
         ∧ count 64 4%Z s' = Ret 1%Z s')
  ∧ (∃ s', erase 64 7%Z (state_of [1; 3; 5; 7]%Z) = Ret true s'
           ∧ count 64 7%Z s' = Ret 0%Z s').
Proof.
  destruct (count_follows_insert_erase (state_of [1; 3; 5; 7]%Z) tree_1357 64 4%Z 40%Z
              (Order_swo _) tree_1357_at tree_1357_bst ltac:(vm_compute; lia)) as (Hi & _).
  destruct (count_follows_insert_erase (state_of [1; 3; 5; 7]%Z) tree_1357 64 7%Z 0%Z
              (Order_swo _) tree_1357_at tree_1357_bst ltac:(vm_compute; lia)) as (_ & He).
  split.
  - exact (Hi eq_refl state_1357_alloc_ok ltac:(vm_compute; lia)
             (tree_1357_absent 4%Z key_4_not_stored)).
  - eexists. split; [vm_compute; reflexivity|].
    apply (He true). vm_compute. reflexivity.
Defined.

Lemma walkByLevels_level_order_witness :
  walkByLevels 64 [] (state_of [1; 3; 5; 7]%Z) = Ret [3; 1; 5; 7]%Z (state_of [1; 3; 5; 7]%Z).
Proof.
  exact (proj1 (walkByLevels_level_order (state_of [1; 3; 5; 7]%Z) tree_1357 64 []
                  tree_1357_at ltac:(vm_compute; lia))).
Defined.

Lemma tree_1357_red_black : red_black tree_1357 3.
Proof. unfold tree_1357. repeat constructor. Defined.

Lemma insert_keeps_red_black_witness :
  ∃ b s', insert 64 4%Z 40%Z (state_of [1; 3; 5; 7]%Z) = Ret b s'
          ∧ isRBTree 64 s' = Ret true s'.
Proof.
  destruct (insert_keeps_red_black (state_of [1; 3; 5; 7]%Z) tree_1357 64 4%Z 40%Z 3
              (Order_swo _) tree_1357_at tree_1357_bst eq_refl tree_1357_red_black
              state_1357_alloc_ok ltac:(vm_compute; lia) ltac:(vm_compute; lia))
    as (b & s' & t' & h & Hrun & _ & _ & _ & _ & Hchk).
  exists b, s'. split; [exact Hrun|exact Hchk].
Defined.

Lemma empty_state_alloc_ok n : alloc_ok (empty_state n).
Proof. intros a _. apply lookup_empty. Defined.

Lemma inserts_keep_red_black_witness :
  ∃ res s', run_ops 64 (map (λ kv, OpInsert kv.1 kv.2) [(2, 20); (1, 10); (3, 30)]%Z)
              (empty_state 64) = Ret res s'
            ∧ length res = 3
            ∧ Forall (λ bv : bool * bool, bv.2 = true) res.
Proof.
  exact (inserts_keep_red_black [(2, 20); (1, 10); (3, 30)]%Z (empty_state 64) 64
           (Order_swo _) eq_refl (empty_state_alloc_ok 64)
           ltac:(vm_compute; lia) ltac:(vm_compute; lia)).
Defined.

Lemma erase_root_aborts_witness :
  erase 64 1%Z (state_of [1]%Z) = Abort AssertionFailed
  ∧ erase 64 1%Z (state_of [1; 2]%Z) = Abort AssertionFailed.
Proof.
  split.
  - apply (erase_root_aborts (state_of [1]%Z) Leaf 1%positive (1, 10)%Z Leaf 64 1%Z (Order_swo _)).
    + split; [|split]; [|vm_compute; reflexivity|apply (bool_decide_unpack _); vm_compute; exact I].
      cbn [wf root]. split; [vm_compute; reflexivity|]. split; exact I.
    + repeat (first [apply SSorted_nil | apply SSorted_cons | apply Forall_nil_2 ]).
    + by left.
    + simpl. lia.
    + vm_compute. reflexivity.
  - apply (erase_root_aborts (state_of [1; 2]%Z) Leaf 1%positive (1, 10)%Z
             (Bin Leaf 2%positive (2, 20)%Z Red Leaf) 64 1%Z (Order_swo _)).
    + split; [|split]; [|vm_compute; reflexivity|apply (bool_decide_unpack _); vm_compute; exact I].
      cbn [wf root]. split; [vm_compute; reflexivity|]. split; [exact I|].
      split; [vm_compute; reflexivity|]. split; exact I.
    + unfold bst. cbn [entries app].
      repeat (first [apply SSorted_nil | apply SSorted_cons | apply Forall_nil_2 | apply Forall_cons_2 ]);
        vm_compute; reflexivity.
    + by left.
    + simpl. lia.
    + vm_compute. reflexivity.
Defined.

End Examples.
